(** * tr-drive: a shallow embedding of the repeat-time control core

    The development follows the Python sources of the repository:

    - [Ackermann]  : [pf_drive/actuator/webots_ros_ackermann_actuator.py]
                     (command mapping of [run], [calc_and_output_odom]);
    - [Geometry]   : [tr_drive/util/geometry.py] ([Quat.norm],
                     [Quat.validate], [Frame.from_Pose]);
    - [Controller] : [pf_drive/controller/repeat_controller.py]
                     ([pass_to_next_goal] and the control loop of [run]).

    Numbers.  The actuator is embedded over the real numbers: a Python
    float is read as the real it denotes and rounding is not modelled, but
    the division by a zero radius raises as it does in Python.  The check
    of [Frame.from_Pose] is embedded on IEEE-754 binary64 floats, where
    its threshold and the errors of [** 2] live.  The controller is written
    once over an interface of scalars, instantiated with the reals
    (algebraic properties) and with binary64 floats (rounding, NaN and
    division by zero).  The rest of the geometry classes ([GeometryExt])
    is read over the reals. *)

From Stdlib Require Import Floats.
From Stdlib Require Import Reals Lra Lia ZArith List Bool.
From Stdlib Require String.
Import ListNotations.

(* ================================================================== *)
(** * The Ackermann actuator *)
(* ================================================================== *)

Module Ackermann.
Local Open Scope R_scope.

(** ** Small dense matrices, as numpy holds them *)

Record vec3 := V3 { vx : R; vy : R; vz : R }.

(** A 3x3 array, row major. *)
Record mat3 := M3 {
  a00 : R; a01 : R; a02 : R;
  a10 : R; a11 : R; a12 : R;
  a20 : R; a21 : R; a22 : R }.

(** A 4x4 homogeneous transform, row major: the pose [self.odom]. *)
Record mat4 := M4 {
  e00 : R; e01 : R; e02 : R; e03 : R;
  e10 : R; e11 : R; e12 : R; e13 : R;
  e20 : R; e21 : R; e22 : R; e23 : R;
  e30 : R; e31 : R; e32 : R; e33 : R }.

(** [np.eye(4)], the initial value of [self.odom]. *)
Definition eye4 : mat4 :=
  M4 1 0 0 0
     0 1 0 0
     0 0 1 0
     0 0 0 1.

Definition vadd (a b : vec3) : vec3 :=
  V3 (vx a + vx b) (vy a + vy b) (vz a + vz b).

Definition vsub (a b : vec3) : vec3 :=
  V3 (vx a - vx b) (vy a - vy b) (vz a - vz b).

Definition vneg (a : vec3) : vec3 := V3 (- vx a) (- vy a) (- vz a).

(** [np.dot(M, v)] for a 3x3 array and a vector. *)
Definition dot_mv (m : mat3) (v : vec3) : vec3 :=
  V3 (a00 m * vx v + a01 m * vy v + a02 m * vz v)
     (a10 m * vx v + a11 m * vy v + a12 m * vz v)
     (a20 m * vx v + a21 m * vy v + a22 m * vz v).

(** [np.dot(A, B)] for two 3x3 arrays. *)
Definition dot_mm (a b : mat3) : mat3 :=
  M3 (a00 a * a00 b + a01 a * a10 b + a02 a * a20 b)
     (a00 a * a01 b + a01 a * a11 b + a02 a * a21 b)
     (a00 a * a02 b + a01 a * a12 b + a02 a * a22 b)
     (a10 a * a00 b + a11 a * a10 b + a12 a * a20 b)
     (a10 a * a01 b + a11 a * a11 b + a12 a * a21 b)
     (a10 a * a02 b + a11 a * a12 b + a12 a * a22 b)
     (a20 a * a00 b + a21 a * a10 b + a22 a * a20 b)
     (a20 a * a01 b + a21 a * a11 b + a22 a * a21 b)
     (a20 a * a02 b + a21 a * a12 b + a22 a * a22 b).

(** The slice [T[:3, :3]].  Modelled from the spec: [t3d_ext.edR] is the
    pose algebra's accessor for the rotation part of a transform; the
    module [pf_drive/util/t3d_ext.py] is not among the sources. *)
Definition edR (t : mat4) : mat3 :=
  M3 (e00 t) (e01 t) (e02 t)
     (e10 t) (e11 t) (e12 t)
     (e20 t) (e21 t) (e22 t).

(** The slice [T[:3, 3]]. *)
Definition edt (t : mat4) : vec3 := V3 (e03 t) (e13 t) (e23 t).

(** The last row [T[3, :]], which no assignment of the actuator touches. *)
Definition bottom (t : mat4) : R * R * R * R := (e30 t, e31 t, e32 t, e33 t).

(** The slice assignment [T[:3, :3] = m]. *)
Definition set_R (t : mat4) (m : mat3) : mat4 :=
  M4 (a00 m) (a01 m) (a02 m) (e03 t)
     (a10 m) (a11 m) (a12 m) (e13 t)
     (a20 m) (a21 m) (a22 m) (e23 t)
     (e30 t) (e31 t) (e32 t) (e33 t).

(** The slice assignment [T[:3, 3] = v]. *)
Definition set_t (t : mat4) (v : vec3) : mat4 :=
  M4 (e00 t) (e01 t) (e02 t) (vx v)
     (e10 t) (e11 t) (e12 t) (vy v)
     (e20 t) (e21 t) (e22 t) (vz v)
     (e30 t) (e31 t) (e32 t) (e33 t).

(** [transforms3d.euler.euler2mat(ai, aj, ak)] with its default axes
    ['sxyz'] (static frame, first axis x, no parity, no repetition). *)
Definition euler2mat (ai aj ak : R) : mat3 :=
  let si := sin ai in let sj := sin aj in let sk := sin ak in
  let ci := cos ai in let cj := cos aj in let ck := cos ak in
  let cc := ci * ck in let cs := ci * sk in
  let sc := si * ck in let ss := si * sk in
  M3 (cj * ck) (sj * sc - cs) (sj * cc + ss)
     (cj * sk) (sj * ss + cc) (sj * cs - sc)
     (- sj)    (cj * si)      (cj * ci).

(** The rotation by [theta] about the z axis, as the spec writes it. *)
Definition Rz (theta : R) : mat3 :=
  M3 (cos theta) (- sin theta) 0
     (sin theta) (cos theta)   0
     0           0             1.

(** ** Turning radii

    [run] sets [R = float('inf')] for a straight command, and a finite
    quotient otherwise. *)
Inductive radius :=
| Rinf
| Rfin (x : R).

(** [R > 1e9]; [inf > 1e9] holds. *)
Definition gt_1e9 (rad : radius) : bool :=
  match rad with
  | Rinf => true
  | Rfin x => if Rlt_dec 1e9 x then true else false
  end.

(** [abs(R)] of a radius. *)
Definition rad_abs (rad : radius) : radius :=
  match rad with
  | Rinf => Rinf
  | Rfin x => Rfin (Rabs x)
  end.

(** [a < b] on radii: nothing is above [inf]. *)
Definition rad_ltb (a b : radius) : bool :=
  match a, b with
  | Rfin x, Rfin y => if Rlt_dec x y then true else false
  | Rfin _, Rinf => true
  | Rinf, _ => false
  end.

(** [x / R]: a finite number over [inf] is [0.0]. *)
Definition div_rad (x : R) (rad : radius) : R :=
  match rad with
  | Rinf => 0
  | Rfin y => x / y
  end.

(** [R + c] and [R - c] on radii. *)
Definition rad_plus (rad : radius) (c : R) : radius :=
  match rad with
  | Rinf => Rinf
  | Rfin y => Rfin (y + c)
  end.

Definition rad_minus (rad : radius) (c : R) : radius :=
  match rad with
  | Rinf => Rinf
  | Rfin y => Rfin (y - c)
  end.

(** ** Errors

    The velocity, the radius and the time step are Python floats, and the
    division of one by a zero (be it [0.0] or [-0.0]) raises
    [ZeroDivisionError]. *)
Inductive exn := ZeroDivisionError.

Inductive result (A : Type) :=
| Ok (a : A)
| Raise (e : exn).

Arguments Ok {A} a.
Arguments Raise {A} e.

(** ** [WebotsROSAckermannActuator.calc_and_output_odom]

    The function updates [self.odom] in place and writes it to the [odom]
    port; the embedding returns the updated pose, which is both the new
    state and the value written.  In the turning branch [R] is finite, and
    [theta = dist / R] raises when [R] is zero: nothing is written then. *)
Definition calc_and_output_odom (odom : mat4) (v : R) (rad : radius) (dt : R)
  : result mat4 :=
  let dist := v * dt in
  let odom_R := edR odom in
  if gt_1e9 rad then
    Ok (set_t odom (vadd (edt odom) (dot_mv odom_R (V3 dist 0 0))))
  else
    match rad with
    | Rinf => Ok odom
    | Rfin R =>
        if Req_dec_T R 0 then Raise ZeroDivisionError
        else
          let theta := dist / R in
          let rot := euler2mat 0 0 theta in
          let PR := dot_mv odom_R (V3 0 R 0) in
          let RT := vneg (dot_mv rot PR) in
          let odom1 := set_R odom (dot_mm rot odom_R) in
          Ok (set_t odom1 (vadd (edt odom1) (vadd PR RT)))
    end.

(** The update as the spec words it, on the rotation and the translation
    of the pose. *)
Definition odom_spec_straight (rot0 : mat3) (t0 : vec3) (v dt : R)
  : mat3 * vec3 :=
  (rot0, vadd t0 (dot_mv rot0 (V3 (v * dt) 0 0))).

Definition odom_spec_turn (rot0 : mat3) (t0 : vec3) (v R dt : R)
  : mat3 * vec3 :=
  let theta := v * dt / R in
  let PR := dot_mv rot0 (V3 0 R 0) in
  (dot_mm (Rz theta) rot0, vsub (vadd t0 PR) (dot_mv (Rz theta) PR)).

(** ** The command mapping of [WebotsROSAckermannActuator.run] *)

Record config := Config {
  track : R;               (* self.l *)
  wheelbase : R;           (* self.d *)
  wheel_radius : R;        (* self.r *)
  max_steering_angle : R   (* self.max_phi *) }.

(** [self.R_min_abs = self.d / np.tan(self.max_phi) + self.l / 2] *)
Definition R_min_abs (c : config) : R :=
  wheelbase c / tan (max_steering_angle c) + track c / 2.

Inductive command :=
| Vw (v w : R)        (* ('vw', v, w) *)
| Vphi (v phi : R).   (* ('vphi', v, phi) *)

(** [np.sign] *)
Definition np_sign (x : R) : R :=
  if Rlt_dec x 0 then -1 else if Rlt_dec 0 x then 1 else 0.

(** The linear velocity of a command. *)
Definition command_v (cmd : command) : R :=
  match cmd with Vw v _ => v | Vphi v _ => v end.

(** [R_min = sgn * self.R_min_abs] of either branch. *)
Definition command_R_min (c : config) (cmd : command) : R :=
  match cmd with
  | Vw v w => np_sign (v + 1e-3) * np_sign (w + 1e-3) * R_min_abs c
  | Vphi v phi => np_sign (v + 1e-3) * np_sign (phi + 1e-3) * R_min_abs c
  end.

(** The radius before clamping:
    [float('inf') if abs(w) < 1e-3 else v / w], and
    [float('inf') if abs(phi) < 1e-3 else self.d / np.tan(phi)]. *)
Definition command_R (c : config) (cmd : command) : radius :=
  match cmd with
  | Vw v w => if Rlt_dec (Rabs w) 1e-3 then Rinf else Rfin (v / w)
  | Vphi v phi =>
      if Rlt_dec (Rabs phi) 1e-3 then Rinf else Rfin (wheelbase c / tan phi)
  end.

(** [if abs(R) < abs(R_min): R = R_min] *)
Definition clamp_R (rad : radius) (R_min : R) : radius :=
  if rad_ltb (rad_abs rad) (Rfin (Rabs R_min)) then Rfin R_min else rad.

Record setpoints := Setpoints { phi_l : R; phi_r : R; w_rear : R }.

(** [phi_l = np.arctan(self.d / (R + self.l / 2))],
    [phi_r = np.arctan(self.d / (R - self.l / 2))],
    [w_rear = v / self.r]. *)
Definition wheel_setpoints (c : config) (v : R) (rad : radius) : setpoints :=
  Setpoints (atan (div_rad (wheelbase c) (rad_plus rad (track c / 2))))
            (atan (div_rad (wheelbase c) (rad_minus rad (track c / 2))))
            (v / wheel_radius c).

(** One received command: the radius that is used, and the setpoints
    handed to [call_services]. *)
Definition process_command (c : config) (cmd : command) : radius * setpoints :=
  let rad := clamp_R (command_R c cmd) (command_R_min c cmd) in
  (rad, wheel_setpoints c (command_v cmd) rad).

(** The configuration of the end-to-end scenario. *)
Definition scenario : config := Config 0.5 0.8 0.15 0.6.

(** [x] is [y] up to [tol]: the reading of the spec's "approximately". *)
Definition approx (tol x y : R) : Prop := Rabs (x - y) <= tol.

End Ackermann.

(* ================================================================== *)
(** * Frames from Pose messages *)
(* ================================================================== *)

Module Geometry.
Local Open Scope float_scope.

(** The fields of a [geometry_msgs] message are [float64]: Python floats,
    that is binary64 numbers, NaN and the infinities among them. *)
Record Vec3 := mkVec3 { x : float; y : float; z : float }.

Record Quat := mkQuat { qx : float; qy : float; qz : float; qw : float }.

(** [Quat()]: the identity orientation [(0, 0, 0, 1)]. *)
Definition Quat_default : Quat := mkQuat 0 0 0 1.

(** [Vec3()] *)
Definition Vec3_default : Vec3 := mkVec3 0 0 0.

(** ** Exceptions and results

    [float.__pow__] raises [OverflowError] on a range error of the C
    library, and [ValueError] on any other error it reports. *)
Inductive exn := OverflowError | ValueError.

Inductive result (A : Type) :=
| Ok (a : A)
| Raise (e : exn).

Arguments Ok {A} a.
Arguments Raise {A} e.

Definition bind {A B : Type} (m : result A) (k : A -> result B) : result B :=
  match m with
  | Ok a => k a
  | Raise e => Raise e
  end.

Notation "x <- m ;; k" := (bind m (fun x => k))
  (at level 61, m at next level, right associativity).

(** ** The C library

    [x ** 2] on a Python float ends in a call of [pow] of the C library,
    whose result and [errno] are inputs: [c_pow x y] is the value of
    [pow(x, y)] and the [errno] the call leaves. *)
Inductive c_errno := E0 | ERANGE | EOTHER.

Class Libm := { c_pow : float -> float -> float * c_errno }.

(** A C library whose [pow(x, 2.0)] is the correctly rounded square and
    which leaves [errno] alone. *)
Definition rounded_squares : Libm := {| c_pow := fun x _ => (x * x, E0) |}.

(** [x ** 2] ([float_pow] of CPython, at the exponent [2.0]): NaN and the
    infinities are answered at once, and so are zero and one; otherwise
    the result is [pow(abs(x), 2.0)], where an infinite result counts as a
    range error, a range error with the result zero does not count, and
    an error raises. *)
Definition py_pow_2 {L : Libm} (iv : float) : result float :=
  if is_nan iv then Ok iv
  else if is_infinity iv then Ok (PrimFloat.abs iv)
  else if iv =? 0 then Ok 0
  else
    let iv := if iv <? 0 then - iv else iv in
    if iv =? 1 then Ok 1
    else
      let (ix, errno) := c_pow iv 2 in
      let errno :=
        match errno with
        | E0 => if is_infinity ix then ERANGE else E0
        | ERANGE => if ix =? 0 then E0 else ERANGE
        | EOTHER => EOTHER
        end in
      match errno with
      | E0 => Ok ix
      | ERANGE => Raise OverflowError
      | EOTHER => Raise ValueError
      end.

(** [Quat.norm]: [np.sqrt(x ** 2 + y ** 2 + z ** 2 + w ** 2)] *)
Definition Quat_norm {L : Libm} (q : Quat) : result float :=
  x2 <- py_pow_2 (qx q) ;;
  y2 <- py_pow_2 (qy q) ;;
  z2 <- py_pow_2 (qz q) ;;
  w2 <- py_pow_2 (qw q) ;;
  Ok (PrimFloat.sqrt (x2 + y2 + z2 + w2)).

(** The literal [1e-6]: the binary64 number nearest to it. *)
Definition lit_1em6 : float := 0x1.0c6f7a0b5ed8dp-20.

(** The test of [validate] on the norm [n]: [abs(n - 1) < 1e-6], which is
    false for a NaN. *)
Definition near_one (n : float) : bool := PrimFloat.abs (n - 1) <? lit_1em6.

(** [Quat.validate]: [abs(self.norm() - 1) < 1e-6] *)
Definition Quat_validate {L : Libm} (q : Quat) : result bool :=
  n <- Quat_norm q ;;
  Ok (near_one n).

Record Frame := mkFrame { translation : Vec3; quaternion : Quat }.

(** [Frame()] *)
Definition Frame_default : Frame := mkFrame Vec3_default Quat_default.

(** The message [geometry_msgs.msg.Pose]: a position and an orientation. *)
Record Pose := mkPose { position : Vec3; orientation : Quat }.

(** What a call leaves behind besides its value: the warnings it surfaced
    (a [print], a logger call, [warnings.warn]). *)
Record traced (A : Type) := Traced { value : A; warnings : list String.string }.

Arguments Traced {A} _ _.
Arguments value {A} _.
Arguments warnings {A} _.

(** [Frame.from_Pose].  The body builds the frame, replaces an invalid
    quaternion and returns; the [raise ValueError] is commented out and
    nothing is printed or logged, so no warning is ever recorded.  The
    replacement [Quat(0, 0, 0, 1)] holds the integers 0 and 1, which are
    read as the floats they equal. *)
Definition from_Pose {L : Libm} (msg : Pose) : result (traced Frame) :=
  let res := Frame_default in
  let res := mkFrame (mkVec3 (x (position msg)) (y (position msg))
                             (z (position msg)))
                     (quaternion res) in
  let res := mkFrame (translation res)
                     (mkQuat (qx (orientation msg)) (qy (orientation msg))
                             (qz (orientation msg)) (qw (orientation msg))) in
  valid <- Quat_validate (quaternion res) ;;
  let res := if negb valid
             then mkFrame (translation res) (mkQuat 0 0 0 1)
             else res in
  Ok (Traced res []).

(** ** Vocabulary of the properties *)

(** A finite positive float stands for the number [m * 2^e].  A
    quaternion with [x = mx * 2^e], [w = mw * 2^e] and [y = z = 0] has the
    exact norm [sqrt (mx^2 + mw^2) * 2^e]; for a negative [e] this is at
    least 1.000001 when [1000001^2 * 4^(-e) <= (mx^2 + mw^2) * 10^12]. *)
Definition exact_norm_at_least_1000001 (mx mw : positive) (e : Z) : Prop :=
  (e < 0)%Z /\
  (1000001 ^ 2 * 2 ^ (2 * - e)
   <= (Z.pos mx ^ 2 + Z.pos mw ^ 2) * 1000000 ^ 2)%Z.

(** A message with an orientation of norm 2. *)
Definition doubled : Pose := mkPose (mkVec3 1 2 3) (mkQuat 0 0 0 2).

(** A message whose orientation has an exact norm of at least 1.000001,
    by less than a rounding error. *)
Definition just_outside : Pose :=
  mkPose (mkVec3 1 2 3)
         (mkQuat 0x1.359b6cfd888b2p-1 0 0 0x1.97c8c0e2a00ffp-1).

(** A message with a unit orientation. *)
Definition unit_pose : Pose := mkPose (mkVec3 1 2 3) (mkQuat 0 0 0 1).

End Geometry.


(* ================================================================== *)
(** * The repeat controller *)
(* ================================================================== *)

Module Controller.

(** ** Exceptions and results

    A Python expression either has a value or raises.  Nothing in
    [repeat_controller.py] catches an exception, so one that is raised
    ends [run]. *)

Inductive exn :=
| IndexError          (* l[i] out of range *)
| ValueError          (* max() or min() of an empty array, a negative pad *)
| TypeError           (* an operation on None *)
| ZeroDivisionError   (* a / 0.0 on Python floats *)
| UnboundLocalError   (* a local read before it was assigned *)
| AxisError.          (* an axis a numpy array does not have *)

Inductive result (A : Type) :=
| Ok (a : A)
| Raise (e : exn).
Arguments Ok {A} a.
Arguments Raise {A} e.

Definition bind {A B : Type} (m : result A) (k : A -> result B) : result B :=
  match m with
  | Ok a => k a
  | Raise e => Raise e
  end.

Declare Scope py_scope.
Delimit Scope py_scope with py.
Notation "x <- m ;; k" := (bind m (fun x => k))
  (at level 61, m at next level, right associativity) : py_scope.
Local Open Scope py_scope.

Fixpoint mapM {A B : Type} (f : A -> result B) (l : list A) : result (list B) :=
  match l with
  | [] => Ok []
  | a :: t => b <- f a ;; bs <- mapM f t ;; Ok (b :: bs)
  end.

Fixpoint filterM {A : Type} (f : A -> result bool) (l : list A)
  : result (list A) :=
  match l with
  | [] => Ok []
  | a :: t => b <- f a ;; r <- filterM f t ;; Ok (if b then a :: r else r)
  end.

(** ** Python lists *)

(** [l[i]]: a negative index counts from the end. *)
Definition py_index {A : Type} (l : list A) (i : Z) : result A :=
  let n := Z.of_nat (length l) in
  let j := if (i <? 0)%Z then (i + n)%Z else i in
  if ((0 <=? j) && (j <? n))%Z
  then match nth_error l (Z.to_nat j) with
       | Some a => Ok a
       | None => Raise IndexError
       end
  else Raise IndexError.

(** [[x] * n]: empty when [n <= 0]. *)
Definition py_repeat {A : Type} (x : A) (n : Z) : list A :=
  repeat x (Z.to_nat n).

(** [range(a, b)] *)
Definition py_range (a b : nat) : list nat := seq a (b - a).

(** The value of an attribute that may hold [None], where the code
    goes on to compute with it. *)
Definition need {A : Type} (o : option A) : result A :=
  match o with
  | Some a => Ok a
  | None => Raise TypeError
  end.

Definition is_None {A : Type} (o : option A) : bool :=
  match o with
  | Some _ => false
  | None => true
  end.

(** [l[1:]] and [l[:-1]] *)
Definition py_tail {A : Type} (l : list A) : list A := tl l.
Definition py_init {A : Type} (l : list A) : list A := removelast l.

(** Modelled from the spec: [pf_drive.util.ListQueue], the fixed-capacity
    window of the tracker, is not among the sources.  [push] appends the
    new entry at the end and drops the oldest entries beyond the capacity;
    [q[i]] indexes the underlying list [q.q]. *)
Definition ListQueue_push {A : Type} (size : nat) (l : list A) (a : A)
  : list A :=
  let l' := l ++ [a] in skipn (length l' - size) l'.

(** ** Scalars

    The floating-point operations the controller uses.  [of_Z] reads an
    integer literal; a decimal literal such as [1e-2] is the quotient of
    two integers, which on binary64 is the correctly rounded literal. *)

Class Scalar (F : Type) := {
  of_Z : Z -> F;
  add : F -> F -> F;
  sub : F -> F -> F;
  mul : F -> F -> F;
  div : F -> F -> F;
  opp : F -> F;
  fabs : F -> F;
  fsqrt : F -> F;
  ltb : F -> F -> bool;    (* x < y *)
  eqb : F -> F -> bool;    (* x == y *)
  isnan : F -> bool        (* np.isnan(x) *) }.

Declare Scope scalar_scope.
Delimit Scope scalar_scope with sc.
Infix "+" := add : scalar_scope.
Infix "-" := sub : scalar_scope.
Infix "*" := mul : scalar_scope.
Infix "/" := div : scalar_scope.
Notation "- x" := (opp x) : scalar_scope.
Infix "<?" := ltb : scalar_scope.
Infix "==?" := eqb (at level 70) : scalar_scope.

(** The reals: exact arithmetic, no NaN. *)
#[export] Instance Scalar_R : Scalar R := {
  of_Z := IZR;
  add := Rplus;
  sub := Rminus;
  mul := Rmult;
  div := Rdiv;
  opp := Ropp;
  fabs := Rabs;
  fsqrt := sqrt;
  ltb := fun x y => if Rlt_dec x y then true else false;
  eqb := fun x y => if Req_dec_T x y then true else false;
  isnan := fun _ => false }.

(** An integer literal as a binary64 float. *)
Definition float_of_Z (z : Z) : float :=
  match z with
  | Z0 => PrimFloat.of_uint63 (Uint63.of_Z 0)
  | Zpos _ => PrimFloat.of_uint63 (Uint63.of_Z z)
  | Zneg p => PrimFloat.opp (PrimFloat.of_uint63 (Uint63.of_Z (Zpos p)))
  end.

(** IEEE-754 binary64, the arithmetic of Python and numpy floats. *)
#[export] Instance Scalar_float : Scalar float := {
  of_Z := float_of_Z;
  add := PrimFloat.add;
  sub := PrimFloat.sub;
  mul := PrimFloat.mul;
  div := PrimFloat.div;
  opp := PrimFloat.opp;
  fabs := PrimFloat.abs;
  fsqrt := PrimFloat.sqrt;
  ltb := PrimFloat.ltb;
  eqb := PrimFloat.eqb;
  isnan := PrimFloat.is_nan }.

Section Numeric.
Context {F : Type} {SF : Scalar F}.
Local Open Scope scalar_scope.

Definition zero : F := of_Z 0.
Definition one : F := of_Z 1.
Definition two : F := of_Z 2.

(** The literals [1e-2] and [0.75]. *)
Definition lit_1em2 : F := of_Z 1 / of_Z 100.
Definition lit_075 : F := of_Z 3 / of_Z 4.

(** ** numpy on one-dimensional arrays *)

(** [a.sum()] *)
Definition np_sum (l : list F) : F := fold_left add l zero.

(** [a @ b] for two arrays of one length. *)
Definition np_dot (a b : list F) : F :=
  np_sum (map (fun p => fst p * snd p) (combine a b)).

(** [np.maximum] and [np.minimum] on two numbers: a NaN wins. *)
Definition np_maximum (a b : F) : F :=
  if isnan a then a else if isnan b then b else if a <? b then b else a.

Definition np_minimum (a b : F) : F :=
  if isnan a then a else if isnan b then b else if b <? a then b else a.

(** [a.max()] and [a.min()]: an empty array has neither. *)
Definition np_max (l : list F) : result F :=
  match l with
  | [] => Raise ValueError
  | a :: t => Ok (fold_left np_maximum t a)
  end.

Definition np_min (l : list F) : result F :=
  match l with
  | [] => Raise ValueError
  | a :: t => Ok (fold_left np_minimum t a)
  end.

(** [np.sign] *)
Definition np_sign (a : F) : F :=
  if isnan a then a
  else if a <? zero then - one
  else if zero <? a then one
  else zero.

(** [np.clip(a, lo, hi)] *)
Definition np_clip (a lo hi : F) : F := np_minimum (np_maximum a lo) hi.

(** Python's [max(a, b)]: [b] when [b > a], else [a]. *)
Definition py_max (a b : F) : F := if a <? b then b else a.

(** ** Poses: 4x4 arrays, row major *)

Record vec3 := V3 { vx : F; vy : F; vz : F }.

Record mat3 := M3 {
  a00 : F; a01 : F; a02 : F;
  a10 : F; a11 : F; a12 : F;
  a20 : F; a21 : F; a22 : F }.

Record vec4 := V4 { c0 : F; c1 : F; c2 : F; c3 : F }.

Record mat4 := M4 { row0 : vec4; row1 : vec4; row2 : vec4; row3 : vec4 }.

Definition dot4 (a b : vec4) : F :=
  c0 a * c0 b + c1 a * c1 b + c2 a * c2 b + c3 a * c3 b.

Definition col (j : vec4 -> F) (m : mat4) : vec4 :=
  V4 (j (row0 m)) (j (row1 m)) (j (row2 m)) (j (row3 m)).

Definition row_mul (a : vec4) (m : mat4) : vec4 :=
  V4 (dot4 a (col c0 m)) (dot4 a (col c1 m))
     (dot4 a (col c2 m)) (dot4 a (col c3 m)).

(** [A @ B] *)
Definition matmul (a b : mat4) : mat4 :=
  M4 (row_mul (row0 a) b) (row_mul (row1 a) b)
     (row_mul (row2 a) b) (row_mul (row3 a) b).

Definition vec4_sub (a b : vec4) : vec4 :=
  V4 (c0 a - c0 b) (c1 a - c1 b) (c2 a - c2 b) (c3 a - c3 b).

(** [A - B] *)
Definition mat4_sub (a b : mat4) : mat4 :=
  M4 (vec4_sub (row0 a) (row0 b)) (vec4_sub (row1 a) (row1 b))
     (vec4_sub (row2 a) (row2 b)) (vec4_sub (row3 a) (row3 b)).

Definition vec3_sub (a b : vec3) : vec3 :=
  V3 (vx a - vx b) (vy a - vy b) (vz a - vz b).

(** [np.dot(a, b)] on two vectors. *)
Definition vec3_dot (a b : vec3) : F :=
  vx a * vx b + vy a * vy b + vz a * vz b.

(** [T[:3, :3]] *)
Definition rot_of (t : mat4) : mat3 :=
  M3 (c0 (row0 t)) (c1 (row0 t)) (c2 (row0 t))
     (c0 (row1 t)) (c1 (row1 t)) (c2 (row1 t))
     (c0 (row2 t)) (c1 (row2 t)) (c2 (row2 t)).

(** [T[:3, 3]] *)
Definition trans_of (t : mat4) : vec3 :=
  V3 (c3 (row0 t)) (c3 (row1 t)) (c3 (row2 t)).

(** [T[:2, 3]] *)
Definition xy_of (t : mat4) : F * F := (c3 (row0 t), c3 (row1 t)).

(** [T[:3, :3] = m] *)
Definition set_rot (t : mat4) (m : mat3) : mat4 :=
  M4 (V4 (a00 m) (a01 m) (a02 m) (c3 (row0 t)))
     (V4 (a10 m) (a11 m) (a12 m) (c3 (row1 t)))
     (V4 (a20 m) (a21 m) (a22 m) (c3 (row2 t)))
     (row3 t).

(** [T[:3, 3] *= s] *)
Definition scale_trans (t : mat4) (s : F) : mat4 :=
  let sc r := V4 (c0 r) (c1 r) (c2 r) (c3 r * s) in
  M4 (sc (row0 t)) (sc (row1 t)) (sc (row2 t)) (row3 t).

(** Modelled from the spec: [t3d_ext.edt], the translation of a
    transform, and [t3d_ext.norm], the Euclidean norm of a vector; the
    module [pf_drive/util/t3d_ext.py] is not among the sources. *)
Definition edt (t : mat4) : vec3 := trans_of t.

Definition norm (v : vec3) : F :=
  fsqrt (vx v * vx v + vy v * vy v + vz v * vz v).

End Numeric.

Arguments vec3 F : clear implicits.
Arguments mat3 F : clear implicits.
Arguments vec4 F : clear implicits.
Arguments mat4 F : clear implicits.

(** ** What the controller calls and does not define

    The image matcher [pf_drive.util.img.NCC_horizontal_match], the width
    [image.shape[1]] of an image, the pose helpers [t3d_ext.einv] and
    [t3d_ext.etR], the Euler conversions of [transforms3d] and the
    elementary functions of numpy.  Every property below holds for all of
    them. *)
Class External (F image : Type) := {
  NCC_horizontal_match : image -> image -> F * F;
  image_width : image -> F;
  einv : mat4 F -> mat4 F;
  etR : vec3 F -> mat3 F -> mat4 F;
  mat2euler : mat3 F -> F * F * F;
  euler2mat : F -> F -> F -> mat3 F;
  np_arccos : F -> F;
  np_tan : F -> F;
  np_exp : F -> F }.

Section Control.
Context {F : Type} {SF : Scalar F} {image : Type} {E : External F image}.
Local Open Scope scalar_scope.

(** ** Configuration: the keyword arguments of [__init__] *)

Record config := Config {
  horizontal_fov : F;
  along_path_radius : nat;                        (* r *)
  steering_predict_goals : nat;                   (* p *)
  steering_weights : list F;
  slowing_predict_goals : nat;                    (* s *)
  k_rotation : F;
  k_along_path : F;
  initial_compensation_rotation_update_rate : F;
  initial_compensation_translation_update_rate : F;
  initial_compensation_rotation_threshold : F;
  initial_compensation_translation_threshold : F;
  track : F;                                      (* self.l *)
  wheelbase : F;                                  (* self.d *)
  wheel_radius : F;                               (* self.r *)
  max_steering_angle : F;                         (* self.max_phi *)
  distance_threshold : F;
  reference_velocity : F }.

(** [self.R_min_abs = self.d / np.tan(self.max_phi) + self.l / 2] *)
Definition R_min_abs (c : config) : F :=
  wheelbase c / np_tan (max_steering_angle c) + track c / two.

Definition max_rps (c : config) : nat :=
  Nat.max (Nat.max (along_path_radius c) (steering_predict_goals c))
          (slowing_predict_goals c).

Definition max_rp (c : config) : nat :=
  Nat.max (along_path_radius c) (steering_predict_goals c).

Definition q_r (c : config) : nat := along_path_radius c.

Definition q_size (c : config) : nat := along_path_radius c + 1 + max_rps c.

(** ** State: the attributes of the node, and the locals of [run] that
    live across iterations *)

(** An entry of the [record] queue: [(image, odom)]. *)
Definition waypoint : Type := image * mat4 F.

Record state := State {
  q : list (option waypoint);                     (* self.q.q *)
  goal_distances : list F;
  goal_idx : Z;
  T_0_odomA : option (mat4 F);
  T_0_odomB : option (mat4 F);
  record_T_odomA_odomB : option (mat4 F);
  record_T_odomA_odomB_rotation : option F;
  record_T_odomA_odomB_translation : option F;
  initial_compensation_rotation_factor : F;
  initial_compensation_translation_factor : F;
  timer_P : F;                                    (* local of run *)
  k_r : option nat                                (* local of run *) }.

(** The state [__init__] leaves. *)
Definition init (c : config) : state :=
  State [] [zero] (- Z.of_nat (max_rps c) - 1) None None None None None
        one one zero None.

Definition set_q (st : state) (v : list (option waypoint)) : state :=
  State v (goal_distances st) (goal_idx st) (T_0_odomA st) (T_0_odomB st)
        (record_T_odomA_odomB st) (record_T_odomA_odomB_rotation st)
        (record_T_odomA_odomB_translation st)
        (initial_compensation_rotation_factor st)
        (initial_compensation_translation_factor st) (timer_P st) (k_r st).

Definition set_goal_distances (st : state) (v : list F) : state :=
  State (q st) v (goal_idx st) (T_0_odomA st) (T_0_odomB st)
        (record_T_odomA_odomB st) (record_T_odomA_odomB_rotation st)
        (record_T_odomA_odomB_translation st)
        (initial_compensation_rotation_factor st)
        (initial_compensation_translation_factor st) (timer_P st) (k_r st).

Definition set_goal_idx (st : state) (v : Z) : state :=
  State (q st) (goal_distances st) v (T_0_odomA st) (T_0_odomB st)
        (record_T_odomA_odomB st) (record_T_odomA_odomB_rotation st)
        (record_T_odomA_odomB_translation st)
        (initial_compensation_rotation_factor st)
        (initial_compensation_translation_factor st) (timer_P st) (k_r st).

Definition set_T_0_odomB (st : state) (v : option (mat4 F)) : state :=
  State (q st) (goal_distances st) (goal_idx st) (T_0_odomA st) v
        (record_T_odomA_odomB st) (record_T_odomA_odomB_rotation st)
        (record_T_odomA_odomB_translation st)
        (initial_compensation_rotation_factor st)
        (initial_compensation_translation_factor st) (timer_P st) (k_r st).

Definition set_timer_P (st : state) (v : F) : state :=
  State (q st) (goal_distances st) (goal_idx st) (T_0_odomA st) (T_0_odomB st)
        (record_T_odomA_odomB st) (record_T_odomA_odomB_rotation st)
        (record_T_odomA_odomB_translation st)
        (initial_compensation_rotation_factor st)
        (initial_compensation_translation_factor st) v (k_r st).

Definition set_k_r (st : state) (v : option nat) : state :=
  State (q st) (goal_distances st) (goal_idx st) (T_0_odomA st) (T_0_odomB st)
        (record_T_odomA_odomB st) (record_T_odomA_odomB_rotation st)
        (record_T_odomA_odomB_translation st)
        (initial_compensation_rotation_factor st)
        (initial_compensation_translation_factor st) (timer_P st) v.

(** The anchors, the recorded step between them and the two factors, as
    lines 96-120 of [pass_to_next_goal] assign them. *)
Definition set_anchors (st : state) (A B record_T : mat4 F)
  (rotation translation rf tf : F) : state :=
  State (q st) (goal_distances st) (goal_idx st) (Some A) (Some B)
        (Some record_T) (Some rotation) (Some translation) rf tf
        (timer_P st) (k_r st).

(** ** Ports *)

(** A value written to an output port. *)
Inductive write :=
| PassedGoal (g : option Z)       (* self.io['passed_goal'].write(g) *)
| ActuatorCommand (v w : F).      (* ...['actuator_command'].write(('vw', v, w)) *)

(** What the blocking reads of one call of [pass_to_next_goal] return:
    the next entry of the [record] queue ([None] once the loader is
    through), and the pose the [odom] port would deliver. *)
Record advance_in := AdvanceIn {
  record_read : option waypoint;
  odom_read : mat4 F }.

(** What one iteration of the main loop meets: the clock, the values
    pending on the polled ports ([None]: [poll()] is false), and the
    reads of an advance, should the iteration make one. *)
Record cycle_env := CycleEnv {
  is_shutdown : bool;
  current_time : F;
  processed_image : option image;
  odom : option (mat4 F);
  advance : advance_in }.

(** ** [BaselineRepeatController.pass_to_next_goal] *)

(** [mat2euler(m)[2]] *)
Definition yaw_of (m : mat3 F) : F := snd (mat2euler m).

(** [a / b] on two Python floats. *)
Definition py_div (a b : F) : result F :=
  if b ==? zero then Raise ZeroDivisionError else Ok (a / b).

(** Lines 97-102: the sample of each factor and its moving average.  The
    yaw of [mat2euler] is a Python float; the norm is taken as a numpy
    float, which divides without raising. *)
Definition update_factors (c : config) (st : state) (A B : mat4 F)
  : result (F * F) :=
  let corrected_T_odomA_odomB := matmul (einv A) B in
  rot <- need (record_T_odomA_odomB_rotation st) ;;
  rotation_factor <-
    (if initial_compensation_rotation_threshold c <? fabs rot
     then py_div (yaw_of (rot_of corrected_T_odomA_odomB)) rot
     else Ok (initial_compensation_rotation_factor st)) ;;
  tr <- need (record_T_odomA_odomB_translation st) ;;
  let translation_factor :=
    if initial_compensation_translation_threshold c <? tr
    then norm (trans_of corrected_T_odomA_odomB) / tr
    else initial_compensation_translation_factor st in
  Ok (initial_compensation_rotation_update_rate c * rotation_factor
      + (one - initial_compensation_rotation_update_rate c)
        * initial_compensation_rotation_factor st,
      initial_compensation_translation_update_rate c * translation_factor
      + (one - initial_compensation_translation_update_rate c)
        * initial_compensation_translation_factor st).

(** Lines 94-120: with both anchors of the record in the window, update
    the factors, move the anchors and seed the estimate of [T_0_odomB]. *)
Definition update_anchors (c : config) (inp : advance_in) (st : state)
  : result state :=
  rec_a <- py_index (q st) (Z.of_nat (q_r c)) ;;
  match rec_a with
  | None => Ok st
  | Some (_, T_rec_A) =>
    rec_b <- py_index (q st) (Z.of_nat (q_r c) + 1) ;;
    match rec_b with
    | None => Ok st
    | Some (_, T_rec_B) =>
      factors <-
        match T_0_odomA st, T_0_odomB st with
        | Some A, Some B => update_factors c st A B
        | _, _ => Ok (initial_compensation_rotation_factor st,
                      initial_compensation_translation_factor st)
        end ;;
      let rf := fst factors in
      let tf := snd factors in
      let B := match T_0_odomB st with
               | None => odom_read inp
               | Some B => B
               end in
      let A := B in
      let record_T := matmul (einv T_rec_A) T_rec_B in
      let rotation := yaw_of (rot_of record_T) in
      let translation := norm (trans_of record_T) in
      let T := record_T in
      let T := if initial_compensation_rotation_threshold c <? rotation
               then set_rot T (euler2mat zero zero (yaw_of (rot_of T) * rf))
               else T in
      let T := if initial_compensation_translation_threshold c <? translation
               then scale_trans T tf
               else T in
      Ok (set_anchors st A (matmul A T) record_T rotation translation rf tf)
    end
  end.

(** Lines 123-125: with the two newest entries present, one more
    cumulative distance. *)
Definition update_goal_distances (st : state) : result state :=
  e2 <- py_index (q st) (-2) ;;
  match e2 with
  | None => Ok st
  | Some (_, T2) =>
    e1 <- py_index (q st) (-1) ;;
    match e1 with
    | None => Ok st
    | Some (_, T1) =>
      let t_delta := mat4_sub T1 T2 in
      d <- py_index (goal_distances st) (-1) ;;
      Ok (set_goal_distances st (goal_distances st ++ [d + norm (edt t_delta)]))
    end
  end.

(** The value written to [passed_goal] by an advance that reaches [g]. *)
Definition passed_goal_write (g : Z) : list write :=
  if (0 <=? g)%Z then [PassedGoal (Some g)] else [].

Definition pass_to_next_goal (c : config) (inp : advance_in) (st : state)
  : list write * result state :=
  let st := set_q st (ListQueue_push (q_size c) (q st) (record_read inp)) in
  let st := set_goal_idx st (goal_idx st + 1) in
  (passed_goal_write (goal_idx st),
   st <- update_anchors c inp st ;;
   update_goal_distances st).

End Control.

Arguments config F : clear implicits.
Arguments state F image : clear implicits.
Arguments write F : clear implicits.
Arguments advance_in F image : clear implicits.
Arguments cycle_env F image : clear implicits.
Arguments waypoint F image : clear implicits.

Section Loop.
Context {F : Type} {SF : Scalar F} {image : Type} {E : External F image}.
Local Open Scope scalar_scope.

Local Abbreviation state := (state F image).
Local Abbreviation config := (config F).
Local Abbreviation write := (write F).
Local Abbreviation cycle_env := (cycle_env F image).
Local Abbreviation advance_in := (advance_in F image).
Local Abbreviation waypoint := (waypoint F image).

(** ** The straight-segment phase: lines 194-254 of [run] *)

(** The indices [q_idx] of [range(n)] whose slot holds a waypoint. *)
Definition present (w : list (option waypoint)) (idxs : list nat)
  : result (list nat) :=
  filterM (fun q_idx => e <- py_index w (Z.of_nat q_idx) ;;
                        Ok (negb (is_None e))) idxs.

(** Lines 201-203: the slots to scan, the first and the last one
    replicated over the empty slots before and after. *)
Definition scan_q_indices (r : nat) (w : list (option waypoint))
  : result (list nat) :=
  l <- present w (py_range 0 (2 * r + 1)) ;;
  first <- py_index l 0 ;;
  let l := py_repeat first (Z.of_nat first) ++ l in
  last <- py_index l (-1) ;;
  Ok (l ++ py_repeat last (2 * Z.of_nat r - Z.of_nat last)).

(** Line 204 *)
Definition scan_distances (r : nat) (st : state) (idxs : list nat)
  (l_proj_odomA_odomR : F) : result (list F) :=
  let i := goal_idx st in
  ds <- mapM (fun q_idx => py_index (goal_distances st)
                             (Z.of_nat q_idx - Z.of_nat r + i)) idxs ;;
  d_i <- py_index (goal_distances st) i ;;
  Ok (map (fun d => d - d_i - l_proj_odomA_odomR) ds).

(** Lines 210-214: the last position [k] of the scan whose slot is [r]. *)
Fixpoint find_k_r (r : nat) (idxs : list nat) (k : nat) (k_r : option nat)
  : option nat :=
  match idxs with
  | [] => k_r
  | q_idx :: t => find_k_r r t (S k) (if Nat.eqb q_idx r then Some k else k_r)
  end.

(** Lines 210-214: the offset and the score of each scanned slot. *)
Definition scan_matches (w : list (option waypoint)) (img : image)
  (idxs : list nat) : result (list (F * F)) :=
  mapM (fun q_idx => e <- py_index w (Z.of_nat q_idx) ;;
                     wp <- need e ;;
                     Ok (NCC_horizontal_match img (fst wp))) idxs.

(** Line 228:
    [scan_values[scan_values < scan_values[scan_values != scan_values.max()].max()] = 0] *)
Definition suppress (scan_values : list F) : result (list F) :=
  m <- np_max scan_values ;;
  second <- np_max (filter (fun x => negb (x ==? m)) scan_values) ;;
  Ok (map (fun x => if x <? second then zero else x) scan_values).

(** Line 237: [scan_values / scan_values.sum() @ scan_distances] *)
Definition delta_p_distance (scan_values distances : list F) : F :=
  np_dot (map (fun x => x / np_sum scan_values) scan_values) distances.

(** Line 239 *)
Definition along_path_correction (c : config) (l_odomR_odomB delta : F) : F :=
  (l_odomR_odomB - k_along_path c * delta) / l_odomR_odomB.

(** Lines 228-239, from the scanned scores to the correction. *)
Definition along_path (c : config) (scan_values distances : list F)
  (l_odomR_odomB : F) : result F :=
  vals <- suppress scan_values ;;
  Ok (along_path_correction c l_odomR_odomB (delta_p_distance vals distances)).

(** How the straight-segment phase ends: with an advance ([continue]
    after [pass_to_next_goal]), or with a refined estimate. *)
Inductive phase :=
| Advance (st : state)
| Refined (st : state).

Definition straight_segment (c : config) (env : cycle_env) (img : image)
  (T_0_odomR T_odomR_odomB : mat4 F)
  (t_odomA_odomR t_odomA_odomB : vec3 F) (l_odomA_odomB l_odomR_odomB : F)
  (st : state) : result phase :=
  let r := along_path_radius c in
  let l_proj_odomA_odomR := vec3_dot t_odomA_odomR t_odomA_odomB / l_odomA_odomB in
  let u := l_proj_odomA_odomR / l_odomA_odomB in
  let dt := current_time env - timer_P st in
  let st := set_timer_P st (current_time env) in
  idxs <- scan_q_indices r (q st) ;;
  distances <- scan_distances r st idxs l_proj_odomA_odomR ;;
  let st := set_k_r st (find_k_r r idxs 0 (k_r st)) in
  matches <- scan_matches (q st) img idxs ;;
  let scan_offsets := map fst matches in
  let scan_values := map snd matches in
  correction <- along_path c scan_values distances l_odomR_odomB ;;
  if (one - lit_1em2 <? u) || (l_odomR_odomB <? distance_threshold c)
  then Ok (Advance st)
  else
    k <- match k_r st with
         | Some k => Ok k
         | None => Raise UnboundLocalError
         end ;;
    off_A <- py_index scan_offsets (Z.of_nat k) ;;
    let theta_A := off_A / image_width img * horizontal_fov c in
    off_B <- py_index scan_offsets (Z.of_nat k + 1) ;;
    let theta_B := off_B / image_width img * horizontal_fov c in
    let theta_R := (one - u) * theta_A + u * theta_B in
    let rotation_correction := - k_rotation c * dt * theta_R in
    let correction_offset :=
      matmul (etR (V3 zero zero zero)
                  (euler2mat zero zero rotation_correction))
             T_odomR_odomB in
    let correction_offset := scale_trans correction_offset correction in
    Ok (Refined (set_T_0_odomB st (Some (matmul T_0_odomR correction_offset)))).

(** ** The steering law: lines 289-308 *)

(** Line 145: the weights, padded with zeros to [rps] entries. *)
Definition padded_weights (c : config) : result (list F) :=
  if (max_rps c <? List.length (steering_weights c))%nat
  then Raise ValueError
  else Ok (steering_weights c
           ++ repeat zero (max_rps c - List.length (steering_weights c))).

(** The pose of a slot that holds a waypoint: [self.q[q_idx][1]]. *)
Definition pose_at (w : list (option waypoint)) (q_idx : nat)
  : result (mat4 F) :=
  e <- py_index w (Z.of_nat q_idx) ;;
  wp <- need e ;;
  Ok (snd wp).

(** Lines 297-299: the radius through a point, clamped to the minimum. *)
Definition turn_radius (c : config) (xy : F * F) : F :=
  let d_square := fst xy * fst xy + snd xy * snd xy in
  let R := d_square / two / snd xy in
  if fabs R <? R_min_abs c then np_sign R * R_min_abs c else R.

(** Lines 301-302 *)
Definition turn_rate (c : config) (R : F) : F :=
  let w := reference_velocity c / R in
  if isnan w then zero else w.

(** Lines 289-305: the weighted turn rate, before the guard. *)
Definition steering_raw (c : config) (weights : list F) (T_0_odomR : mat4 F)
  (st : state) : result F :=
  let r := along_path_radius c in
  p_indices <- present (q st) (py_range (r + 1) (r + max_rp c + 1)) ;;
  T_0_Qi <- mapM (pose_at (q st)) p_indices ;;
  B <- need (T_0_odomB st) ;;
  T_0_Q0 <- py_index T_0_Qi 0 ;;
  let pre := matmul (matmul (einv T_0_odomR) B) (einv T_0_Q0) in
  let T_odomR_odomQi := map (matmul pre) T_0_Qi in
  let xy := map xy_of T_odomR_odomQi in
  let w := map (fun p => turn_rate c (turn_radius c p)) xy in
  weights_q <- mapM (fun q_idx => py_index weights
                                    (Z.of_nat q_idx - (Z.of_nat r + 1)))
                    p_indices ;;
  Ok (np_dot weights_q w / np_sum weights_q).

(** Lines 307-308: [if np.isnan(w_target): w_target = 0.0] *)
Definition steering (c : config) (weights : list F) (T_0_odomR : mat4 F)
  (st : state) : result F :=
  w_target <- steering_raw c weights T_0_odomR st ;;
  Ok (if isnan w_target then zero else w_target).

(** ** The speed law: lines 311-340 *)

Definition pair_sub (a b : F * F) : F * F := (fst a - fst b, snd a - snd b).

(** [np.linalg.norm] of a row of two entries. *)
Definition norm2 (v : F * F) : F := fsqrt (fst v * fst v + snd v * snd v).

(** Lines 323-329: the tightest radius the recorded positions ask for.
    An array with no row has no axis 1; with fewer than three rows there
    is no angle, and [min()] has nothing to reduce. *)
Definition tightest_radius (c : config) (st : state) : result F :=
  let r := along_path_radius c in
  s_indices <- present (q st) (py_range 0 (r + max_rps c + 1)) ;;
  T_0_Qi <- mapM (pose_at (q st)) s_indices ;;
  let xy_0_Qi := map xy_of T_0_Qi in
  match xy_0_Qi with
  | [] => Raise AxisError
  | _ =>
    let vs := map (fun p => pair_sub (fst p) (snd p))
                  (combine (py_tail xy_0_Qi) (py_init xy_0_Qi)) in
    let ls := map norm2 vs in
    let dots := map (fun p => fst (fst p) * fst (snd p)
                              + snd (fst p) * snd (snd p))
                    (combine (py_init vs) (py_tail vs)) in
    let lens := map (fun p => fst p * snd p)
                    (combine (py_init ls) (py_tail ls)) in
    let phis_abs :=
      map (fun p => fabs (np_arccos (np_clip (fst p / snd p) (- one) one)))
          (combine dots lens) in
    let Rs_abs := map (fun phi => wheelbase c / np_tan phi) phis_abs in
    np_min Rs_abs
  end.

(** Lines 331-340: the command [(v_target, w_target)]. *)
Definition throttle (c : config) (R_min w_target : F) : F * F :=
  let v_full := reference_velocity c in
  let v_low := two in
  let vw :=
    if isnan R_min then (v_full, w_target)
    else
      let offset := py_max zero (R_min - R_min_abs c) in
      let k := lit_075 in
      let v_target := (one - np_exp (- offset)) * k * (v_full - v_low) + v_low in
      (v_target, v_target * w_target / v_full) in
  (fst vw, if isnan (snd vw) then zero else snd vw).

(** ** One iteration of the main loop: lines 158-352 *)

Inductive status := Continue | Break.

(** Lines 165-169: the anchor slot is filled and the next one is not. *)
Definition finished (c : config) (st : state) : result bool :=
  let r := along_path_radius c in
  e <- py_index (q st) (Z.of_nat r) ;;
  match e with
  | None => Ok false
  | Some _ => e' <- py_index (q st) (Z.of_nat r + 1) ;; Ok (is_None e')
  end.

(** Lines 176-254: the estimate of this cycle. *)
Definition correct (c : config) (env : cycle_env) (img : image)
  (T_0_odomR : mat4 F) (st : state) : result phase :=
  B <- need (T_0_odomB st) ;;
  let T_odomR_odomB := matmul (einv T_0_odomR) B in
  A <- need (T_0_odomA st) ;;
  let t_0_odomA := edt A in
  let t_0_odomB := edt B in
  let t_0_odomR := edt T_0_odomR in
  let t_odomA_odomB := vec3_sub t_0_odomB t_0_odomA in
  let t_odomA_odomR := vec3_sub t_0_odomR t_0_odomA in
  let t_odomR_odomB := edt T_odomR_odomB in
  let l_odomA_odomB := norm t_odomA_odomB in
  let l_odomR_odomB := norm t_odomR_odomB in
  let turning_goal := l_odomA_odomB <? distance_threshold c in
  if negb turning_goal
  then straight_segment c env img T_0_odomR T_odomR_odomB
         t_odomA_odomR t_odomA_odomB l_odomA_odomB l_odomR_odomB st
  else Ok (Refined st).

(** Lines 289-345: the command of this cycle. *)
Definition command (c : config) (weights : list F) (T_0_odomR : mat4 F)
  (st : state) : result (F * F) :=
  w_target <- steering c weights T_0_odomR st ;;
  R_min <- tightest_radius c st ;;
  Ok (throttle c R_min w_target).

(** The writes of an iteration, and how it ends: with the status of the
    loop and the new state, or with an exception.  The topics published
    for debugging are not ports of the node and are left out. *)
Definition cycle (c : config) (weights : list F) (env : cycle_env)
  (st : state) : list write * result (status * state) :=
  match finished c st with
  | Raise e => ([], Raise e)
  | Ok true => ([PassedGoal None], Ok (Break, st))
  | Ok false =>
    match processed_image env, odom env with
    | Some img, Some T_0_odomR =>
      match correct c env img T_0_odomR st with
      | Raise e => ([], Raise e)
      | Ok (Advance st) =>
        let (out, res) := pass_to_next_goal c (advance env) st in
        (out, st <- res ;; Ok (Continue, st))
      | Ok (Refined st) =>
        match command c weights T_0_odomR st with
        | Raise e => ([], Raise e)
        | Ok (v_target, w_target) =>
          ([ActuatorCommand v_target w_target], Ok (Continue, st))
        end
      end
    | _, _ => ([], Ok (Continue, st))
    end
  end.

(** ** [BaselineRepeatController.run] *)

(** How an observed run ends: [run] returned after the [break], the
    shutdown flag was seen, the inputs that were supplied are used up
    (the node is still running, or blocked in a read), or an exception
    was raised. *)
Inductive ending :=
| Exited (st : state)
| ShutDown (st : state)
| Pending (st : state)
| Raised (e : exn).

Record trace := Trace { writes : list write; final : ending }.

Definition prepend (out : list write) (t : trace) : trace :=
  Trace (out ++ writes t) (final t).

(** Lines 151-152: [while not self.goal_idx == 0: self.pass_to_next_goal()],
    against the entries the [record] queue delivers. *)
Fixpoint fill (c : config) (inputs : list advance_in) (st : state) : trace :=
  if (goal_idx st =? 0)%Z then Trace [] (Exited st)
  else match inputs with
       | [] => Trace [] (Pending st)
       | inp :: rest =>
         match pass_to_next_goal c inp st with
         | (out, Raise e) => Trace out (Raised e)
         | (out, Ok st) => prepend out (fill c rest st)
         end
       end.

(** Lines 157-352: the main loop, one environment per iteration. *)
Fixpoint main_loop (c : config) (weights : list F) (envs : list cycle_env)
  (st : state) : trace :=
  match envs with
  | [] => Trace [] (Pending st)
  | env :: rest =>
    if is_shutdown env then Trace [] (ShutDown st)
    else match cycle c weights env st with
         | (out, Raise e) => Trace out (Raised e)
         | (out, Ok (Break, st)) => Trace out (Exited st)
         | (out, Ok (Continue, st)) =>
           prepend out (main_loop c weights rest st)
         end
  end.

(** Any number of advances in a row, one for each entry the [record]
    queue delivers; the state after the last one. *)
Fixpoint advances (c : config) (inputs : list advance_in) (st : state)
  : result state :=
  match inputs with
  | [] => Ok st
  | inp :: rest =>
    st <- snd (pass_to_next_goal c inp st) ;; advances c rest st
  end.

(** The window as [run] sets it up before the first advance. *)
Definition start (c : config) : state :=
  set_q (init c) (repeat None (q_size c)).

(** [run], from the state [__init__] left: the weights, the window of
    [q_size] empty slots, the filling of the window, the clock, and the
    main loop. *)
Definition run (c : config) (warm : list advance_in) (start_time : F)
  (envs : list cycle_env) : trace :=
  match padded_weights c with
  | Raise e => Trace [] (Raised e)
  | Ok weights =>
    match fill c warm (start c) with
    | Trace out (Exited st) =>
      let st := set_timer_P st start_time in
      prepend out (main_loop c weights envs st)
    | t => t
    end
  end.

(** What the attributes satisfy between advances: the window is full, the
    distances are not empty, and the recorded step is known once the
    first anchor is set. *)
Definition settled (c : config) (st : state) : Prop :=
  List.length (q st) = q_size c /\
  goal_distances st <> [] /\
  (T_0_odomA st <> None ->
   record_T_odomA_odomB_rotation st <> None /\
   record_T_odomA_odomB_translation st <> None).

(** The values written to the [passed_goal] port, in order. *)
Fixpoint passed_goals (out : list write) : list (option Z) :=
  match out with
  | [] => []
  | PassedGoal g :: t => g :: passed_goals t
  | ActuatorCommand _ _ :: t => passed_goals t
  end.

(** The commands written to the [actuator_command] port, in order. *)
Fixpoint commands (out : list write) : list (F * F) :=
  match out with
  | [] => []
  | PassedGoal _ :: t => commands t
  | ActuatorCommand v w :: t => (v, w) :: commands t
  end.

End Loop.

Arguments phase F image : clear implicits.
Arguments ending F image : clear implicits.
Arguments trace F image : clear implicits.

(** ** Vocabulary of the properties *)

(** The goal indices [0, 1, ..., n-1], as the [passed_goal] port carries
    them. *)
Definition goal_indices (n : nat) : list (option Z) :=
  map (fun k => Some (Z.of_nat k)) (seq 0 n).

(** What [n] advances from goal index [g] write to [passed_goal]: the
    indices [g+1 .. g+n] that are not negative. *)
Fixpoint advances_write (g : Z) (n : nat) : list (option Z) :=
  match n with
  | O => []
  | S n => (if (0 <=? g + 1)%Z then [Some (g + 1)%Z] else [])
           ++ advances_write (g + 1) n
  end.

(** [l[i] <= l[j]] whenever [i <= j]. *)
Definition nondecreasing (l : list R) : Prop :=
  forall i j a b, i <= j -> nth_error l i = Some a -> nth_error l j = Some b ->
                  (a <= b)%R.

(** [m] is the greatest score of [l]. *)
Definition greatest (m : R) (l : list R) : Prop :=
  In m l /\ forall x, In x l -> (x <= m)%R.

(** [s] is the second-highest distinct value of [l]: the greatest of the
    scores below the maximum. *)
Definition second_highest (s : R) (l : list R) : Prop :=
  exists m, greatest m l /\ In s l /\ (s < m)%R /\
            forall x, In x l -> (x < m)%R -> (x <= s)%R.

(** Score [x] after the suppression with cutoff [s]. *)
Definition suppressed (s x y : R) : Prop :=
  ((x < s)%R -> y = 0%R) /\ ((s <= x)%R -> y = x).

(** ** The update of the correction factors *)

Section Factors.
Context {F : Type} {SF : Scalar F} {image : Type}.
Local Open Scope scalar_scope.

(** The moving average of lines 101-102, as the code groups it:
    [rate * sample + (1 - rate) * old]. *)
Definition ema (rate sample old : F) : F :=
  rate * sample + (one - rate) * old.

(** The test of line 94 succeeds on an advance: after the push the window
    holds a waypoint at the anchor offset [r] and one in the slot after
    it. *)
Definition anchors_in_window (c : config F) (inp : advance_in F image)
  (st : state F image) : Prop :=
  let window := ListQueue_push (q_size c) (q st) (record_read inp) in
  exists rec_a rec_b,
    py_index window (Z.of_nat (q_r c)) = Ok (Some rec_a) /\
    py_index window (Z.of_nat (q_r c) + 1) = Ok (Some rec_b).

End Factors.

(** ** A world to run the controller in

    Poses that only translate, and images that are numbered.  The pose
    helpers are those of rigid transforms; with no rotation anywhere the
    yaw is 0 and the rotation of any Euler angles met is the identity.
    The stand-ins for the elementary functions are only met by runs
    that reach the command of a cycle. *)

Section World.
Context {F : Type} {SF : Scalar F}.
Local Open Scope scalar_scope.

Definition identity3 : mat3 F :=
  M3 one zero zero
     zero one zero
     zero zero one.

(** The pose at [(x, y, 0)] with no rotation. *)
Definition pose_xy (x y : F) : mat4 F :=
  M4 (V4 one zero zero x)
     (V4 zero one zero y)
     (V4 zero zero one zero)
     (V4 zero zero zero one).

(** The pose with rotation [m] and translation [t]. *)
Definition rigid (t : vec3 F) (m : mat3 F) : mat4 F :=
  M4 (V4 (a00 m) (a01 m) (a02 m) (vx t))
     (V4 (a10 m) (a11 m) (a12 m) (vy t))
     (V4 (a20 m) (a21 m) (a22 m) (vz t))
     (V4 zero zero zero one).

(** The inverse of a rigid transform: the transposed rotation [R^T], and
    the translation [- R^T t]. *)
Definition rigid_inv (T : mat4 F) : mat4 F :=
  let m := rot_of T in
  let t := trans_of T in
  let mt := M3 (a00 m) (a10 m) (a20 m)
               (a01 m) (a11 m) (a21 m)
               (a02 m) (a12 m) (a22 m) in
  rigid (V3 (- (a00 mt * vx t + a01 mt * vy t + a02 mt * vz t))
            (- (a10 mt * vx t + a11 mt * vy t + a12 mt * vz t))
            (- (a20 mt * vx t + a21 mt * vy t + a22 mt * vz t)))
        mt.

(** The world whose matcher is [ncc], with images 640 pixels wide. *)
Definition world (ncc : nat -> nat -> F * F) : External F nat := {|
  NCC_horizontal_match := ncc;
  image_width := fun _ => of_Z 640;
  einv := rigid_inv;
  etR := rigid;
  mat2euler := fun _ => (zero, zero, zero);
  euler2mat := fun _ _ _ => identity3;
  np_arccos := fun _ => zero;
  np_tan := fun a => a;
  np_exp := fun _ => one |}.

(** A matcher that finds every reference image equally good. *)
Definition flat_matcher (live ref : nat) : F * F := (zero, one / two).

(** A matcher whose scores are 0.5 on the anchor image 0 and -1 on the
    image after it. *)
Definition cancelling_matcher (live ref : nat) : F * F :=
  (zero, if Nat.eqb ref 0 then one / two else - one).

(** Window radius 1, two goals of lookahead, and gains of a test drive. *)
Definition test_config : config F :=
  Config one 1 2 [one; one] 2 one one
         (one / two) (one / two) lit_1em2 lit_1em2
         (one / two) one (one / two) (one / two)
         (one / two) one.

(** [test_config] with update rates of 0.1. *)
Definition slow_config : config F :=
  Config one 1 2 [one; one] 2 one one
         (one / of_Z 10) (one / of_Z 10) lit_1em2 lit_1em2
         (one / two) one (one / two) (one / two)
         (one / two) one.

(** A state in the middle of a straight path: the window holds the
    waypoints 0 to 3, one metre apart along x, both anchors are set, the
    recorded step between them is one metre with no rotation, and earlier
    updates have left the factors 1.3 and 0.8. *)
Definition mid_path : state F nat :=
  set_anchors
    (set_q (init slow_config)
           (map (fun k => Some (k, pose_xy (of_Z (Z.of_nat k)) zero))
                (seq 0 4)))
    (pose_xy zero zero) (pose_xy one zero) (pose_xy one zero)
    zero one (of_Z 13 / of_Z 10) (of_Z 8 / of_Z 10).

(** The advance that reads waypoint 4 from the record. *)
Definition next_waypoint : advance_in F nat :=
  AdvanceIn (Some (4%nat, pose_xy (of_Z 4) zero)) (pose_xy zero zero).

(** A recorded path of five waypoints, one metre apart along x, and the
    end-of-path markers the loader sends after them. *)
Definition straight_path : list (advance_in F nat) :=
  map (fun k => AdvanceIn (Some (k, pose_xy (of_Z (Z.of_nat k)) zero))
                          (pose_xy zero zero))
      (seq 0 5)
  ++ repeat (AdvanceIn (image := nat) None (pose_xy zero zero)) 8.

(** An iteration with a fresh image and the robot at the origin. *)
Definition at_origin (t : F) : cycle_env F nat :=
  CycleEnv false t (Some 7%nat) (Some (pose_xy zero zero))
           (AdvanceIn (image := nat) None (pose_xy zero zero)).


(** A matcher that scores the reference with the number of the live
    image 0.9 and every other reference 0.5. *)
Definition peaked_matcher (live ref : nat) : F * F :=
  (zero, if Nat.eqb ref live then of_Z 9 / of_Z 10 else one / two).

(** An iteration with the live image [img] and the robot at
    [(x / 1000, 0)], with [next] the entry the record queue holds. *)
Definition at_x (img : nat) (x : Z) (t : F) (next : option (waypoint F nat))
  : cycle_env F nat :=
  CycleEnv false t (Some img) (Some (pose_xy (of_Z x / of_Z 1000) zero))
           (AdvanceIn next (pose_xy zero zero)).

(** The robot driven from waypoint to waypoint of [straight_path], seen
    just before each of them, while the loader delivers the last two
    waypoints and then the end-of-path marker. *)
Definition drive : list (cycle_env F nat) :=
  [at_x 0 0 (of_Z 1) (Some (3%nat, pose_xy (of_Z 3) zero));
   at_x 1 995 (of_Z 2) (Some (3%nat, pose_xy (of_Z 3) zero));
   at_x 2 1995 (of_Z 3) (Some (4%nat, pose_xy (of_Z 4) zero));
   at_x 3 2995 (of_Z 4) None;
   at_x 4 3995 (of_Z 5) None;
   at_x 4 4000 (of_Z 6) None;
   at_x 4 4000 (of_Z 7) None].

End World.

(** A window in which the anchor slot holds the last waypoint of the path
    and the slot after it the end-of-path marker. *)
Definition exhausted {F : Type} {SF : Scalar F} : state F nat :=
  set_q (init test_config)
        [Some (3%nat, pose_xy (of_Z 3) zero);
         Some (4%nat, pose_xy (of_Z 4) zero);
         None; None].

(** The run over [straight_path] with matcher [ncc], two iterations at
    the origin after the window is filled. *)
Definition test_run (ncc : nat -> nat -> float * float) : trace float nat :=
  run (E := world ncc) test_config straight_path zero
      [at_origin one; at_origin two].

(** The translation [T[:3, 3]] of the estimate [T_0_odomB] a trace ends
    with, as a list. *)
Definition final_estimate (t : trace float nat) : list float :=
  match final t with
  | Exited st | ShutDown st | Pending st =>
    match T_0_odomB st with
    | Some T => [vx (trans_of T); vy (trans_of T); vz (trans_of T)]
    | None => []
    end
  | Raised _ => []
  end.

(** The state after the window was filled from [straight_path], in the
    world of the flat matcher: the state the main loop starts in. *)
Definition warmed : state float nat :=
  match final (fill (E := world flat_matcher) test_config straight_path
                    (start test_config)) with
  | Exited st | ShutDown st | Pending st => st
  | Raised _ => start test_config
  end.
End Controller.

(* ================================================================== *)
(** * More of the actuator: rotations, and the motor services *)
(* ================================================================== *)

Module AckermannExt.
Import Ackermann.
Local Open Scope R_scope.

Definition identity3 : mat3 :=
  M3 1 0 0
     0 1 0
     0 0 1.

Definition transpose3 (m : mat3) : mat3 :=
  M3 (a00 m) (a10 m) (a20 m)
     (a01 m) (a11 m) (a21 m)
     (a02 m) (a12 m) (a22 m).

(** The rows of [m] are orthonormal: [m * m^T = I]. *)
Definition orthogonal (m : mat3) : Prop := dot_mm m (transpose3 m) = identity3.

(** The squared Euclidean norm. *)
Definition sqnorm (v : vec3) : R := vx v * vx v + vy v * vy v + vz v * vz v.

(** The instantaneous centre of rotation of the pose [odom] for the
    radius [R]: the point [P + PR] of [calc_and_output_odom]. *)
Definition centre (odom : mat4) (R : R) : vec3 :=
  vadd (edt odom) (dot_mv (edR odom) (V3 0 R 0)).

(** ** [WebotsRotationalMotorController]

    The three services of a motor.  [ros_context.call_service] returns
    the response of the service, whose field [success] is kept, or [None];
    [ROSContext] is not among the sources, and the answers of the services
    are inputs. *)
Inductive service := SetPosition | SetVelocity | SetTorque.

(** A request value: a number, or [float('inf')] (the class constant
    [INFINITY]). *)
Definition INFINITY : radius := Rinf.

(** One call that was made: the service and the value of the request. *)
Definition call : Type := service * radius.

(** [set_position]: [response.success if response is not None else False],
    with the call it made. *)
Definition set_position (answer : option bool) (position : radius)
  : bool * list call :=
  (match answer with Some success => success | None => false end,
   [(SetPosition, position)]).

(** [set_torque] *)
Definition set_torque (answer : option bool) (torque : radius)
  : bool * list call :=
  (match answer with Some success => success | None => false end,
   [(SetTorque, torque)]).

(** [set_velocity]: the position is set to [INFINITY] first; when that
    fails the method returns [False] at once. *)
Definition set_velocity (answer_position answer_velocity : option bool)
  (velocity : radius) : bool * list call :=
  let (ok, calls) := set_position answer_position INFINITY in
  if negb ok then (false, calls)
  else (match answer_velocity with Some success => success | None => false end,
        calls ++ [(SetVelocity, velocity)]).

(** ** [WebotsROSAckermannActuator.call_services] *)

Inductive motor :=
| left_front_steer_motor | right_front_steer_motor
| left_rear_motor | right_rear_motor.

(** What the services answer during one [call_services]: one answer for
    each call that can be made, in the order of the calls. *)
Record answers := Answers {
  left_steer_position : option bool;
  right_steer_position : option bool;
  left_rear_position : option bool;
  left_rear_velocity : option bool;
  right_rear_position : option bool;
  right_rear_velocity : option bool }.

Definition on (m : motor) (r : bool * list call) : list (motor * call) :=
  map (fun c => (m, c)) (snd r).

(** The calls of one [call_services(phi_l, phi_r, w_rear)], in order; the
    return values of the four methods are dropped, as in the source. *)
Definition call_services (a : answers) (phi_l phi_r w_rear : R)
  : list (motor * call) :=
  on left_front_steer_motor (set_position (left_steer_position a) (Rfin phi_l))
  ++ on right_front_steer_motor
       (set_position (right_steer_position a) (Rfin phi_r))
  ++ on left_rear_motor
       (set_velocity (left_rear_position a) (left_rear_velocity a)
          (Rfin w_rear))
  ++ on right_rear_motor
       (set_velocity (right_rear_position a) (right_rear_velocity a)
          (Rfin w_rear)).

(** The answer of the position service of a rear motor. *)
Definition rear_position (a : answers) (m : motor) : option bool :=
  match m with
  | left_rear_motor => left_rear_position a
  | right_rear_motor => right_rear_position a
  | _ => None
  end.

End AckermannExt.
(* ================================================================== *)
(** * More of the geometry: vectors, quaternions, frames and lists *)
(* ================================================================== *)

Module Literals.
Import String.
Definition dot_json : string := ".json"%string.
End Literals.

(** The algebra of [geometry.py] read over the real numbers: the
    operations are exact, and a square neither overflows nor underflows.
    What is proved of it are identities between the values the methods
    return; which inputs make a method raise is a matter of binary64 (a
    norm can be [0.0] for a vector that is not zero, and a square can be
    out of range) and is not decided here. *)
Module GeometryExt.
Local Open Scope R_scope.

Record Vec3 := mkVec3 { x : R; y : R; z : R }.

Record Quat := mkQuat { qx : R; qy : R; qz : R; qw : R }.

(** [Quat()]: the identity orientation [(0, 0, 0, 1)]. *)
Definition Quat_default : Quat := mkQuat 0 0 0 1.

(** [Vec3()] *)
Definition Vec3_default : Vec3 := mkVec3 0 0 0.

(** [Quat.norm]: [np.sqrt(x ** 2 + y ** 2 + z ** 2 + w ** 2)] *)
Definition Quat_norm (q : Quat) : R :=
  sqrt (qx q ^ 2 + qy q ^ 2 + qz q ^ 2 + qw q ^ 2).

(** [Quat.validate]: [abs(self.norm() - 1) < 1e-6] *)
Definition Quat_validate (q : Quat) : bool :=
  if Rlt_dec (Rabs (Quat_norm q - 1)) 1e-6 then true else false.

Record Frame := mkFrame { translation : Vec3; quaternion : Quat }.

(** [Frame()] *)
Definition Frame_default : Frame := mkFrame Vec3_default Quat_default.

(** The message [geometry_msgs.msg.Pose]: a position and an orientation. *)
Record Pose := mkPose { position : Vec3; orientation : Quat }.

(** The exceptions and results of the controller serve here as well; the
    classes of [geometry.py] raise [ValueError] and [TypeError]. *)
Local Abbreviation result := Controller.result.
Local Abbreviation Ok := Controller.Ok.
Local Abbreviation Raise := Controller.Raise.
Local Abbreviation ValueError := Controller.ValueError.
Local Abbreviation TypeError := Controller.TypeError.
Local Notation "x <- m ;; k" := (Controller.bind m (fun x => k))
  (at level 61, m at next level, right associativity).

(** ** [Vec3] *)

Definition Vec3_add (a b : Vec3) : Vec3 :=
  mkVec3 (x a + x b) (y a + y b) (z a + z b).

Definition Vec3_sub (a b : Vec3) : Vec3 :=
  mkVec3 (x a - x b) (y a - y b) (z a - z b).

Definition Vec3_neg (a : Vec3) : Vec3 := mkVec3 (- x a) (- y a) (- z a).

Definition Vec3_mul (a : Vec3) (other : R) : Vec3 :=
  mkVec3 (x a * other) (y a * other) (z a * other).

(** [__truediv__]: [ValueError("Division by zero")] when [other == 0]. *)
Definition Vec3_truediv (a : Vec3) (other : R) : result Vec3 :=
  if Req_dec_T other 0 then Raise ValueError
  else Ok (mkVec3 (x a / other) (y a / other) (z a / other)).

Definition Vec3_dot (a b : Vec3) : R := x a * x b + y a * y b + z a * z b.

Definition Vec3_cross (a b : Vec3) : Vec3 :=
  mkVec3 (y a * z b - z a * y b) (z a * x b - x a * z b)
         (x a * y b - y a * x b).

Definition Vec3_norm (a : Vec3) : R := sqrt (Vec3_dot a a).

Definition Vec3_normalize (a : Vec3) : result Vec3 :=
  Vec3_truediv a (Vec3_norm a).

(** ** [Mat3]: the 3x3 array [data], by rows *)

Record Mat3 := mkMat3 { row0 : Vec3; row1 : Vec3; row2 : Vec3 }.

(** [Mat3.__mul__] with a [Vec3]: [Vec3(self.data @ other.to_np())] *)
Definition Mat3_mul_Vec3 (m : Mat3) (v : Vec3) : Vec3 :=
  mkVec3 (Vec3_dot (row0 m) v) (Vec3_dot (row1 m) v) (Vec3_dot (row2 m) v).

(** ** [Quat] *)

Definition Quat_mul (a b : Quat) : Quat :=
  mkQuat
    (qw a * qx b + qx a * qw b + qy a * qz b - qz a * qy b)
    (qw a * qy b - qx a * qz b + qy a * qw b + qz a * qx b)
    (qw a * qz b + qx a * qy b - qy a * qx b + qz a * qw b)
    (qw a * qw b - qx a * qx b - qy a * qy b - qz a * qz b).

Definition Quat_truediv (a : Quat) (other : R) : result Quat :=
  if Req_dec_T other 0 then Raise ValueError
  else Ok (mkQuat (qx a / other) (qy a / other) (qz a / other)
                  (qw a / other)).

Definition Quat_conjugate (a : Quat) : Quat :=
  mkQuat (- qx a) (- qy a) (- qz a) (qw a).

Definition Quat_normalize (a : Quat) : result Quat :=
  Quat_truediv a (Quat_norm a).

(** [self.conjugate() / self.norm() ** 2] *)
Definition Quat_inverse (a : Quat) : result Quat :=
  Quat_truediv (Quat_conjugate a) (Quat_norm a ^ 2).

(** [rotate]:
    [Vec3((self_normalized * Quat(v.to_list() + [0])
           * self_normalized.inverse()).to_list()[:3])] *)
Definition Quat_rotate (a : Quat) (v : Vec3) : result Vec3 :=
  self_normalized <- Quat_normalize a ;;
  let p := Quat_mul self_normalized (mkQuat (x v) (y v) (z v) 0) in
  inv <- Quat_inverse self_normalized ;;
  let r := Quat_mul p inv in
  Ok (mkVec3 (qx r) (qy r) (qz r)).

Definition Quat_to_rotation_matrix (a : Quat) : result Mat3 :=
  n <- Quat_normalize a ;;
  let x := qx n in let y := qy n in let z := qz n in let w := qw n in
  Ok (mkMat3
        (mkVec3 (1 - 2 * (y ^ 2 + z ^ 2)) (2 * (x * y - z * w))
                (2 * (x * z + y * w)))
        (mkVec3 (2 * (x * y + z * w)) (1 - 2 * (x ^ 2 + z ^ 2))
                (2 * (y * z - x * w)))
        (mkVec3 (2 * (x * z - y * w)) (2 * (y * z + x * w))
                (1 - 2 * (x ^ 2 + y ^ 2)))).

(** [np.arctan2] on reals: the angle of the point [(x, y)], in
    [(-pi, pi]]. *)
Definition np_arctan2 (y x : R) : R :=
  if Rlt_dec 0 x then atan (y / x)
  else if Rlt_dec x 0 then
    if Rlt_dec y 0 then atan (y / x) - PI else atan (y / x) + PI
  else if Rlt_dec 0 y then PI / 2
  else if Rlt_dec y 0 then - (PI / 2)
  else 0.

(** [to_euler]: roll, pitch and yaw of the normalized quaternion. *)
Definition Quat_to_euler (a : Quat) : result (R * R * R) :=
  n <- Quat_normalize a ;;
  let x := qx n in let y := qy n in let z := qz n in let w := qw n in
  let roll := np_arctan2 (2 * (w * x + y * z)) (1 - 2 * (x ^ 2 + y ^ 2)) in
  let pitch := asin (2 * (w * y - z * x)) in
  let yaw := np_arctan2 (2 * (w * z + x * y)) (1 - 2 * (y ^ 2 + z ^ 2)) in
  Ok (roll, pitch, yaw).

Definition Quat_from_rotation_vector (v : Vec3) : result Quat :=
  let theta := Vec3_norm v in
  n <- Vec3_normalize v ;;
  Ok (mkQuat (x n * sin (theta / 2)) (y n * sin (theta / 2))
             (z n * sin (theta / 2)) (cos (theta / 2))).

(** ** [Frame] *)

Definition from_translation (t : Vec3) : Frame := mkFrame t Quat_default.

Definition from_z_rotation (theta : R) : Frame :=
  mkFrame Vec3_default (mkQuat 0 0 (sin (theta / 2)) (cos (theta / 2))).

Definition to_Pose (f : Frame) : Pose :=
  mkPose (mkVec3 (x (translation f)) (y (translation f)) (z (translation f)))
         (mkQuat (qx (quaternion f)) (qy (quaternion f)) (qz (quaternion f))
                 (qw (quaternion f))).

Definition Frame_inverse (f : Frame) : result Frame :=
  q_inv <- Quat_inverse (quaternion f) ;;
  r <- Quat_rotate q_inv (translation f) ;;
  Ok (mkFrame (Vec3_neg r) q_inv).

Definition Frame_transform (f other : Frame) : result Frame :=
  r <- Quat_rotate (quaternion f) (translation other) ;;
  Ok (mkFrame (Vec3_add (translation f) r)
              (Quat_mul (quaternion f) (quaternion other))).

Definition yaw_difference (f other : Frame) : result R :=
  e0 <- Quat_to_euler (quaternion f) ;;
  e1 <- Quat_to_euler (quaternion other) ;;
  let yaw_0 := snd e0 in
  let yaw_1 := snd e1 in
  let delta_yaw := Rabs (yaw_0 - yaw_1) in
  Ok (if Rlt_dec PI delta_yaw then PI * 2 - delta_yaw else delta_yaw).

(** [(other.I * self).translation.norm()] *)
Definition translation_difference (f other : Frame) : result R :=
  i <- Frame_inverse other ;;
  p <- Frame_transform i f ;;
  Ok (Vec3_norm (translation p)).

(** ** Vocabulary of the properties *)

(** The sum of the squares of the components, under the root of
    [Quat.norm]. *)
Definition Quat_sq (a : Quat) : R := qx a ^ 2 + qy a ^ 2 + qz a ^ 2 + qw a ^ 2.

Definition Quat_zero : Quat := mkQuat 0 0 0 0.

(** The rotation by a unit quaternion [n]: [n v n*]. *)
Definition sandwich (n : Quat) (v : Vec3) : Vec3 :=
  let r := Quat_mul (Quat_mul n (mkQuat (x v) (y v) (z v) 0))
                    (Quat_conjugate n) in
  mkVec3 (qx r) (qy r) (qz r).

(** [k * n], componentwise. *)
Definition scale (k : R) (n : Quat) : Quat :=
  mkQuat (k * qx n) (k * qy n) (k * qz n) (k * qw n).

(** The magnitudes at which binary64 squares and multiplies with
    neither overflow nor underflow, with room for the product of two of
    them: from 1e-50 to 1e50. *)
Definition moderate (r : R) : Prop := 1e-50 <= r <= 1e50.

(** ** [FrameList]

    A list is either held in memory ([data]) or bound to a folder, whose
    entries are then the files of the folder.  What [os.listdir] returns
    for the bound folder is an input. *)

Record FrameList := mkFrameList {
  data : list Frame;
  bound_folder : option String.string }.

Definition is_folder_bound (l : FrameList) : bool :=
  match bound_folder l with Some _ => true | None => false end.

(** [filename.endswith('.json')] *)
Definition endswith_json (filename : String.string) : bool :=
  String.eqb
    (String.substring (String.length filename - 5)%nat 5%nat filename)
    Literals.dot_json.

(** [is_filename_valid] is declared [@staticmethod] with the two
    parameters [(self, filename)]; a call binds its positional arguments to
    them in order, and one that leaves [filename] unbound raises
    [TypeError]. *)
Definition is_filename_valid (args : list String.string) : result bool :=
  match args with
  | [_; filename] => Ok (endswith_json filename)
  | _ => Raise TypeError
  end.

(** [__len__]: bound to a folder, the list comprehension calls
    [FrameList.is_filename_valid(filename)] for each entry of
    [os.listdir]. *)
Definition FrameList_len (listdir : list String.string) (l : FrameList)
  : result Z :=
  if is_folder_bound l then
    ones <- Controller.filterM (fun f => is_filename_valid [f]) listdir ;;
    Ok (Z.of_nat (length ones))
  else Ok (Z.of_nat (length (data l))).

(** [to_PoseStamped]: the frame id of the header, and the pose. *)
Definition to_PoseStamped (f : Frame) (frame_id : String.string)
  : String.string * Pose :=
  (frame_id, to_Pose f).

(** [to_Path]: the poses of the message.  Bound to a folder the loop is
    [for i in len(self)], and an [int] is not iterable. *)
Definition to_Path (listdir : list String.string) (l : FrameList)
  (frame_id : String.string) : result (list (String.string * Pose)) :=
  if is_folder_bound l then
    n <- FrameList_len listdir l ;;
    Raise TypeError
  else Ok (map (fun f => to_PoseStamped f frame_id) (data l)).

End GeometryExt.
(* ================================================================== *)
(** * More of the repeat controller: a world over the reals *)
(* ================================================================== *)

Module ControllerExt.
Import Controller.
Local Open Scope R_scope.

(** The world of translating poses, with the elementary functions of
    numpy read as those of the reals. *)
Definition numpy_world (ncc : nat -> nat -> R * R) : External R nat := {|
  NCC_horizontal_match := ncc;
  image_width := fun _ => 640;
  einv := rigid_inv;
  etR := rigid;
  mat2euler := fun _ => (0, 0, 0);
  euler2mat := fun _ _ _ => identity3;
  np_arccos := acos;
  np_tan := tan;
  np_exp := exp |}.

(** The slot [i] of the window [w] holds a waypoint. *)
Definition holds {F image : Type} (w : list (option (waypoint F image)))
  (i : nat) : Prop :=
  exists wp, py_index w (Z.of_nat i) = Ok (Some wp).

End ControllerExt.
(* ================================================================== *)
(** * The operators: teacher and repeater *)
(* ================================================================== *)

Module Operator.
Local Open Scope R_scope.

(** A device attribute of an operator: [None] while the attribute is
    missing or holds [None], otherwise what [is_ready()] of the device
    answers.  The device classes are not among the sources; their answers
    are inputs. *)
Definition device := option bool.

(** [hasattr(self, 'd') and self.d is not None and self.d.is_ready()] *)
Definition device_ready (d : device) : bool :=
  match d with
  | Some ready => ready
  | None => false
  end.

(** [l[-1]] of a list that is not empty. *)
Fixpoint newest {A : Type} (l : list A) : option A :=
  match l with
  | [] => None
  | [a] => Some a
  | _ :: t => newest t
  end.

(** ** [Teacher] *)

Section Teacher.
(** The frames and images of [tr_drive.util.conversion] and the two
    differences of its [Frame], which are not among the sources. *)
Variables frame image : Type.
Variables yaw_difference translation_difference : frame -> frame -> R.

(** [self.params.teacher] *)
Record teacher_params := TeacherParams {
  rotation_threshold : R;
  translation_threshold : R;
  save_raw_images : bool;
  save_ground_truth_odoms : bool }.

(** The lists of a [Recording]. *)
Record Recording := mkRecording {
  raw_images : list image;
  processed_images : list image;
  odoms : list frame;
  ground_truths : list frame }.

Record Teacher := mkTeacher {
  params_initialized : bool;
  recording_initialized : bool;
  global_locator_used : bool;
  recording_launched : bool;
  params : teacher_params;
  recording : Recording }.

Record teacher_devices := TeacherDevices {
  camera : device;
  odometry : device;
  global_locator : device }.

(** [is_ready]: [not] binds tighter than [and], and [and] tighter than
    [or], so the return value is the conjunction of everything up to
    [not self.global_locator_used], or else the readiness of the global
    locator. *)
Definition is_ready (t : Teacher) (d : teacher_devices) : bool :=
  params_initialized t && recording_initialized t
  && device_ready (camera d) && device_ready (odometry d)
  && negb (global_locator_used t)
  || device_ready (global_locator d).

Definition Rltb (a b : R) : bool := if Rlt_dec a b then true else false.

Definition difference_under_threshold (t : Teacher) (frame_1 frame_2 : frame)
  : bool :=
  Rltb (yaw_difference frame_1 frame_2) (rotation_threshold (params t))
  && Rltb (translation_difference frame_1 frame_2)
          (translation_threshold (params t)).

(** What a call of [odom_received] meets: the devices, the pose
    [get_biased_odom()] returns, the two images of the camera and the
    frame of the global locator ([None] when it has none). *)
Record odom_event := OdomEvent {
  devices : teacher_devices;
  biased_odom : frame;
  raw_image : image;
  processed_image : image;
  global_frame : option frame }.

Definition set_recording (t : Teacher) (r : Recording) : Teacher :=
  mkTeacher (params_initialized t) (recording_initialized t)
            (global_locator_used t) (recording_launched t) (params t) r.

Definition odom_received (t : Teacher) (ev : odom_event) : Teacher :=
  if negb (is_ready t (devices ev)) || negb (recording_launched t) then t
  else
    let odom := biased_odom ev in
    let r := recording t in
    if match newest (odoms r) with
       | None => true                   (* len(self.recording.odoms) == 0 *)
       | Some last => negb (difference_under_threshold t last odom)
       end
    then
      let raw := if save_raw_images (params t)
                 then raw_images r ++ [raw_image ev]
                 else raw_images r in
      let processed := processed_images r ++ [processed_image ev] in
      let odoms' := odoms r ++ [odom] in
      let truths :=
        if save_ground_truth_odoms (params t) then
          if global_locator_used t then
            match global_frame ev with
            | Some g => ground_truths r ++ [g]
            | None => ground_truths r
            end
          else ground_truths r
        else ground_truths r in
      set_recording t (mkRecording raw processed odoms' truths)
    else t.

(** The calls of [odom_received] for the events [evs], in order. *)
Definition odoms_received (t : Teacher) (evs : list odom_event) : Teacher :=
  fold_left odom_received evs t.

(** No two neighbours of [l] are under the thresholds of [t]. *)
Definition thinned (t : Teacher) (l : list frame) : Prop :=
  forall i a b, nth_error l i = Some a -> nth_error l (S i) = Some b ->
                difference_under_threshold t a b = false.

(** What the lists of a recording satisfy between calls. *)
Definition kept (t : Teacher) : Prop :=
  let r := recording t in
  length (processed_images r) = length (odoms r) /\
  thinned t (odoms r) /\
  length (raw_images r)
  = (if save_raw_images (params t) then length (odoms r) else 0%nat) /\
  (length (ground_truths r) <= length (odoms r))%nat.

End Teacher.

Arguments mkRecording {frame image} _ _ _ _.
Arguments raw_images {frame image} _.
Arguments processed_images {frame image} _.
Arguments odoms {frame image} _.
Arguments ground_truths {frame image} _.
Arguments mkTeacher {frame image} _ _ _ _ _ _.
Arguments params_initialized {frame image} _.
Arguments recording_initialized {frame image} _.
Arguments global_locator_used {frame image} _.
Arguments recording_launched {frame image} _.
Arguments params {frame image} _.
Arguments recording {frame image} _.
Arguments is_ready {frame image} _ _.
Arguments difference_under_threshold {frame image} _ _ _ _ _.
Arguments OdomEvent {frame image} _ _ _ _ _.
Arguments devices {frame image} _.
Arguments biased_odom {frame image} _.
Arguments raw_image {frame image} _.
Arguments processed_image {frame image} _.
Arguments global_frame {frame image} _.
Arguments set_recording {frame image} _ _.
Arguments odom_received {frame image} _ _ _ _.
Arguments odoms_received {frame image} _ _ _ _.
Arguments thinned {frame image} _ _ _ _.
Arguments kept {frame image} _ _ _.

(** ** A teacher on a line

    Positions on a line as frames, numbered images, and thresholds of one
    unit. *)
Definition line_difference (a b : R) : R := Rabs (a - b).

Definition line_teacher : Teacher R nat :=
  mkTeacher true true false true (TeacherParams 1 1 true false)
            (mkRecording [] [] [] []).

Definition all_ready : teacher_devices :=
  TeacherDevices (Some true) (Some true) None.

Definition line_events : list (odom_event R nat) :=
  [OdomEvent all_ready 0 7%nat 8%nat None;
   OdomEvent all_ready (1 / 2) 9%nat 10%nat None;
   OdomEvent all_ready 2 11%nat 12%nat None].

(** ** [Repeater] *)

Record Repeater := mkRepeater {
  recording_and_params_initialized : bool;
  repeating_launched : bool;
  repeating_paused : bool }.

Record repeater_devices := RepeaterDevices {
  repeater_camera : device;
  repeater_odometry : device;
  controller : device }.

(** The state [__init__] leaves. *)
Definition Repeater_init : Repeater := mkRepeater true false false.

Definition repeater_is_ready (r : Repeater) (d : repeater_devices) : bool :=
  recording_and_params_initialized r
  && device_ready (repeater_camera d)
  && device_ready (repeater_odometry d)
  && device_ready (controller d).

(** What a method does to the devices. *)
Inductive effect := Zeroize.            (* self.odometry.zeroize() *)

Definition start_repeating (r : Repeater) (d : repeater_devices)
  : Repeater * list effect :=
  if negb (repeater_is_ready r d) || repeating_launched r then (r, [])
  else (mkRepeater (recording_and_params_initialized r) true
                   (repeating_paused r), [Zeroize]).

Definition resume_repeating (r : Repeater) (d : repeater_devices)
  : Repeater * list effect :=
  if negb (repeater_is_ready r d) || negb (repeating_launched r)
     || negb (repeating_paused r)
  then (r, [])
  else (mkRepeater (recording_and_params_initialized r)
                   (repeating_launched r) false, []).

Definition pause_repeating (r : Repeater) (d : repeater_devices)
  : Repeater * list effect :=
  if negb (repeater_is_ready r d) || negb (repeating_launched r)
     || repeating_paused r
  then (r, [])
  else (mkRepeater (recording_and_params_initialized r)
                   (repeating_launched r) true, []).

Definition is_running (r : Repeater) : bool :=
  repeating_launched r && negb (repeating_paused r).

(** [image_received] and [odom_received] have one body. *)
Definition image_received (r : Repeater) (d : repeater_devices) : bool :=
  if negb (repeater_is_ready r d) || negb (is_running r) then false else true.

(** The calls an operator of the repeater makes. *)
Inductive request :=
| StartRepeating | ResumeRepeating | PauseRepeating.

Definition call (r : Repeater) (c : request * repeater_devices)
  : Repeater * list effect :=
  match fst c with
  | StartRepeating => start_repeating r (snd c)
  | ResumeRepeating => resume_repeating r (snd c)
  | PauseRepeating => pause_repeating r (snd c)
  end.

(** A sequence of calls: the state it leaves and everything it did to
    the devices. *)
Fixpoint calls (r : Repeater) (cs : list (request * repeater_devices))
  : Repeater * list effect :=
  match cs with
  | [] => (r, [])
  | c :: rest =>
      let (r1, out1) := call r c in
      let (r2, out2) := calls r1 rest in
      (r2, out1 ++ out2)
  end.

End Operator.
(* ================================================================== *)
(** * Properties of the Ackermann actuator *)
(* ================================================================== *)

Module AckermannSpec.
Import Ackermann.
Local Open Scope R_scope.

Lemma euler2mat_yaw (theta : R) : euler2mat 0 0 theta = Rz theta.
Proof.
  unfold euler2mat, Rz.
  rewrite sin_0, cos_0.
  f_equal; ring.
Qed.

Lemma edR_set_t (t : mat4) (v : vec3) : edR (set_t t v) = edR t.
Proof. reflexivity. Qed.

Lemma edt_set_t (t : mat4) (v : vec3) : edt (set_t t v) = v.
Proof. destruct v; reflexivity. Qed.

Lemma edR_set_R (t : mat4) (m : mat3) : edR (set_R t m) = m.
Proof. destruct m; reflexivity. Qed.

Lemma edt_set_R (t : mat4) (m : mat3) : edt (set_R t m) = edt t.
Proof. reflexivity. Qed.

Lemma vadd_vneg (a b c : vec3) : vadd a (vadd b (vneg c)) = vsub (vadd a b) c.
Proof.
  unfold vadd, vsub, vneg; simpl.
  f_equal; ring.
Qed.

Lemma gt_1e9_true (rad : radius) :
  gt_1e9 rad = true <-> rad = Rinf \/ exists x, rad = Rfin x /\ x > 1e9.
Proof.
  destruct rad as [|x]; simpl.
  - split; auto.
  - destruct (Rlt_dec 1e9 x) as [H|H]; split; intros H'.
    + right; exists x; auto.
    + reflexivity.
    + discriminate.
    + destruct H' as [H'|[y [E Hy]]]; [discriminate|].
      injection E as ->. contradiction.
Qed.

Lemma gt_1e9_false (R : R) : ~ R > 1e9 -> gt_1e9 (Rfin R) = false.
Proof.
  intros HR. simpl. destruct (Rlt_dec 1e9 R); [contradiction|reflexivity].
Qed.

(** The step along the heading, when the radius is effectively
    infinite. *)
Lemma calc_and_output_odom_straight (odom : mat4) (v dt : R) (rad : radius) :
  gt_1e9 rad = true ->
  calc_and_output_odom odom v rad dt
  = Ok (set_t odom (vadd (edt odom) (dot_mv (edR odom) (V3 (v * dt) 0 0)))).
Proof. intros H. unfold calc_and_output_odom. now rewrite H. Qed.

(** The step on the circle, for a radius that is neither above 1e9 nor
    zero. *)
Lemma calc_and_output_odom_turn (odom : mat4) (v dt R : R) :
  ~ R > 1e9 -> R <> 0 ->
  calc_and_output_odom odom v (Rfin R) dt
  = Ok (let PR := dot_mv (edR odom) (V3 0 R 0) in
        let odom1 := set_R odom (dot_mm (Rz (v * dt / R)) (edR odom)) in
        set_t odom1
          (vadd (edt odom1)
                (vadd PR (vneg (dot_mv (Rz (v * dt / R)) PR))))).
Proof.
  intros HR H0. unfold calc_and_output_odom.
  rewrite (gt_1e9_false R HR).
  destruct (Req_dec_T R 0) as [E|_]; [contradiction|].
  cbv zeta. now rewrite euler2mat_yaw.
Qed.

(** A zero radius: [theta = dist / R] raises. *)
Lemma calc_and_output_odom_zero (odom : mat4) (v dt : R) :
  calc_and_output_odom odom v (Rfin 0) dt = Raise ZeroDivisionError.
Proof.
  unfold calc_and_output_odom.
  rewrite (gt_1e9_false 0) by lra.
  destruct (Req_dec_T 0 0) as [_|N]; [reflexivity|now destruct N].
Qed.

(** C1, as the spec states it, fails at the radius 0: from the initial
    pose, at rest, for one second, the call raises [ZeroDivisionError] and
    gives no pose, let alone the rotated one.  [run] passes this radius on
    the command [('vw', 0.0, -0.001)]: [abs(w) < 1e-3] fails, [v / w] is
    zero, and the sign factor [np.sign(w + 1e-3)] makes [R_min] zero, so
    that nothing is clamped. *)
Lemma calc_and_output_odom_zero_radius :
  fst (process_command scenario (Vw 0 (- 1e-3))) = Rfin 0 /\
  calc_and_output_odom eye4 0 (Rfin 0) 1 = Raise ZeroDivisionError /\
  ~ (exists odom',
       calc_and_output_odom eye4 0 (Rfin 0) 1 = Ok odom' /\
       (edR odom', edt odom') = odom_spec_turn (edR eye4) (edt eye4) 0 0 1).
Proof.
  split; [|split].
  - unfold process_command, command_R, command_R_min; cbn [fst].
    destruct (Rlt_dec (Rabs (- 1e-3)) 1e-3) as [H|_].
    { exfalso. revert H. unfold Rabs. destruct (Rcase_abs (- 1e-3)); lra. }
    replace (0 / - 1e-3) with 0 by (field; lra).
    replace (- 1e-3 + 1e-3) with 0 by lra.
    unfold np_sign at 2.
    destruct (Rlt_dec 0 0) as [H|_]; [lra|].
    rewrite Rmult_0_r, Rmult_0_l.
    unfold clamp_R, rad_abs, rad_ltb.
    destruct (Rlt_dec (Rabs 0) (Rabs 0)) as [H|_]; [|reflexivity].
    exfalso. lra.
  - apply calc_and_output_odom_zero.
  - intros [odom' [H _]].
    rewrite calc_and_output_odom_zero in H. discriminate.
Qed.

(** C1, amended.  Odometry integration.  For every pose, velocity and time
    step: when the radius is effectively infinite ([inf], or a number
    above 1e9) the call returns the pose with its last row kept, its
    rotation unchanged and its translation moved by [v*dt] along the
    heading; for every other radius [R] that is not 0 it returns the pose
    with its last row kept, the rotation [Rz(theta) * old_rotation] and the
    translation [old_translation + PR - Rz(theta) * PR], with
    [theta = v*dt / R] and [PR = old_rotation * (0, R, 0)]. *)
Theorem calc_and_output_odom_spec (odom : mat4) (v dt : R) (rad : radius) :
  (gt_1e9 rad = true ->
   exists odom',
     calc_and_output_odom odom v rad dt = Ok odom' /\
     bottom odom' = bottom odom /\
     (edR odom', edt odom') = odom_spec_straight (edR odom) (edt odom) v dt) /\
  (forall R, rad = Rfin R -> ~ R > 1e9 -> R <> 0 ->
   exists odom',
     calc_and_output_odom odom v rad dt = Ok odom' /\
     bottom odom' = bottom odom /\
     (edR odom', edt odom') = odom_spec_turn (edR odom) (edt odom) v R dt).
Proof.
  split.
  - intros Hg. eexists. split; [now apply calc_and_output_odom_straight|].
    split; [reflexivity|].
    unfold odom_spec_straight. now rewrite edR_set_t, edt_set_t.
  - intros R -> HR H0. eexists.
    split; [now apply calc_and_output_odom_turn|].
    cbv zeta. split; [reflexivity|].
    unfold odom_spec_turn.
    rewrite edR_set_t, edt_set_t, edR_set_R, edt_set_R.
    now rewrite vadd_vneg.
Qed.

(** The identity pose driven for one second at 1 m/s: at radius 2
    (turning), and at infinite radius (straight). *)
Lemma calc_and_output_odom_spec_witness :
  (exists odom',
     calc_and_output_odom eye4 1 (Rfin 2) 1 = Ok odom' /\
     bottom odom' = bottom eye4 /\
     (edR odom', edt odom') = odom_spec_turn (edR eye4) (edt eye4) 1 2 1) /\
  (exists odom',
     calc_and_output_odom eye4 1 Rinf 1 = Ok odom' /\
     bottom odom' = bottom eye4 /\
     (edR odom', edt odom')
     = odom_spec_straight (edR eye4) (edt eye4) 1 1).
Proof.
  split.
  - apply (calc_and_output_odom_spec eye4 1 1 (Rfin 2)); [reflexivity|lra|lra].
  - apply (calc_and_output_odom_spec eye4 1 1 Rinf). reflexivity.
Defined.

(** ** The end-to-end scenario *)

Lemma INR_fact_2 : INR (fact 2) = 2.
Proof. rewrite INR_IZR_INZ. apply f_equal. vm_compute. reflexivity. Qed.
Lemma INR_fact_3 : INR (fact 3) = 6.
Proof. rewrite INR_IZR_INZ. apply f_equal. vm_compute. reflexivity. Qed.
Lemma INR_fact_4 : INR (fact 4) = 24.
Proof. rewrite INR_IZR_INZ. apply f_equal. vm_compute. reflexivity. Qed.
Lemma INR_fact_5 : INR (fact 5) = 120.
Proof. rewrite INR_IZR_INZ. apply f_equal. vm_compute. reflexivity. Qed.
Lemma INR_fact_6 : INR (fact 6) = 720.
Proof. rewrite INR_IZR_INZ. apply f_equal. vm_compute. reflexivity. Qed.
Lemma INR_fact_7 : INR (fact 7) = 5040.
Proof. rewrite INR_IZR_INZ. apply f_equal. vm_compute. reflexivity. Qed.
Lemma INR_fact_8 : INR (fact 8) = 40320.
Proof. rewrite INR_IZR_INZ. apply f_equal. vm_compute. reflexivity. Qed.
Lemma INR_fact_9 : INR (fact 9) = 362880.
Proof. rewrite INR_IZR_INZ. apply f_equal. vm_compute. reflexivity. Qed.

(** The Taylor polynomials that bracket sine and cosine. *)
Lemma sin_lb_eq a : sin_lb a = a - a^3/6 + a^5/120 - a^7/5040.
Proof.
  unfold sin_lb, sin_approx. cbn [sum_f_R0]. unfold sin_term.
  change (2 * 0 + 1)%nat with 1%nat. change (2 * 1 + 1)%nat with 3%nat.
  change (2 * 2 + 1)%nat with 5%nat. change (2 * 3 + 1)%nat with 7%nat.
  rewrite INR_fact_3, INR_fact_5, INR_fact_7.
  change (fact 1) with 1%nat. simpl INR. field.
Qed.

Lemma sin_ub_eq a : sin_ub a = a - a^3/6 + a^5/120 - a^7/5040 + a^9/362880.
Proof.
  unfold sin_ub, sin_approx. cbn [sum_f_R0]. unfold sin_term.
  change (2 * 0 + 1)%nat with 1%nat. change (2 * 1 + 1)%nat with 3%nat.
  change (2 * 2 + 1)%nat with 5%nat. change (2 * 3 + 1)%nat with 7%nat.
  change (2 * 4 + 1)%nat with 9%nat.
  rewrite INR_fact_3, INR_fact_5, INR_fact_7, INR_fact_9.
  change (fact 1) with 1%nat. simpl INR. field.
Qed.

Lemma cos_lb_eq a : cos_lb a = 1 - a^2/2 + a^4/24 - a^6/720.
Proof.
  unfold cos_lb, cos_approx. cbn [sum_f_R0]. unfold cos_term.
  change (2 * 0)%nat with 0%nat. change (2 * 1)%nat with 2%nat.
  change (2 * 2)%nat with 4%nat. change (2 * 3)%nat with 6%nat.
  rewrite INR_fact_2, INR_fact_4, INR_fact_6.
  change (fact 0) with 1%nat. simpl INR. field.
Qed.

Lemma cos_ub_eq a : cos_ub a = 1 - a^2/2 + a^4/24 - a^6/720 + a^8/40320.
Proof.
  unfold cos_ub, cos_approx. cbn [sum_f_R0]. unfold cos_term.
  change (2 * 0)%nat with 0%nat. change (2 * 1)%nat with 2%nat.
  change (2 * 2)%nat with 4%nat. change (2 * 3)%nat with 6%nat.
  change (2 * 4)%nat with 8%nat.
  rewrite INR_fact_2, INR_fact_4, INR_fact_6, INR_fact_8.
  change (fact 0) with 1%nat. simpl INR. field.
Qed.

Lemma sin_06_bounds : 0.564642 < sin 0.6 < 0.564643.
Proof.
  assert (H0 : 0 <= 0.6) by lra.
  assert (H1 : 0.6 <= PI) by (pose proof PI2_3_2; lra).
  destruct (SIN 0.6 H0 H1) as [Hl Hu].
  rewrite sin_lb_eq in Hl. rewrite sin_ub_eq in Hu.
  split; lra.
Qed.

Lemma cos_06_bounds : 0.825335 < cos 0.6 < 0.825336.
Proof.
  assert (H0 : - PI / 2 <= 0.6) by (pose proof PI2_3_2; lra).
  assert (H1 : 0.6 <= PI / 2) by (pose proof PI2_3_2; lra).
  destruct (COS 0.6 H0 H1) as [Hl Hu].
  rewrite cos_lb_eq in Hl. rewrite cos_ub_eq in Hu.
  split; lra.
Qed.

(** The minimum turning radius of the scenario is 1.4193..., that is
    [0.8 / tan 0.6 + 0.25]. *)
Lemma scenario_R_min_abs_bounds : 1.4193 < R_min_abs scenario < 1.4194.
Proof.
  unfold R_min_abs, scenario; simpl. unfold tan.
  destruct sin_06_bounds as [Hs1 Hs2]. destruct cos_06_bounds as [Hc1 Hc2].
  assert (Hs : 0 < sin 0.6) by lra.
  assert (Hc : 0 < cos 0.6) by lra.
  replace (0.8 / (sin 0.6 / cos 0.6)) with (0.8 * cos 0.6 / sin 0.6)
    by (field; split; lra).
  split.
  - apply Rlt_le_trans with (0.8 * cos 0.6 / sin 0.6 + 0.25); [|lra].
    assert (1.1693 < 0.8 * cos 0.6 / sin 0.6); [|lra].
    apply Rmult_lt_reg_r with (sin 0.6); [exact Hs|].
    unfold Rdiv. rewrite Rmult_assoc, Rinv_l by lra. nra.
  - apply Rle_lt_trans with (0.8 * cos 0.6 / sin 0.6 + 0.25); [lra|].
    assert (0.8 * cos 0.6 / sin 0.6 < 1.1694); [|lra].
    apply Rmult_lt_reg_r with (sin 0.6); [exact Hs|].
    unfold Rdiv. rewrite Rmult_assoc, Rinv_l by lra. nra.
Qed.

(** C2, as the spec states its first number: the derived minimum turning
    radius is not 1.439, not even within 0.019 of it. *)
Lemma scenario_R_min_abs_not_1439 : ~ approx 0.019 (R_min_abs scenario) 1.439.
Proof.
  unfold approx. intros H.
  destruct scenario_R_min_abs_bounds as [_ Hu].
  unfold Rabs in H.
  destruct (Rcase_abs (R_min_abs scenario - 1.439)); lra.
Qed.

(** C2, amended.  With track 0.5, wheelbase 0.8, wheel radius 0.15 and
    maximum steering angle 0.6 the minimum turning radius lies between
    1.4193 and 1.4194; the command [('vw', 1.0, 2.0)] has raw radius
    [v / w = 0.5], which is clamped to the minimum turning radius with its
    sign kept, so that [phi_l = atan (0.8 / (R_min + 0.25))],
    [phi_r = atan (0.8 / (R_min - 0.25))], and the rear wheels get
    [1.0 / 0.15], which is 6.667 up to 0.001. *)
Theorem scenario_setpoints :
  1.4193 < R_min_abs scenario < 1.4194 /\
  command_R scenario (Vw 1 2) = Rfin (1 / 2) /\
  process_command scenario (Vw 1 2) =
    (Rfin (R_min_abs scenario),
     Setpoints (atan (0.8 / (R_min_abs scenario + 0.5 / 2)))
               (atan (0.8 / (R_min_abs scenario - 0.5 / 2)))
               (1 / 0.15)) /\
  approx 0.001 (1 / 0.15) 6.667.
Proof.
  pose proof scenario_R_min_abs_bounds as HR.
  assert (Hraw : command_R scenario (Vw 1 2) = Rfin (1 / 2)).
  { simpl. destruct (Rlt_dec (Rabs 2) 1e-3) as [H|H]; [|reflexivity].
    rewrite Rabs_pos_eq in H; lra. }
  assert (Hmin : command_R_min scenario (Vw 1 2) = R_min_abs scenario).
  { unfold command_R_min, np_sign.
    destruct (Rlt_dec (1 + 1e-3) 0); [lra|].
    destruct (Rlt_dec 0 (1 + 1e-3)); [|lra].
    destruct (Rlt_dec (2 + 1e-3) 0); [lra|].
    destruct (Rlt_dec 0 (2 + 1e-3)); [|lra].
    ring. }
  repeat split; try apply HR; try exact Hraw.
  - unfold process_command. rewrite Hraw, Hmin.
    unfold clamp_R, rad_abs, rad_ltb.
    destruct (Rlt_dec (Rabs (1 / 2)) (Rabs (R_min_abs scenario))) as [H|H].
    + reflexivity.
    + exfalso. apply H.
      rewrite !Rabs_pos_eq by lra. lra.
  - unfold approx, Rabs.
    destruct (Rcase_abs (1 / 0.15 - 6.667)); lra.
Qed.

End AckermannSpec.

(* ================================================================== *)
(** * Properties of the frames *)
(* ================================================================== *)

Module GeometrySpec.
Import Geometry.
Local Open Scope float_scope.

Section AnyLibm.
Context {L : Libm}.

(** Once the norm is computed, [from_Pose] returns, with no warning. *)
Lemma from_Pose_cases (msg : Pose) (n : float) :
  Quat_norm (orientation msg) = Ok n ->
  from_Pose msg
  = Ok (Traced (mkFrame (position msg)
                        (if near_one n then orientation msg
                         else mkQuat 0 0 0 1))
               []).
Proof.
  destruct msg as [[px py pz] [ox oy oz ow]].
  cbn [orientation position]. intros Hn.
  unfold from_Pose, Quat_validate.
  cbn [orientation position x y z qx qy qz qw translation quaternion
       Frame_default].
  rewrite Hn. cbn [bind].
  destruct (near_one n); reflexivity.
Qed.

(** [from_Pose] raises what the norm raises, and nothing else: an error of
    the square of a component. *)
Lemma from_Pose_raises (msg : Pose) (e : exn) :
  from_Pose msg = Raise e -> Quat_norm (orientation msg) = Raise e.
Proof.
  destruct msg as [[px py pz] [ox oy oz ow]].
  unfold from_Pose, Quat_validate.
  cbn [orientation position x y z qx qy qz qw translation quaternion
       Frame_default].
  destruct (Quat_norm (mkQuat ox oy oz ow)) as [n|e']; cbn [bind].
  - cbv zeta. discriminate.
  - intros H. injection H as ->. reflexivity.
Qed.

(** C9, amended.  For every Pose message on which the norm of the
    orientation is computed (every [** 2] of a component returns), with [n]
    the norm as computed in binary64: [Frame.from_Pose] returns a frame
    with the position of the message; when the check
    [abs(n - 1) < 1e-6] fails ([n] differs from 1 by 1e-6 or more, or is
    NaN) the orientation is replaced with the identity quaternion
    [(0, 0, 0, 1)]; an orientation that passes the check is kept unchanged;
    in both cases silently: no warning is surfaced. *)
Theorem from_Pose_spec (msg : Pose) (n : float) :
  Quat_norm (orientation msg) = Ok n ->
  exists t,
    from_Pose msg = Ok t /\
    warnings t = [] /\
    translation (value t) = position msg /\
    (near_one n = false -> quaternion (value t) = mkQuat 0 0 0 1) /\
    (near_one n = true -> quaternion (value t) = orientation msg).
Proof.
  intros Hn. eexists. split; [exact (from_Pose_cases msg n Hn)|].
  cbn [warnings value translation quaternion].
  repeat split; intros ->; reflexivity.
Qed.

End AnyLibm.

(** The literal [1e-6] is the quotient of 1 and 10^6, correctly rounded. *)
Example lit_1em6_float : lit_1em6 = 1 / 1000000.
Proof. reflexivity. Qed.

(** A component of 2^600: its square is out of range, and the call
    raises. *)
Example from_Pose_overflow :
  from_Pose (L := rounded_squares)
            (mkPose (mkVec3 1 2 3) (mkQuat 0x1p600 0 0 0))
  = Raise OverflowError.
Proof. vm_compute. reflexivity. Qed.

(** C9, as stated, fails twice.  On the message whose orientation is
    [(0, 0, 0, 2)], of norm 2, the orientation is replaced, and the call
    returns with no warning surfaced.  On the message [just_outside] the
    orientation [(x, 0, 0, w)] has [x = 5446666263496882 / 2^53] and
    [w = 7173815392665855 / 2^53], so that its norm is at least 1.000001; the
    norm computed in binary64 is 1.0000009999999999, and the orientation
    is kept. *)
Lemma from_Pose_no_warning :
  (Quat_norm (L := rounded_squares) (orientation doubled) = Ok 2 /\
   near_one 2 = false /\
   from_Pose (L := rounded_squares) doubled
   = Ok (Traced (mkFrame (mkVec3 1 2 3) (mkQuat 0 0 0 1)) []) /\
   ~ (exists t, from_Pose (L := rounded_squares) doubled = Ok t /\
                quaternion (value t) = mkQuat 0 0 0 1 /\
                warnings t <> [])) /\
  (Prim2SF (qx (orientation just_outside))
   = S754_finite false 5446666263496882 (-53) /\
   Prim2SF (qw (orientation just_outside))
   = S754_finite false 7173815392665855 (-53) /\
   qy (orientation just_outside) = 0 /\
   qz (orientation just_outside) = 0 /\
   exact_norm_at_least_1000001 5446666263496882 7173815392665855 (-53) /\
   Quat_norm (L := rounded_squares) (orientation just_outside)
   = Ok 0x1.000010c6f7a0bp+0 /\
   exists t, from_Pose (L := rounded_squares) just_outside = Ok t /\
             quaternion (value t) = orientation just_outside).
Proof.
  split.
  - split; [vm_compute; reflexivity|].
    split; [vm_compute; reflexivity|].
    split; [vm_compute; reflexivity|].
    intros [t [Ht [_ Hw]]]. vm_compute in Ht. injection Ht as <-.
    apply Hw. reflexivity.
  - repeat split; try (vm_compute; reflexivity).
    + vm_compute. discriminate.
    + eexists. split; vm_compute; reflexivity.
Qed.

(** The message with an orientation of norm 2, and the message with a
    unit orientation. *)
Lemma from_Pose_spec_witness :
  (exists t,
     from_Pose (L := rounded_squares) doubled = Ok t /\
     warnings t = [] /\
     translation (value t) = position doubled /\
     (near_one 2 = false -> quaternion (value t) = mkQuat 0 0 0 1) /\
     (near_one 2 = true -> quaternion (value t) = orientation doubled)) /\
  (exists t,
     from_Pose (L := rounded_squares) unit_pose = Ok t /\
     warnings t = [] /\
     translation (value t) = position unit_pose /\
     (near_one 1 = false -> quaternion (value t) = mkQuat 0 0 0 1) /\
     (near_one 1 = true -> quaternion (value t) = orientation unit_pose)).
Proof.
  split.
  - apply (from_Pose_spec (L := rounded_squares) doubled 2).
    vm_compute. reflexivity.
  - apply (from_Pose_spec (L := rounded_squares) unit_pose 1).
    vm_compute. reflexivity.
Defined.

End GeometrySpec.


(* ================================================================== *)
(** * Properties of the repeat controller *)
(* ================================================================== *)

Module ControllerSpec.
Import Controller.
Local Open Scope py_scope.

(** ** The result monad and Python lists *)

Lemma bind_Ok {A B : Type} (m : result A) (k : A -> result B) (b : B) :
  bind m k = Ok b -> exists a, m = Ok a /\ k a = Ok b.
Proof.
  destruct m as [a|e]; simpl; intros H; [|discriminate].
  exists a; auto.
Qed.

(** Inversion of [x <- m ;; k = Ok b] in a hypothesis. *)
Ltac bind_inv H :=
  let a := fresh "a" in
  let Ha := fresh "Ha" in
  apply bind_Ok in H; destruct H as [a [Ha H]].

(** Unfold the scalar operations to those of the reals. *)
Ltac to_R :=
  cbv [zero one two lit_1em2 lit_075 add sub mul div opp fabs fsqrt of_Z
       Scalar_R] in *.

Lemma py_index_nonneg {A : Type} (l : list A) (k : nat) :
  py_index l (Z.of_nat k) =
  match nth_error l k with Some a => Ok a | None => Raise IndexError end.
Proof.
  unfold py_index.
  destruct (Z.ltb_spec (Z.of_nat k) 0); [lia|].
  destruct (Z.leb_spec 0 (Z.of_nat k)); [|lia].
  rewrite Nat2Z.id. simpl.
  destruct (Z.ltb_spec (Z.of_nat k) (Z.of_nat (length l))) as [Hlt|Hge].
  - reflexivity.
  - destruct (nth_error l k) eqn:E; [|reflexivity].
    assert (k < length l)%nat by (apply nth_error_Some; congruence). lia.
Qed.

Lemma py_index_last {A : Type} (l : list A) (a : A) :
  py_index (l ++ [a]) (-1) = Ok a.
Proof.
  unfold py_index. rewrite length_app. simpl length.
  change (-1 <? 0)%Z with true. cbv iota.
  replace (-1 + Z.of_nat (length l + 1))%Z with (Z.of_nat (length l)) by lia.
  destruct (Z.leb_spec 0 (Z.of_nat (length l))); [|lia].
  destruct (Z.ltb_spec (Z.of_nat (length l)) (Z.of_nat (length l + 1))); [|lia].
  simpl. rewrite Nat2Z.id.
  rewrite nth_error_app2 by lia. rewrite Nat.sub_diag. reflexivity.
Qed.

Lemma py_index_neg1 {A : Type} (l : list A) (a : A) :
  py_index l (-1) = Ok a ->
  l <> [] /\ nth_error l (length l - 1) = Some a.
Proof.
  unfold py_index. change (-1 <? 0)%Z with true. cbv iota.
  destruct l as [|b l]; [simpl; discriminate|].
  intros H. split; [discriminate|].
  destruct ((0 <=? -1 + Z.of_nat (length (b :: l)))
            && (-1 + Z.of_nat (length (b :: l)) <? Z.of_nat (length (b :: l))))%Z;
    [|discriminate].
  replace (Z.to_nat (-1 + Z.of_nat (length (b :: l)))) with (length (b :: l) - 1)
    in H by lia.
  destruct (nth_error (b :: l) (length (b :: l) - 1)); [|discriminate].
  now injection H as ->.
Qed.

Lemma py_index_in_range {A : Type} (l : list A) (i : Z) :
  (- Z.of_nat (length l) <= i < Z.of_nat (length l))%Z ->
  exists a, py_index l i = Ok a.
Proof.
  intros Hi. unfold py_index.
  set (j := if (i <? 0)%Z then (i + Z.of_nat (length l))%Z else i).
  assert (Hj : (0 <= j < Z.of_nat (length l))%Z).
  { unfold j. destruct (Z.ltb_spec i 0); lia. }
  destruct (Z.leb_spec 0 j); [|lia].
  destruct (Z.ltb_spec j (Z.of_nat (length l))); [|lia]. simpl.
  destruct (nth_error l (Z.to_nat j)) as [a|] eqn:En; [now exists a|].
  apply nth_error_None in En. lia.
Qed.

Lemma ListQueue_push_length {A : Type} (size : nat) (l : list A) (a : A) :
  length l = size -> length (ListQueue_push size l a) = size.
Proof.
  intros H. unfold ListQueue_push.
  rewrite length_skipn, length_app. simpl. lia.
Qed.


Section Generic.
Context {F : Type} {SF : Scalar F} {image : Type} {E : External F image}.

Local Abbreviation state := (state F image).
Local Abbreviation config := (config F).
Local Abbreviation cycle_env := (cycle_env F image).
Local Abbreviation advance_in := (advance_in F image).

(** ** The goal index along [pass_to_next_goal] *)

Lemma update_anchors_frame (c : config) (inp : advance_in) (st st' : state) :
  update_anchors c inp st = Ok st' ->
  goal_idx st' = goal_idx st /\ q st' = q st /\
  goal_distances st' = goal_distances st.
Proof.
  unfold update_anchors. intros H.
  bind_inv H. destruct a as [[imgA TA]|].
  - bind_inv H. destruct a as [[imgB TB]|].
    + bind_inv H. injection H as <-. simpl. auto.
    + injection H as <-. auto.
  - injection H as <-. auto.
Qed.

Lemma update_goal_distances_frame (st st' : state) :
  update_goal_distances st = Ok st' ->
  goal_idx st' = goal_idx st /\ q st' = q st /\
  T_0_odomA st' = T_0_odomA st /\ T_0_odomB st' = T_0_odomB st /\
  initial_compensation_rotation_factor st'
  = initial_compensation_rotation_factor st /\
  initial_compensation_translation_factor st'
  = initial_compensation_translation_factor st.
Proof.
  unfold update_goal_distances. intros H.
  bind_inv H. destruct a as [[img2 T2]|].
  - bind_inv H. destruct a as [[img1 T1]|].
    + bind_inv H. injection H as <-. simpl. repeat split.
    + injection H as <-. repeat split.
  - injection H as <-. repeat split.
Qed.

Lemma pass_to_next_goal_writes (c : config) (inp : advance_in) (st : state) :
  fst (pass_to_next_goal c inp st) = passed_goal_write (goal_idx st + 1).
Proof. reflexivity. Qed.

Lemma pass_to_next_goal_goal_idx (c : config) (inp : advance_in)
  (st st' : state) (out : list (write F)) :
  pass_to_next_goal c inp st = (out, Ok st') ->
  goal_idx st' = (goal_idx st + 1)%Z.
Proof.
  unfold pass_to_next_goal. intros H. injection H as _ H.
  bind_inv H.
  apply update_anchors_frame in Ha. apply update_goal_distances_frame in H.
  destruct Ha as [Ha _]. destruct H as [H _].
  rewrite H, Ha. reflexivity.
Qed.

Lemma passed_goals_app (a b : list (write F)) :
  passed_goals (a ++ b) = passed_goals a ++ passed_goals b.
Proof.
  induction a as [|[g|v w] a IH]; simpl; [reflexivity| |assumption].
  now rewrite IH.
Qed.

Lemma passed_goals_write (g : Z) :
  passed_goals (@passed_goal_write F g) = advances_write (g - 1) 1.
Proof.
  unfold passed_goal_write. simpl.
  replace (g - 1 + 1)%Z with g by lia.
  destruct (0 <=? g)%Z; reflexivity.
Qed.

Lemma advances_write_app (g : Z) (n m : nat) :
  advances_write g (n + m) =
  advances_write g n ++ advances_write (g + Z.of_nat n) m.
Proof.
  revert g. induction n as [|n IH]; intros g.
  - simpl. now rewrite Z.add_0_r.
  - cbn [Nat.add advances_write]. rewrite IH, <- app_assoc.
    do 3 f_equal. lia.
Qed.

(** ** The goal index along a cycle *)

Lemma straight_segment_goal_idx (c : config) (env : cycle_env) (img : image)
  (T TB : mat4 F) (tR tB : vec3 F) (lA lR : F) (st : state)
  (ph : phase F image) :
  straight_segment c env img T TB tR tB lA lR st = Ok ph ->
  match ph with
  | Advance s | Refined s =>
    goal_idx s = goal_idx st /\ q s = q st /\
    goal_distances s = goal_distances st
  end.
Proof.
  unfold straight_segment. intros H.
  do 4 bind_inv H.
  match type of H with (if ?b then _ else _) = _ => destruct b end.
  - injection H as <-. simpl. auto.
  - do 3 bind_inv H. injection H as <-. simpl. auto.
Qed.

Lemma correct_goal_idx (c : config) (env : cycle_env) (img : image)
  (T : mat4 F) (st : state) (ph : phase F image) :
  correct c env img T st = Ok ph ->
  match ph with
  | Advance s | Refined s =>
    goal_idx s = goal_idx st /\ q s = q st /\
    goal_distances s = goal_distances st
  end.
Proof.
  unfold correct. intros H.
  do 2 bind_inv H.
  match type of H with (if ?b then _ else _) = _ => destruct b end.
  - now apply straight_segment_goal_idx in H.
  - injection H as <-. auto.
Qed.

(** The shapes an iteration can take: the terminal one, an idle or a
    commanding one, or one advance. *)
Lemma cycle_cases (c : config) (weights : list F) (env : cycle_env)
  (st : state) :
  let (out, res) := cycle c weights env st in
  (finished c st = Ok true /\ out = [PassedGoal None] /\ res = Ok (Break, st))
  \/
  (finished c st <> Ok true /\ passed_goals out = [] /\
   length (commands out) <= 1 /\
   match res with
   | Ok (s, st') => s = Continue /\ goal_idx st' = goal_idx st
   | Raise _ => commands out = []
   end)
  \/
  (finished c st <> Ok true /\ commands out = [] /\
   out = passed_goal_write (goal_idx st + 1) /\
   match res with
   | Ok (s, st') => s = Continue /\ goal_idx st' = (goal_idx st + 1)%Z
   | Raise _ => True
   end).
Proof.
  unfold cycle.
  destruct (finished c st) as [[|]|e] eqn:Hf.
  - left. auto.
  - destruct (processed_image env) as [img|];
      [destruct (odom env) as [T|]|].
    + destruct (correct c env img T st) as [[s|s]|e] eqn:Hc.
      * apply correct_goal_idx in Hc. destruct Hc as [Hg _].
        destruct (pass_to_next_goal c (advance env) s) as [out res] eqn:Hp.
        right; right.
        pose proof (pass_to_next_goal_writes c (advance env) s) as Hw.
        rewrite Hp in Hw. simpl in Hw. rewrite Hg in Hw.
        split; [discriminate|]. split.
        { rewrite Hw. unfold passed_goal_write.
          destruct (0 <=? goal_idx st + 1)%Z; reflexivity. }
        split; [exact Hw|].
        destruct res as [s'|e]; simpl; [|exact I].
        apply pass_to_next_goal_goal_idx in Hp. split; [reflexivity|lia].
      * apply correct_goal_idx in Hc. destruct Hc as [Hg _].
        destruct (command c weights T s) as [[v w]|e];
          right; left; (split; [discriminate|]); simpl; auto.
      * right; left. split; [discriminate|]. simpl. auto.
    + right; left. split; [discriminate|]. simpl. auto.
    + right; left. split; [discriminate|]. simpl. auto.
  - right; left. split; [discriminate|]. simpl. auto.
Qed.

(** The [passed_goal] writes of the main loop: the indices of the
    advances it made, then [None] exactly when it exited. *)
Lemma main_loop_passed_goals (c : config) (weights : list F)
  (envs : list cycle_env) (st : state) :
  exists n,
    passed_goals (writes (main_loop c weights envs st))
    = advances_write (goal_idx st) n
      ++ match final (main_loop c weights envs st) with
         | Exited _ => [None]
         | _ => []
         end.
Proof.
  revert st. induction envs as [|env rest IH]; intros st.
  - exists 0. reflexivity.
  - cbn [main_loop]. destruct (is_shutdown env).
    + exists 0. reflexivity.
    + pose proof (cycle_cases c weights env st) as Hc.
      destruct (cycle c weights env st) as [out res].
      destruct Hc as [[_ [-> ->]] | [[_ [Hpg [_ Hres]]] | [_ [_ [-> Hres]]]]].
      * exists 0. reflexivity.
      * destruct res as [[s st']|e].
        -- destruct Hres as [-> Hg].
           destruct (IH st') as [n Hn]. exists n.
           cbn [writes final prepend].
           rewrite passed_goals_app, Hpg, Hn, Hg. reflexivity.
        -- exists 0. simpl. rewrite Hpg. reflexivity.
      * destruct res as [[s st']|e].
        -- destruct Hres as [-> Hg].
           destruct (IH st') as [n Hn]. exists (1 + n).
           cbn [writes final prepend].
           rewrite passed_goals_app, Hn, Hg, passed_goals_write.
           rewrite advances_write_app, <- app_assoc.
           repeat f_equal; lia.
        -- exists 1. cbn [writes final].
           rewrite passed_goals_write. rewrite app_nil_r.
           f_equal. lia.
Qed.

(** The same for the filling of the window, which never writes [None]
    and ends at goal index 0 when it ends. *)
Lemma fill_passed_goals (c : config) (inputs : list advance_in) (st : state) :
  exists n,
    passed_goals (writes (fill c inputs st)) = advances_write (goal_idx st) n /\
    match final (fill c inputs st) with
    | Exited st' => goal_idx st' = (goal_idx st + Z.of_nat n)%Z
    | _ => True
    end.
Proof.
  revert st. induction inputs as [|inp rest IH]; intros st.
  - exists 0. cbn [fill]. destruct (goal_idx st =? 0)%Z; simpl; split; auto; lia.
  - cbn [fill]. destruct (goal_idx st =? 0)%Z.
    + exists 0. simpl. split; auto; lia.
    + pose proof (pass_to_next_goal_writes c inp st) as Hw.
      destruct (pass_to_next_goal c inp st) as [out [st'|e]] eqn:Hp;
        simpl in Hw; subst out.
      * apply pass_to_next_goal_goal_idx in Hp.
        destruct (IH st') as [n [Hn Hf]]. exists (1 + n).
        cbn [writes final prepend].
        rewrite passed_goals_app, Hn, Hp, passed_goals_write.
        rewrite advances_write_app. split.
        -- repeat f_equal; lia.
        -- destruct (final (fill c rest st')); auto. lia.
      * exists 1. cbn [writes final]. rewrite passed_goals_write.
        split; [f_equal; lia | exact I].
Qed.

(** From a negative goal index the advances write [0, 1, 2, ...]. *)
Lemma advances_write_from (g : Z) (n : nat) :
  (-1 <= g)%Z ->
  advances_write g n = map (fun k => Some (g + 1 + Z.of_nat k)%Z) (seq 0 n).
Proof.
  revert g. induction n as [|n IH]; intros g Hg; [reflexivity|].
  cbn [advances_write]. destruct (Z.leb_spec 0 (g + 1)); [|lia].
  rewrite IH by lia. cbn [seq map app].
  rewrite <- seq_shift, map_map. f_equal; [f_equal; lia|].
  apply map_ext. intros k. f_equal. lia.
Qed.

Lemma advances_write_warm (g : Z) (n : nat) :
  (g < 0)%Z -> exists m, advances_write g n = goal_indices m.
Proof.
  revert g. induction n as [|n IH]; intros g Hg.
  - exists 0. reflexivity.
  - destruct (Z.eq_dec g (-1)) as [->|Hne].
    + exists (S n). rewrite advances_write_from by lia.
      unfold goal_indices. apply map_ext. intros k. f_equal.
    + cbn [advances_write]. destruct (Z.leb_spec 0 (g + 1)); [lia|].
      apply IH. lia.
Qed.

Lemma finished_true (c : config) (st : state) (a : waypoint F image) :
  py_index (q st) (Z.of_nat (along_path_radius c)) = Ok (Some a) ->
  py_index (q st) (Z.of_nat (along_path_radius c) + 1) = Ok None ->
  finished c st = Ok true.
Proof.
  intros Ha Hb. unfold finished. rewrite Ha. simpl. rewrite Hb. reflexivity.
Qed.

(** C6.  In an iteration of the control loop (the shutdown flag is not
    set) whose window holds a waypoint at the anchor offset [r] and the
    end-of-path marker at [r + 1], the controller writes [None] to
    [passed_goal] and nothing else, leaves the loop by [break] with its
    state unchanged, and [run] returns: whatever the later inputs would
    have been, there is no further advance and no command. *)
Theorem path_exhausted_exits (c : config) (weights : list F)
  (env : cycle_env) (rest : list cycle_env) (st : state)
  (a : waypoint F image) :
  is_shutdown env = false ->
  py_index (q st) (Z.of_nat (along_path_radius c)) = Ok (Some a) ->
  py_index (q st) (Z.of_nat (along_path_radius c) + 1) = Ok None ->
  cycle c weights env st = ([PassedGoal None], Ok (Break, st)) /\
  main_loop c weights (env :: rest) st = Trace [PassedGoal None] (Exited st).
Proof.
  intros Hs Ha Hb.
  assert (Hc : cycle c weights env st = ([PassedGoal None], Ok (Break, st))).
  { unfold cycle. now rewrite (finished_true c st a Ha Hb). }
  split; [exact Hc|].
  cbn [main_loop]. rewrite Hs, Hc. reflexivity.
Qed.

Lemma init_goal_idx_neg (c : config) : (goal_idx (init (image := image) c) < 0)%Z.
Proof. simpl. lia. Qed.

(** C10.  The goal index starts negative; an advance adds exactly 1 to it
    and writes the new index to [passed_goal] only when it is not
    negative; and the values a run writes to [passed_goal] are the goal
    indices [0, 1, ..., n-1] in order, followed by the single marker [None]
    exactly when [run] returned through the terminal [break]. *)
Theorem passed_goal_values (c : config) (warm : list advance_in)
  (start_time : F) (envs : list cycle_env) :
  (goal_idx (init (image := image) c) < 0)%Z /\
  (forall inp st,
     fst (pass_to_next_goal c inp st) = passed_goal_write (goal_idx st + 1) /\
     match snd (pass_to_next_goal c inp st) with
     | Ok st' => goal_idx st' = (goal_idx st + 1)%Z
     | Raise _ => True
     end) /\
  exists n,
    passed_goals (writes (run c warm start_time envs))
    = goal_indices n
      ++ match final (run c warm start_time envs) with
         | Exited _ => [None]
         | _ => []
         end.
Proof.
  split; [apply init_goal_idx_neg|]. split.
  { intros inp st. split; [reflexivity|].
    destruct (pass_to_next_goal c inp st) as [out [st'|e]] eqn:Hp; simpl;
      [|exact I].
    now apply pass_to_next_goal_goal_idx in Hp. }
  unfold run. destruct (padded_weights c) as [weights|e].
  2:{ exists 0. reflexivity. }
  set (st0 := start c).
  assert (H0 : (goal_idx st0 < 0)%Z) by (simpl; lia).
  destruct (fill_passed_goals c warm st0) as [n1 [Hw Hf]].
  destruct (fill c warm st0) as [out fin]. cbn [writes final] in Hw, Hf.
  destruct fin as [st1|st1|st1|e];
    try (destruct (advances_write_warm (goal_idx st0) n1 H0) as [m Hm];
         exists m; cbn [writes final]; rewrite Hw, Hm, app_nil_r; reflexivity).
  destruct (main_loop_passed_goals c weights envs (set_timer_P st1 start_time))
    as [n2 Hn2].
  destruct (advances_write_warm (goal_idx st0) (n1 + n2) H0) as [m Hm].
  exists m. cbn [writes final prepend].
  rewrite passed_goals_app, Hw, Hn2. cbn [goal_idx set_timer_P].
  rewrite Hf, app_assoc, <- advances_write_app, Hm. reflexivity.
Qed.

(** ** The correction factors on an advance *)

(** Lines 97-102, factor by factor: a factor whose recorded magnitude is
    not above its threshold is its own sample. *)
Lemma update_factors_sample (c : config) (st : state) (A B : mat4 F)
  (rr rt rf tf : F) :
  record_T_odomA_odomB_rotation st = Some rr ->
  record_T_odomA_odomB_translation st = Some rt ->
  update_factors c st A B = Ok (rf, tf) ->
  (ltb (initial_compensation_rotation_threshold c) (fabs rr) = false ->
   rf = ema (initial_compensation_rotation_update_rate c)
            (initial_compensation_rotation_factor st)
            (initial_compensation_rotation_factor st)) /\
  (ltb (initial_compensation_translation_threshold c) rt = false ->
   tf = ema (initial_compensation_translation_update_rate c)
            (initial_compensation_translation_factor st)
            (initial_compensation_translation_factor st)).
Proof.
  intros Hr Ht H. unfold update_factors in H. rewrite Hr, Ht in H.
  cbn [need bind] in H.
  destruct (ltb (initial_compensation_rotation_threshold c) (fabs rr)) eqn:El;
    destruct (ltb (initial_compensation_translation_threshold c) rt) eqn:Et;
    bind_inv H; cbv zeta in H; injection H as <- <-;
    (split; intros Hle; try discriminate);
    try (injection Ha as <-); reflexivity.
Qed.

(** Below both thresholds nothing is divided, and the update returns. *)
Lemma update_factors_below (c : config) (st : state) (A B : mat4 F)
  (rr rt : F) :
  record_T_odomA_odomB_rotation st = Some rr ->
  record_T_odomA_odomB_translation st = Some rt ->
  ltb (initial_compensation_rotation_threshold c) (fabs rr) = false ->
  ltb (initial_compensation_translation_threshold c) rt = false ->
  update_factors c st A B
  = Ok (ema (initial_compensation_rotation_update_rate c)
            (initial_compensation_rotation_factor st)
            (initial_compensation_rotation_factor st),
        ema (initial_compensation_translation_update_rate c)
            (initial_compensation_translation_factor st)
            (initial_compensation_translation_factor st)).
Proof.
  intros Hr Ht El Et. unfold update_factors. rewrite Hr, Ht.
  cbn [need bind]. rewrite El. cbn [bind]. rewrite Et. reflexivity.
Qed.

Lemma py_index_Ok_length {A : Type} (l : list A) (i : Z) (a : A) :
  (0 <= i)%Z -> py_index l i = Ok a -> (i < Z.of_nat (length l))%Z.
Proof.
  intros Hi. unfold py_index.
  destruct (Z.ltb_spec i 0) as [H|_]; [lia|].
  destruct (Z.leb_spec 0 i) as [_|H]; [|lia].
  destruct (Z.ltb_spec i (Z.of_nat (length l))) as [H|H]; [intros _; exact H|].
  simpl. discriminate.
Qed.

(** An advance that updates the factors returns, when the list of
    cumulative distances is not empty and the rotation sample does not
    divide by zero. *)
Lemma updating_advance_returns (c : config) (inp : advance_in)
  (st : state) (A B : mat4 F) (rr rt : F) :
  T_0_odomA st = Some A -> T_0_odomB st = Some B ->
  record_T_odomA_odomB_rotation st = Some rr ->
  record_T_odomA_odomB_translation st = Some rt ->
  anchors_in_window c inp st ->
  goal_distances st <> [] ->
  ltb (initial_compensation_rotation_threshold c) (fabs rr) = false
  \/ eqb rr zero = false ->
  exists st', snd (pass_to_next_goal c inp st) = Ok st'.
Proof.
  intros HA HB Hr Ht [a [b [Ia Ib]]] Hg Hdiv.
  assert (Hu : exists rf tf, update_factors c st A B = Ok (rf, tf)).
  { unfold update_factors. rewrite Hr, Ht. cbn [need bind].
    destruct (ltb (initial_compensation_rotation_threshold c) (fabs rr))
      eqn:El.
    - destruct Hdiv as [H|H]; [discriminate|].
      unfold py_div. rewrite H. cbn [bind]. eauto.
    - cbn [bind]. eauto. }
  destruct Hu as [rf [tf Hu]].
  unfold pass_to_next_goal. cbn [snd].
  set (q' := ListQueue_push (q_size c) (q st) (record_read inp)) in *.
  assert (Hlen : (2 <= Z.of_nat (length q'))%Z).
  { apply py_index_Ok_length in Ib; lia. }
  unfold update_anchors. cbn [q set_goal_idx set_q].
  rewrite Ia. cbn [bind]. destruct a as [imgA TA].
  rewrite Ib. cbn [bind]. destruct b as [imgB TB].
  cbn [T_0_odomA T_0_odomB set_goal_idx set_q].
  rewrite HA, HB.
  match goal with
  | |- context [update_factors c ?s A B] =>
      change (update_factors c s A B) with (update_factors c st A B)
  end.
  rewrite Hu. cbn [bind fst snd].
  unfold update_goal_distances.
  cbn [q goal_distances set_anchors set_goal_idx set_q].
  destruct (py_index_in_range q' (-2)) as [e2 He2]; [lia|].
  rewrite He2. cbn [bind]. destruct e2 as [[i2 T2]|]; [|eauto].
  destruct (py_index_in_range q' (-1)) as [e1 He1]; [lia|].
  rewrite He1. cbn [bind]. destruct e1 as [[i1 T1]|]; [|eauto].
  destruct (py_index_in_range (goal_distances st) (-1)) as [d Hd].
  { destruct (goal_distances st); [congruence|]. simpl length. lia. }
  rewrite Hd. cbn [bind]. eauto.
Qed.
(** The factors an advance leaves, when it updates them. *)
Lemma pass_to_next_goal_factors (c : config) (inp : advance_in)
  (st st' : state) (A B : mat4 F) :
  T_0_odomA st = Some A -> T_0_odomB st = Some B ->
  anchors_in_window c inp st ->
  snd (pass_to_next_goal c inp st) = Ok st' ->
  update_factors c st A B
  = Ok (initial_compensation_rotation_factor st',
        initial_compensation_translation_factor st').
Proof.
  intros HA HB [rec_a [rec_b [Ia Ib]]] H.
  unfold pass_to_next_goal in H. cbn [snd] in H.
  bind_inv H.
  apply update_goal_distances_frame in H.
  destruct H as [_ [_ [_ [_ [Hrf Htf]]]]].
  rewrite Hrf, Htf. clear Hrf Htf.
  unfold update_anchors in Ha.
  cbn [q set_goal_idx set_q] in Ha.
  rewrite Ia in Ha. cbn [bind] in Ha. destruct rec_a as [imgA TA].
  rewrite Ib in Ha. cbn [bind] in Ha. destruct rec_b as [imgB TB].
  cbn [T_0_odomA T_0_odomB set_goal_idx set_q] in Ha.
  rewrite HA, HB in Ha.
  bind_inv Ha. destruct a0 as [rf tf].
  injection Ha as <-.
  cbn [set_anchors initial_compensation_rotation_factor
       initial_compensation_translation_factor fst snd].
  exact Ha0.
Qed.

End Generic.

(* ------------------------------------------------------------------ *)
(** ** Over the reals *)
(* ------------------------------------------------------------------ *)

Section Reals.
Context {image : Type} {E : External R image}.
Local Open Scope R_scope.

Local Abbreviation state := (state R image).
Local Abbreviation config := (config R).
Local Abbreviation advance_in := (advance_in R image).

Lemma ltb_R (x y : R) : ltb x y = true <-> x < y.
Proof.
  simpl. destruct (Rlt_dec x y); split; intros;
    try reflexivity; try assumption; try discriminate; try contradiction.
Qed.

Lemma ltb_R_false (x y : R) : ltb x y = false <-> y <= x.
Proof.
  simpl. destruct (Rlt_dec x y); split; intros; auto; try discriminate; lra.
Qed.

Lemma eqb_R (x y : R) : eqb x y = true <-> x = y.
Proof.
  simpl. destruct (Req_dec_T x y); split; intros;
    try reflexivity; try assumption; try discriminate; try contradiction.
Qed.

Lemma np_maximum_R (a b : R) : np_maximum a b = Rmax a b.
Proof.
  unfold np_maximum, Rmax. simpl.
  destruct (Rlt_dec a b), (Rle_dec a b); try reflexivity; lra.
Qed.

(** [a.max()] is the greatest element. *)
Lemma fold_np_maximum_greatest (t : list R) (a : R) :
  greatest (fold_left np_maximum t a) (a :: t).
Proof.
  revert a. induction t as [|b t IH]; intros a.
  - split; [left; reflexivity|]. intros x [<-|[]]. simpl. lra.
  - cbn [fold_left]. destruct (IH (np_maximum a b)) as [Hin Hmax].
    rewrite np_maximum_R in *. split.
    + destruct Hin as [Hin|Hin]; [|right; right; exact Hin].
      rewrite <- Hin. unfold Rmax. destruct (Rle_dec a b); simpl; auto.
    + intros x [->|[->|Hx]].
      * apply Rle_trans with (Rmax x b); [apply Rmax_l|].
        apply Hmax. left. reflexivity.
      * apply Rle_trans with (Rmax a x); [apply Rmax_r|].
        apply Hmax. left. reflexivity.
      * apply Hmax. right. exact Hx.
Qed.

Lemma np_max_greatest (l : list R) (m : R) :
  np_max l = Ok m -> greatest m l.
Proof.
  destruct l as [|a t]; simpl; intros H; [discriminate|].
  injection H as <-. apply fold_np_maximum_greatest.
Qed.

Lemma greatest_unique (l : list R) (m m' : R) :
  greatest m l -> greatest m' l -> m = m'.
Proof.
  intros [Hin Hmax] [Hin' Hmax'].
  apply Hmax' in Hin. apply Hmax in Hin'. lra.
Qed.

Lemma map_suppressed (s : R) (l : list R) :
  Forall2 (suppressed s) l (map (fun x => if ltb x s then zero else x) l).
Proof.
  induction l as [|x l IH]; constructor; [|exact IH].
  unfold suppressed. destruct (ltb x s) eqn:Hx.
  - apply ltb_R in Hx. split; [reflexivity|lra].
  - apply ltb_R_false in Hx. split; [lra|reflexivity].
Qed.

(** C3.  For every vector of scores with at least two distinct values the
    suppression step returns; with [s] the second-highest distinct value,
    every score strictly below [s] is replaced with 0, and every score
    that is [s] or more (the global maximum among them) is left as it
    is. *)
Theorem suppress_spec (scan_values : list R) :
  (exists x y, In x scan_values /\ In y scan_values /\ x <> y) ->
  exists s out,
    second_highest s scan_values /\
    suppress scan_values = Ok out /\
    Forall2 (suppressed s) scan_values out.
Proof.
  intros [x [y [Hx [Hy Hxy]]]].
  unfold suppress.
  destruct (np_max scan_values) as [m|e] eqn:Hm.
  2:{ destruct scan_values; [contradiction|discriminate]. }
  pose proof (np_max_greatest _ _ Hm) as Hgm.
  cbn [bind].
  set (below := filter (fun v => negb (eqb v m)) scan_values).
  assert (Hbelow : forall v, In v below <-> In v scan_values /\ v < m).
  { intros v. unfold below. rewrite filter_In. split.
    - intros [Hin Hne]. split; [exact Hin|].
      destruct Hgm as [_ Hmax]. apply Hmax in Hin.
      destruct (eqb v m) eqn:Heq; [discriminate|].
      assert (v <> m).
      { intros ->. rewrite (proj2 (eqb_R m m) eq_refl) in Heq. discriminate. }
      lra.
    - intros [Hin Hlt]. split; [exact Hin|].
      destruct (eqb v m) eqn:Heq; [|reflexivity].
      apply eqb_R in Heq. lra. }
  assert (Hne : exists v, In v below).
  { destruct Hgm as [_ Hmax].
    pose proof (Hmax x Hx). pose proof (Hmax y Hy).
    destruct (Rlt_dec x m) as [Hlt|Hge].
    - exists x. apply Hbelow. auto.
    - exists y. apply Hbelow. split; [exact Hy|lra]. }
  destruct (np_max below) as [s|e] eqn:Hs.
  2:{ destruct below; [destruct Hne as [v []]|discriminate]. }
  pose proof (np_max_greatest _ _ Hs) as [Hsin Hsmax].
  exists s. eexists. cbn [bind]. split; [|split; [reflexivity|]].
  - exists m. split; [exact Hgm|].
    apply Hbelow in Hsin. destruct Hsin as [Hsin Hslt].
    repeat split; auto.
    intros v Hv Hvm. apply Hsmax. apply Hbelow. auto.
  - apply map_suppressed.
Qed.


(** ** The correction factors *)

Lemma update_factors_carry (c : config) (st : state) (A B : mat4 R)
  (rr rt rf tf : R) :
  record_T_odomA_odomB_rotation st = Some rr ->
  record_T_odomA_odomB_translation st = Some rt ->
  update_factors c st A B = Ok (rf, tf) ->
  (Rabs rr <= initial_compensation_rotation_threshold c ->
   rf = initial_compensation_rotation_factor st) /\
  (rt <= initial_compensation_translation_threshold c ->
   tf = initial_compensation_translation_factor st).
Proof.
  intros Hr Ht H. unfold update_factors in H. rewrite Hr, Ht in H.
  cbn [need bind] in H.
  destruct (ltb (initial_compensation_rotation_threshold c) (fabs rr)) eqn:El;
    destruct (ltb (initial_compensation_translation_threshold c) rt) eqn:Et;
    bind_inv H; cbv zeta in H; injection H as <- <-;
    try apply ltb_R in El; try apply ltb_R in Et;
    (split; intros Hle; [try (to_R; lra) | try lra]);
    try (injection Ha as <-); to_R; ring.
Qed.

(** Below both thresholds the update divides by nothing and returns the
    factors it was given. *)
Lemma update_factors_fixed (c : config) (st : state) (A B : mat4 R)
  (rr rt : R) :
  record_T_odomA_odomB_rotation st = Some rr ->
  record_T_odomA_odomB_translation st = Some rt ->
  Rabs rr <= initial_compensation_rotation_threshold c ->
  rt <= initial_compensation_translation_threshold c ->
  update_factors c st A B
  = Ok (initial_compensation_rotation_factor st,
        initial_compensation_translation_factor st).
Proof.
  intros Hr Ht Hler Hlet. unfold update_factors. rewrite Hr, Ht.
  cbn [need bind].
  destruct (ltb (initial_compensation_rotation_threshold c) (fabs rr)) eqn:El.
  { apply ltb_R in El. to_R. lra. }
  destruct (ltb (initial_compensation_translation_threshold c) rt) eqn:Et.
  { apply ltb_R in Et. lra. }
  cbn [bind]. to_R. f_equal. f_equal; ring.
Qed.

Lemma update_anchors_factors (c : config) (inp : advance_in) (st st' : state)
  (A B : mat4 R) (rr rt : R) :
  T_0_odomA st = Some A -> T_0_odomB st = Some B ->
  record_T_odomA_odomB_rotation st = Some rr ->
  record_T_odomA_odomB_translation st = Some rt ->
  update_anchors c inp st = Ok st' ->
  (Rabs rr <= initial_compensation_rotation_threshold c ->
   initial_compensation_rotation_factor st'
   = initial_compensation_rotation_factor st) /\
  (rt <= initial_compensation_translation_threshold c ->
   initial_compensation_translation_factor st'
   = initial_compensation_translation_factor st).
Proof.
  intros HA HB Hr Ht H. unfold update_anchors in H.
  bind_inv H. destruct a as [[imgA TA]|]; [|injection H as <-; auto].
  bind_inv H. destruct a as [[imgB TB]|]; [|injection H as <-; auto].
  rewrite HA, HB in H. bind_inv H. destruct a as [rf tf].
  injection H as <-. cbn [set_anchors initial_compensation_rotation_factor
                          initial_compensation_translation_factor fst snd].
  exact (update_factors_carry c st A B rr rt rf tf Hr Ht Ha1).
Qed.

(** Over the reals the moving average with the old factor as its sample
    is the old factor: a factor whose recorded magnitude does not exceed
    its threshold is the same after the advance as before it. *)
Lemma factors_exact (c : config) (inp : advance_in) (st : state)
  (A B : mat4 R) (rr rt : R) :
  T_0_odomA st = Some A -> T_0_odomB st = Some B ->
  record_T_odomA_odomB_rotation st = Some rr ->
  record_T_odomA_odomB_translation st = Some rt ->
  match snd (pass_to_next_goal c inp st) with
  | Ok st' =>
    (Rabs rr <= initial_compensation_rotation_threshold c ->
     initial_compensation_rotation_factor st'
     = initial_compensation_rotation_factor st) /\
    (rt <= initial_compensation_translation_threshold c ->
     initial_compensation_translation_factor st'
     = initial_compensation_translation_factor st)
  | Raise _ => True
  end /\
  (Rabs rr <= initial_compensation_rotation_threshold c ->
   rt <= initial_compensation_translation_threshold c ->
   update_factors c st A B
   = Ok (initial_compensation_rotation_factor st,
         initial_compensation_translation_factor st)).
Proof.
  intros HA HB Hr Ht. split.
  2:{ intros. now apply update_factors_fixed with (rr := rr) (rt := rt). }
  unfold pass_to_next_goal. cbn [snd].
  match goal with |- match ?m with _ => _ end => destruct m as [st'|e] eqn:H end;
    [|exact I].
  bind_inv H.
  apply update_goal_distances_frame in H.
  destruct H as [_ [_ [_ [_ [Hrf Htf]]]]].
  rewrite Hrf, Htf.
  match type of Ha with update_anchors _ _ ?s = _ =>
    exact (update_anchors_factors c inp s a A B rr rt HA HB Hr Ht Ha)
  end.
Qed.

(** ** The cumulative distances *)

Lemma norm_nonneg (v : vec3 R) : 0 <= norm v.
Proof. unfold norm. to_R. apply sqrt_pos. Qed.

Lemma nondecreasing_snoc (l : list R) (x : R) :
  nondecreasing l ->
  (forall last, nth_error l (length l - 1) = Some last -> last <= x) ->
  nondecreasing (l ++ [x]).
Proof.
  intros Hl Hx i j a b Hij Hi Hj.
  assert (Hjl : (j < length (l ++ [x]))%nat)
    by (apply nth_error_Some; congruence).
  rewrite length_app in Hjl. simpl in Hjl.
  destruct (Nat.lt_ge_cases j (length l)) as [Hlt|Hge].
  - rewrite nth_error_app1 in Hi, Hj by lia. exact (Hl i j a b Hij Hi Hj).
  - assert (j = length l) by lia. subst j.
    rewrite nth_error_app2, Nat.sub_diag in Hj by lia.
    injection Hj as <-.
    destruct (Nat.eq_dec i (length l)) as [->|Hne].
    + rewrite nth_error_app2, Nat.sub_diag in Hi by lia.
      injection Hi as <-. lra.
    + rewrite nth_error_app1 in Hi by lia.
      destruct (nth_error l (length l - 1)) as [last|] eqn:El.
      * apply Rle_trans with last; [|now apply Hx].
        apply (Hl i (length l - 1)%nat a last); auto. lia.
      * apply nth_error_None in El. lia.
Qed.

(** Lines 123-125: either nothing is appended, or the last distance plus
    the norm of the translation delta of the two newest entries. *)
Lemma update_goal_distances_cases (st st' : state) :
  update_goal_distances st = Ok st' ->
  goal_distances st' = goal_distances st \/
  exists i1 T1 i2 T2 last,
    py_index (q st) (-1) = Ok (Some (i1, T1)) /\
    py_index (q st) (-2) = Ok (Some (i2, T2)) /\
    py_index (goal_distances st) (-1) = Ok last /\
    goal_distances st'
    = goal_distances st ++ [last + norm (edt (mat4_sub T1 T2))].
Proof.
  unfold update_goal_distances. intros H.
  bind_inv H. destruct a as [[i2 T2]|]; [|injection H as <-; auto].
  bind_inv H. destruct a as [[i1 T1]|]; [|injection H as <-; auto].
  bind_inv H. injection H as <-. right.
  exists i1, T1, i2, T2, a. repeat split; auto.
Qed.

Lemma update_goal_distances_monotone (st st' : state) :
  update_goal_distances st = Ok st' ->
  nondecreasing (goal_distances st) ->
  nondecreasing (goal_distances st') /\
  hd_error (goal_distances st') = hd_error (goal_distances st).
Proof.
  intros H Hl. apply update_goal_distances_cases in H.
  destruct H as [->|[i1 [T1 [i2 [T2 [last [_ [_ [Hlast ->]]]]]]]]]; [auto|].
  apply py_index_neg1 in Hlast. destruct Hlast as [Hne Hlast]. split.
  - apply nondecreasing_snoc; [exact Hl|].
    intros last' Hl'. rewrite Hlast in Hl'. injection Hl' as <-.
    pose proof (norm_nonneg (edt (mat4_sub T1 T2))). to_R. lra.
  - destruct (goal_distances st); [contradiction|reflexivity].
Qed.

Lemma pass_to_next_goal_monotone (c : config) (inp : advance_in)
  (st st' : state) :
  snd (pass_to_next_goal c inp st) = Ok st' ->
  nondecreasing (goal_distances st) ->
  nondecreasing (goal_distances st') /\
  hd_error (goal_distances st') = hd_error (goal_distances st).
Proof.
  unfold pass_to_next_goal. cbn [snd]. intros H Hl.
  bind_inv H. apply update_anchors_frame in Ha.
  destruct Ha as [_ [_ Hgd]]. cbn [goal_distances set_goal_idx set_q] in Hgd.
  rewrite <- Hgd in *. now apply update_goal_distances_monotone.
Qed.

Lemma advances_monotone (c : config) (inputs : list advance_in)
  (st st' : state) :
  advances c inputs st = Ok st' ->
  nondecreasing (goal_distances st) ->
  nondecreasing (goal_distances st') /\
  hd_error (goal_distances st') = hd_error (goal_distances st).
Proof.
  revert st. induction inputs as [|inp rest IH]; intros st H Hl.
  - injection H as <-. auto.
  - cbn [advances] in H. bind_inv H.
    destruct (pass_to_next_goal_monotone c inp st a Ha Hl) as [Hl' Hh].
    destruct (IH a H Hl') as [Hl'' Hh'']. split; [exact Hl''|congruence].
Qed.

Lemma nondecreasing_single (x : R) : nondecreasing [x].
Proof.
  intros i j a b _ Hi Hj.
  destruct i as [|i]; [|destruct i; discriminate].
  destruct j as [|j]; [|destruct j; discriminate].
  simpl in Hi, Hj. injection Hi as <-. injection Hj as <-. lra.
Qed.

(** *** Along a run *)

Lemma cycle_monotone (c : config) (weights : list R)
  (env : cycle_env R image) (st st' : state) (s : status) :
  snd (cycle c weights env st) = Ok (s, st') ->
  nondecreasing (goal_distances st) ->
  nondecreasing (goal_distances st') /\
  hd_error (goal_distances st') = hd_error (goal_distances st).
Proof.
  unfold cycle. intros H Hl.
  destruct (finished c st) as [[|]|e]; [| |discriminate].
  { injection H as _ <-. auto. }
  destruct (processed_image env) as [img|]; [|injection H as _ <-; auto].
  destruct (odom env) as [T|]; [|injection H as _ <-; auto].
  destruct (correct c env img T st) as [[s1|s1]|e] eqn:Hc; [| |discriminate].
  - apply correct_goal_idx in Hc. destruct Hc as [_ [_ Hgd]].
    destruct (pass_to_next_goal c (advance env) s1) as [out res] eqn:Hp.
    cbn [snd] in H. bind_inv H. injection H as _ <-.
    assert (Hs : snd (pass_to_next_goal c (advance env) s1) = Ok a)
      by (rewrite Hp; exact Ha).
    rewrite <- Hgd in *.
    exact (pass_to_next_goal_monotone c (advance env) s1 a Hs Hl).
  - apply correct_goal_idx in Hc. destruct Hc as [_ [_ Hgd]].
    destruct (command c weights T s1) as [[v w]|e]; [|discriminate].
    injection H as _ <-. rewrite Hgd. auto.
Qed.

Lemma main_loop_monotone (c : config) (weights : list R)
  (envs : list (cycle_env R image)) (st : state) :
  nondecreasing (goal_distances st) ->
  match final (main_loop c weights envs st) with
  | Exited st' | ShutDown st' | Pending st' =>
    nondecreasing (goal_distances st') /\
    hd_error (goal_distances st') = hd_error (goal_distances st)
  | Raised _ => True
  end.
Proof.
  revert st. induction envs as [|env rest IH]; intros st Hl; [simpl; auto|].
  cbn [main_loop]. destruct (is_shutdown env); [simpl; auto|].
  pose proof (cycle_monotone c weights env st) as Hc.
  destruct (cycle c weights env st) as [out [[[|] st']|e]]; cbn [snd] in Hc;
    cbn [final prepend]; try exact I.
  - destruct (Hc st' Continue eq_refl Hl) as [Hl' Hh].
    specialize (IH st' Hl').
    destruct (final (main_loop c weights rest st')); auto;
      destruct IH as [IH1 IH2]; split; auto; congruence.
  - exact (Hc st' Break eq_refl Hl).
Qed.

Lemma fill_monotone (c : config) (inputs : list advance_in) (st : state) :
  nondecreasing (goal_distances st) ->
  match final (fill c inputs st) with
  | Exited st' | ShutDown st' | Pending st' =>
    nondecreasing (goal_distances st') /\
    hd_error (goal_distances st') = hd_error (goal_distances st)
  | Raised _ => True
  end.
Proof.
  revert st. induction inputs as [|inp rest IH]; intros st Hl.
  - cbn [fill]. destruct (goal_idx st =? 0)%Z; simpl; auto.
  - cbn [fill]. destruct (goal_idx st =? 0)%Z; [simpl; auto|].
    pose proof (pass_to_next_goal_monotone c inp st) as Hp.
    destruct (pass_to_next_goal c inp st) as [out [st'|e]]; cbn [snd] in Hp;
      cbn [final prepend]; [|exact I].
    destruct (Hp st' eq_refl Hl) as [Hl' Hh].
    specialize (IH st' Hl').
    destruct (final (fill c rest st')); auto;
      destruct IH as [IH1 IH2]; split; auto; congruence.
Qed.

Lemma run_monotone (c : config) (warm : list advance_in) (start_time : R)
  (envs : list (cycle_env R image)) :
  match final (run c warm start_time envs) with
  | Exited st | ShutDown st | Pending st =>
    nondecreasing (goal_distances st) /\
    hd_error (goal_distances st) = Some 0
  | Raised _ => True
  end.
Proof.
  unfold run. destruct (padded_weights c) as [weights|e]; [|exact I].
  pose proof (fill_monotone c warm (start c) (nondecreasing_single 0)) as Hf.
  destruct (fill c warm (start c)) as [out [st|st|st|e]]; cbn [final] in *;
    auto.
  destruct Hf as [Hl Hh].
  pose proof (main_loop_monotone c weights envs (set_timer_P st start_time) Hl)
    as Hm.
  cbn [final prepend].
  destruct (final (main_loop c weights envs (set_timer_P st start_time)));
    auto; destruct Hm as [Hm1 Hm2]; split; auto;
    rewrite Hm2; exact Hh.
Qed.

(** *** The advances return *)

Lemma settled_start (c : config) : settled c (start (image := image) c).
Proof.
  unfold settled; simpl.
  split; [apply repeat_length|]. split; [discriminate|].
  intros H. contradiction.
Qed.

Lemma update_factors_returns (c : config) (st : state) (A B : mat4 R) :
  0 <= initial_compensation_rotation_threshold c ->
  record_T_odomA_odomB_rotation st <> None ->
  record_T_odomA_odomB_translation st <> None ->
  exists f, update_factors c st A B = Ok f.
Proof.
  intros Hthr Hr Ht. unfold update_factors.
  destruct (record_T_odomA_odomB_rotation st) as [rr|]; [|contradiction].
  destruct (record_T_odomA_odomB_translation st) as [rt|]; [|contradiction].
  cbn [need bind].
  destruct (ltb (initial_compensation_rotation_threshold c) (fabs rr)) eqn:El.
  - apply ltb_R in El. unfold py_div.
    destruct (eqb rr zero) eqn:Ez.
    + apply eqb_R in Ez. subst rr. to_R. rewrite Rabs_R0 in El. lra.
    + cbn [bind]. eexists. reflexivity.
  - cbn [bind]. eexists. reflexivity.
Qed.

Lemma update_anchors_returns (c : config) (inp : advance_in) (st : state) :
  0 <= initial_compensation_rotation_threshold c ->
  (1 <= max_rps c)%nat ->
  settled c st ->
  exists st', update_anchors c inp st = Ok st' /\ settled c st'.
Proof.
  intros Hthr Hrps Hst. pose proof Hst as [Hlen [Hgd Hrec]].
  unfold update_anchors, q_r.
  destruct (py_index_in_range (q st) (Z.of_nat (along_path_radius c)))
    as [ea Ha]; [rewrite Hlen; unfold q_size; lia|].
  rewrite Ha. cbn [bind].
  destruct ea as [[imgA TA]|]; [|exists st; split; [reflexivity|exact Hst]].
  destruct (py_index_in_range (q st) (Z.of_nat (along_path_radius c) + 1))
    as [eb Hb]; [rewrite Hlen; unfold q_size; lia|].
  rewrite Hb. cbn [bind].
  destruct eb as [[imgB TB]|]; [|exists st; split; [reflexivity|exact Hst]].
  assert (Hf : exists f,
    match T_0_odomA st, T_0_odomB st with
    | Some A, Some B => update_factors c st A B
    | _, _ => Ok (initial_compensation_rotation_factor st,
                  initial_compensation_translation_factor st)
    end = Ok f).
  { destruct (T_0_odomA st) as [A|] eqn:EA; [|eexists; reflexivity].
    destruct (T_0_odomB st) as [B|]; [|eexists; reflexivity].
    destruct Hrec as [Hr Ht]; [discriminate|].
    now apply update_factors_returns. }
  destruct Hf as [f Hf]. rewrite Hf. cbn [bind].
  eexists. split; [reflexivity|].
  unfold settled; simpl. split; [exact Hlen|]. split; [exact Hgd|].
  intros _. split; discriminate.
Qed.

Lemma update_goal_distances_returns (c : config) (st : state) :
  (1 <= max_rps c)%nat ->
  settled c st ->
  exists st', update_goal_distances st = Ok st' /\ settled c st'.
Proof.
  intros Hrps Hst. pose proof Hst as [Hlen [Hgd Hrec]].
  unfold update_goal_distances.
  destruct (py_index_in_range (q st) (-2)) as [e2 H2];
    [rewrite Hlen; unfold q_size; lia|].
  rewrite H2. cbn [bind].
  destruct e2 as [[i2 T2]|]; [|exists st; split; [reflexivity|exact Hst]].
  destruct (py_index_in_range (q st) (-1)) as [e1 H1];
    [rewrite Hlen; unfold q_size; lia|].
  rewrite H1. cbn [bind].
  destruct e1 as [[i1 T1]|]; [|exists st; split; [reflexivity|exact Hst]].
  destruct (py_index_in_range (goal_distances st) (-1)) as [d Hd].
  { destruct (goal_distances st); [contradiction|simpl length; lia]. }
  rewrite Hd. cbn [bind]. eexists. split; [reflexivity|].
  unfold settled; simpl. split; [exact Hlen|]. split; [|exact Hrec].
  intros H. apply app_eq_nil in H. destruct H as [_ H']. discriminate.
Qed.

Lemma pass_to_next_goal_returns (c : config) (inp : advance_in) (st : state) :
  0 <= initial_compensation_rotation_threshold c ->
  (1 <= max_rps c)%nat ->
  settled c st ->
  exists st', snd (pass_to_next_goal c inp st) = Ok st' /\ settled c st'.
Proof.
  intros Hthr Hrps [Hlen [Hgd Hrec]]. unfold pass_to_next_goal. cbn [snd].
  match goal with |- context [update_anchors c inp ?s] => set (st1 := s) end.
  assert (H1 : settled c st1).
  { unfold settled; simpl. split; [now apply ListQueue_push_length|].
    split; [exact Hgd|exact Hrec]. }
  destruct (update_anchors_returns c inp st1 Hthr Hrps H1) as [st2 [E2 H2]].
  rewrite E2. cbn [bind].
  now apply update_goal_distances_returns.
Qed.

Lemma advances_return (c : config) (inputs : list advance_in) (st : state) :
  0 <= initial_compensation_rotation_threshold c ->
  (1 <= max_rps c)%nat ->
  settled c st ->
  exists st', advances c inputs st = Ok st'.
Proof.
  intros Hthr Hrps. revert st.
  induction inputs as [|inp rest IH]; intros st Hst.
  - exists st. reflexivity.
  - cbn [advances].
    destruct (pass_to_next_goal_returns c inp st Hthr Hrps Hst) as [st1 [E1 H1]].
    rewrite E1. cbn [bind]. now apply IH.
Qed.

(** C5.  The cumulative distances start at [[0.0]]; an advance either
    leaves them as they are or appends the previous last element plus the
    norm, which is not negative, of the translation delta between the two
    newest entries of the window; so after any number of advances over any
    recorded poses the sequence is non-decreasing and still starts with
    0, and so does the sequence any run of the controller ends with.
    (With a rotation threshold that is not negative and a lookahead of at
    least one goal, the advances do return.) *)
Theorem goal_distances_monotone (c : config) (inputs : list advance_in) :
  goal_distances (start (image := image) c) = [0] /\
  (forall inp st,
     match snd (pass_to_next_goal c inp st) with
     | Ok st' =>
       goal_distances st' = goal_distances st \/
       exists i1 T1 i2 T2 last,
         py_index (q st') (-1) = Ok (Some (i1, T1)) /\
         py_index (q st') (-2) = Ok (Some (i2, T2)) /\
         py_index (goal_distances st) (-1) = Ok last /\
         0 <= norm (edt (mat4_sub T1 T2)) /\
         goal_distances st'
         = goal_distances st ++ [last + norm (edt (mat4_sub T1 T2))]
     | Raise _ => True
     end) /\
  match advances c inputs (start c) with
  | Ok st => nondecreasing (goal_distances st) /\
             hd_error (goal_distances st) = Some 0
  | Raise _ => True
  end /\
  (0 <= initial_compensation_rotation_threshold c -> (1 <= max_rps c)%nat ->
   exists st, advances c inputs (start c) = Ok st) /\
  (forall warm start_time envs,
     match final (run c warm start_time envs) with
     | Exited st | ShutDown st | Pending st =>
       nondecreasing (goal_distances st) /\
       hd_error (goal_distances st) = Some 0
     | Raised _ => True
     end).
Proof.
  split; [reflexivity|]. split; [|split; [|split]].
  - intros inp st.
    destruct (snd (pass_to_next_goal c inp st)) as [st'|e] eqn:H; [|exact I].
    unfold pass_to_next_goal in H. cbn [snd] in H. bind_inv H.
    apply update_anchors_frame in Ha. destruct Ha as [_ [_ Hgd]].
    cbn [goal_distances set_goal_idx set_q] in Hgd.
    pose proof (update_goal_distances_frame _ _ H) as [_ [Hq _]].
    apply update_goal_distances_cases in H. rewrite Hgd, <- Hq in H.
    destruct H as [H|[i1 [T1 [i2 [T2 [last [H1 [H2 [H3 H4]]]]]]]]];
      [left; exact H|right].
    exists i1, T1, i2, T2, last. repeat split; auto. apply norm_nonneg.
  - destruct (advances c inputs (start c)) as [st|e] eqn:H; [|exact I].
    apply advances_monotone in H; [exact H|]. apply nondecreasing_single.
  - intros Hthr Hrps. apply advances_return; auto. apply settled_start.
  - intros warm start_time envs. apply run_monotone.
Qed.

End Reals.

Section RealExamples.
Local Open Scope R_scope.

(** The scores [0.3, 0.9, 0.5, 0.9]. *)
Lemma suppress_spec_witness :
  exists s out,
    second_highest s [0.3; 0.9; 0.5; 0.9] /\
    suppress [0.3; 0.9; 0.5; 0.9] = Ok out /\
    Forall2 (suppressed s) [0.3; 0.9; 0.5; 0.9] out.
Proof.
  apply (suppress_spec [0.3; 0.9; 0.5; 0.9]).
  exists 0.3, 0.9. simpl. repeat split; auto. lra.
Defined.

End RealExamples.

(** C4, as the spec states it, fails in binary64: on the advance of
    [mid_path] that reads waypoint 4, with update rate 0.1 and a recorded
    rotation of 0 (below the threshold 0.01), the update is performed and
    the rotation factor 1.3 comes out as 1.3000000000000003: the products
    [0.1 * 1.3] and [0.9 * 1.3] are rounded, and so is their sum. *)
Lemma factors_drift_binary64 :
  exists st' : state float nat,
    snd (pass_to_next_goal (E := world flat_matcher) slow_config next_waypoint
           mid_path) = Ok st' /\
    T_0_odomA (mid_path (F := float)) = Some (pose_xy zero zero) /\
    T_0_odomB (mid_path (F := float)) = Some (pose_xy one zero) /\
    record_T_odomA_odomB_rotation (mid_path (F := float)) = Some zero /\
    ltb (initial_compensation_rotation_threshold (slow_config (F := float)))
        (fabs zero) = false /\
    initial_compensation_rotation_factor (mid_path (F := float))
    = 0x1.4cccccccccccdp+0%float /\
    initial_compensation_rotation_factor st' = 0x1.4cccccccccccep+0%float /\
    eqb (initial_compensation_rotation_factor st')
        (initial_compensation_rotation_factor (mid_path (F := float)))
    = false.
Proof.
  eexists. split; [vm_compute; reflexivity|].
  repeat split; vm_compute; reflexivity.
Qed.

(** C4, amended.  On an anchor advance that performs the update of the
    correction factors (both [T_0_odomA] and [T_0_odomB] set, waypoints in
    the window slots [r] and [r+1]): when the recorded rotation between the
    anchors does not exceed the rotation threshold in magnitude, the
    rotation factor after the advance is the moving average with the old
    factor as its sample, [rate * old + (1 - rate) * old]; when the
    recorded translation does not exceed the translation threshold, the
    translation factor is [rate * old + (1 - rate) * old] likewise; with
    both below their thresholds the update of lines 97-102 returns, with
    these two values; and the advance itself returns, when the list of
    cumulative distances is not empty and the rotation sample does not
    divide by zero.  This holds in whatever arithmetic the operations are
    carried out; in exact arithmetic the moving average is the old
    factor itself, so that over the reals the factor is carried over
    unchanged. *)
Theorem factors_carried_over :
  (forall (F : Type) (SF : Scalar F) (image : Type) (E : External F image)
          (c : config F) (inp : advance_in F image) (st : state F image)
          (A B : mat4 F) (rr rt : F),
     T_0_odomA st = Some A -> T_0_odomB st = Some B ->
     record_T_odomA_odomB_rotation st = Some rr ->
     record_T_odomA_odomB_translation st = Some rt ->
     anchors_in_window c inp st ->
     (ltb (initial_compensation_rotation_threshold c) (fabs rr) = false ->
      ltb (initial_compensation_translation_threshold c) rt = false ->
      update_factors c st A B
      = Ok (ema (initial_compensation_rotation_update_rate c)
                (initial_compensation_rotation_factor st)
                (initial_compensation_rotation_factor st),
            ema (initial_compensation_translation_update_rate c)
                (initial_compensation_translation_factor st)
                (initial_compensation_translation_factor st))) /\
     (goal_distances st <> [] ->
      ltb (initial_compensation_rotation_threshold c) (fabs rr) = false
      \/ eqb rr zero = false ->
      exists st', snd (pass_to_next_goal c inp st) = Ok st') /\
     match snd (pass_to_next_goal c inp st) with
     | Ok st' =>
       (ltb (initial_compensation_rotation_threshold c) (fabs rr) = false ->
        initial_compensation_rotation_factor st'
        = ema (initial_compensation_rotation_update_rate c)
              (initial_compensation_rotation_factor st)
              (initial_compensation_rotation_factor st)) /\
       (ltb (initial_compensation_translation_threshold c) rt = false ->
        initial_compensation_translation_factor st'
        = ema (initial_compensation_translation_update_rate c)
              (initial_compensation_translation_factor st)
              (initial_compensation_translation_factor st))
     | Raise _ => True
     end) /\
  (forall (image : Type) (E : External R image)
          (c : config R) (inp : advance_in R image) (st : state R image)
          (A B : mat4 R) (rr rt : R),
     T_0_odomA st = Some A -> T_0_odomB st = Some B ->
     record_T_odomA_odomB_rotation st = Some rr ->
     record_T_odomA_odomB_translation st = Some rt ->
     (forall rate old : R, ema rate old old = old) /\
     match snd (pass_to_next_goal c inp st) with
     | Ok st' =>
       (Rabs rr <= initial_compensation_rotation_threshold c ->
        initial_compensation_rotation_factor st'
        = initial_compensation_rotation_factor st)%R /\
       (rt <= initial_compensation_translation_threshold c ->
        initial_compensation_translation_factor st'
        = initial_compensation_translation_factor st)%R
     | Raise _ => True
     end).
Proof.
  split.
  - intros F SF image E c inp st A B rr rt HA HB Hr Ht Hw.
    split; [|split].
    + intros El Et. now apply update_factors_below with (rr := rr) (rt := rt).
    + intros Hg Hdiv.
      now apply updating_advance_returns
        with (A := A) (B := B) (rr := rr) (rt := rt).
    + destruct (snd (pass_to_next_goal c inp st)) as [st'|e] eqn:H; [|exact I].
      apply (update_factors_sample c st A B rr rt _ _ Hr Ht).
      now apply pass_to_next_goal_factors with (inp := inp).
  - intros image E c inp st A B rr rt HA HB Hr Ht. split.
    + intros rate old. unfold ema. to_R. ring.
    + exact (proj1 (factors_exact c inp st A B rr rt HA HB Hr Ht)).
Qed.

(** The advance of [mid_path] that reads waypoint 4, on binary64: the
    recorded rotation 0 is below the threshold, and the rotation factor
    becomes the moving average of 1.3 with itself. *)
Lemma factors_carried_over_witness :
  (exists st',
     snd (pass_to_next_goal (E := world flat_matcher) slow_config
            next_waypoint (mid_path (F := float))) = Ok st') /\
  match snd (pass_to_next_goal (E := world flat_matcher) slow_config
               next_waypoint (mid_path (F := float))) with
  | Ok st' =>
    (ltb (initial_compensation_rotation_threshold (slow_config (F := float)))
         (fabs zero) = false ->
     initial_compensation_rotation_factor st'
     = ema (initial_compensation_rotation_update_rate slow_config)
           (initial_compensation_rotation_factor mid_path)
           (initial_compensation_rotation_factor mid_path)) /\
    (ltb (initial_compensation_translation_threshold (slow_config (F := float)))
         one = false ->
     initial_compensation_translation_factor st'
     = ema (initial_compensation_translation_update_rate slow_config)
           (initial_compensation_translation_factor mid_path)
           (initial_compensation_translation_factor mid_path))
  | Raise _ => True
  end.
Proof.
  assert (Hw : anchors_in_window slow_config next_waypoint
                 (mid_path (F := float))).
  { eexists. eexists. split; vm_compute; reflexivity. }
  destruct (proj1 factors_carried_over float _ nat (world flat_matcher)
              slow_config next_waypoint mid_path
              (pose_xy zero zero) (pose_xy one zero) zero one
              eq_refl eq_refl eq_refl eq_refl Hw) as [_ [Hret Hval]].
  split; [|exact Hval].
  apply Hret.
  - discriminate.
  - left. vm_compute. reflexivity.
Defined.

(* ------------------------------------------------------------------ *)
(** ** Over binary64 floats *)
(* ------------------------------------------------------------------ *)

Section Floats.
Context {image : Type} {E : External float image}.

Local Abbreviation state := (state float image).
Local Abbreviation config := (config float).
Local Abbreviation cycle_env := (cycle_env float image).


Lemma not_nan_eqb (x : float) : isnan x = false -> eqb x x = true.
Proof.
  simpl. unfold PrimFloat.is_nan.
  destruct (PrimFloat.eqb x x); [reflexivity|discriminate].
Qed.

(** ** Degenerate scans *)

Lemma np_maximum_same (x : float) : np_maximum x x = x.
Proof.
  unfold np_maximum.
  destruct (isnan x); [reflexivity|]. destruct (ltb x x); reflexivity.
Qed.

Lemma np_max_repeat (x : float) (n : nat) : np_max (x :: repeat x n) = Ok x.
Proof.
  simpl. f_equal. induction n as [|n IH]; [reflexivity|].
  simpl. now rewrite np_maximum_same.
Qed.

Lemma filter_repeat_same (x : float) (n : nat) :
  isnan x = false ->
  filter (fun v => negb (eqb v x)) (repeat x n) = [].
Proof.
  intros Hx. apply not_nan_eqb in Hx.
  induction n as [|n IH]; [reflexivity|].
  simpl filter. simpl in Hx. rewrite Hx. exact IH.
Qed.

(** Scores that are all one number: line 228 takes the maximum of an
    empty array, and the cycle raises. *)
Lemma suppress_all_equal (x : float) (n : nat) :
  isnan x = false -> suppress (repeat x (S n)) = Raise ValueError.
Proof.
  intros Hx. unfold suppress. cbn [repeat].
  rewrite np_max_repeat. cbn [bind].
  change (x :: repeat x n) with (repeat x (S n)).
  now rewrite filter_repeat_same.
Qed.

(** ** The command of a cycle *)






End Floats.

(** The literals on binary64: [1e-2] is the double nearest to 1/100. *)
Example lit_1em2_float : lit_1em2 = 0x1.47ae147ae147bp-7%float.
Proof. reflexivity. Qed.

Example lit_075_float : lit_075 = 0x1.8p-1%float.
Proof. reflexivity. Qed.

(** The recorded path of five waypoints, driven to its end: the goal
    indices 0 to 4 are reported in order, then the terminal marker, and
    [run] returns with the cumulative distances [0, 1, 2, 3, 4]. *)
Example drive_to_the_end :
  let t := run (E := world peaked_matcher) (F := float) test_config
               straight_path zero drive in
  passed_goals (writes t)
  = [Some 0; Some 1; Some 2; Some 3; Some 4; None]%Z /\
  length (commands (writes t)) = 1%nat /\
  match final t with
  | Exited st => goal_distances st = map float_of_Z [0; 1; 2; 3; 4]%Z
  | _ => False
  end.
Proof. vm_compute. repeat split. Qed.

(** Weights that are all zero: the weighted average is 0/0, and the
    steering law answers 0. *)
Example steering_zero_weights :
  steering_raw (E := world flat_matcher) test_config [zero; zero]
               (pose_xy zero zero) warmed
  = Ok (zero / zero)%sc /\
  steering (E := world flat_matcher) test_config [zero; zero]
           (pose_xy zero zero) warmed
  = Ok zero.
Proof. vm_compute. split; reflexivity. Qed.

(** A waypoint straight ahead has no lateral offset: the radius is
    infinite and its turn rate is 0; a waypoint at the robot itself gives
    0/0, and its turn rate is 0 as well. *)
Example turn_rate_no_offset :
  turn_rate test_config
            (turn_radius (E := world flat_matcher) test_config (one, zero))
  = zero /\
  turn_rate test_config
            (turn_radius (E := world flat_matcher) test_config (zero, zero))
  = zero (F := float).
Proof. vm_compute. split; reflexivity. Qed.



(** C7.  Scores that collapse to one value: with a matcher that finds
    every reference equally good, the first control cycle raises
    [ValueError] and writes no command.  Scores whose sum after the
    suppression is zero: the cycle goes on and commands, with the
    translation of the estimate [T_0_odomB] turned into NaN. *)
Theorem degenerate_scan_fails :
  final (test_run flat_matcher) = Raised ValueError /\
  commands (writes (test_run flat_matcher)) = [] /\
  suppress [one / two; one / two; - one]%sc
  = Ok [one / two; one / two; - one]%sc /\
  np_sum [one / two; one / two; - one]%sc = zero (F := float) /\
  map isnan (final_estimate (test_run cancelling_matcher))
  = [true; true; true] /\
  length (commands (writes (test_run cancelling_matcher))) = 2%nat.
Proof. vm_compute. repeat split. Qed.

(** A window at the end of the path, in the world of numbered images. *)
Lemma path_exhausted_exits_witness :
  main_loop (E := world flat_matcher) test_config []
            [at_origin (of_Z 1); at_origin (of_Z 2)] (exhausted (F := float))
  = Trace [PassedGoal None] (Exited exhausted).
Proof.
  apply (path_exhausted_exits (E := world flat_matcher) test_config []
           (at_origin (of_Z 1)) [at_origin (of_Z 2)] exhausted
           (4%nat, pose_xy (of_Z 4) zero));
    reflexivity.
Defined.

End ControllerSpec.

(* ================================================================== *)
(** * Further properties of the actuator *)
(* ================================================================== *)

Module AckermannExtSpec.
Import Ackermann AckermannExt.
Local Open Scope R_scope.

(** ** Rotations *)

Lemma dot_mm_assoc (a b c : mat3) :
  dot_mm (dot_mm a b) c = dot_mm a (dot_mm b c).
Proof. unfold dot_mm; simpl. f_equal; ring. Qed.

Lemma transpose3_dot_mm (a b : mat3) :
  transpose3 (dot_mm a b) = dot_mm (transpose3 b) (transpose3 a).
Proof. unfold transpose3, dot_mm; simpl. f_equal; ring. Qed.

Lemma dot_mm_identity_l (a : mat3) : dot_mm identity3 a = a.
Proof. destruct a. unfold dot_mm, identity3; simpl. f_equal; ring. Qed.

Lemma cos2_sin2 (x : R) : cos x * cos x + sin x * sin x = 1.
Proof. pose proof (sin2_cos2 x) as H. unfold Rsqr in H. lra. Qed.

Lemma Rz_orthogonal (theta : R) : orthogonal (Rz theta).
Proof.
  unfold orthogonal, dot_mm, transpose3, Rz, identity3; simpl.
  pose proof (cos2_sin2 theta).
  f_equal; try ring; try lra.
Qed.

Lemma Rz_plus (a b : R) : dot_mm (Rz b) (Rz a) = Rz (a + b).
Proof.
  unfold dot_mm, Rz; simpl. rewrite cos_plus, sin_plus.
  f_equal; ring.
Qed.

Lemma sqnorm_Rz (theta : R) (v : vec3) :
  sqnorm (dot_mv (Rz theta) v) = sqnorm v.
Proof.
  unfold sqnorm, dot_mv, Rz; simpl.
  pose proof (cos2_sin2 theta) as H.
  replace ((cos theta * vx v + - sin theta * vy v + 0 * vz v)
           * (cos theta * vx v + - sin theta * vy v + 0 * vz v)
           + (sin theta * vx v + cos theta * vy v + 0 * vz v)
             * (sin theta * vx v + cos theta * vy v + 0 * vz v)
           + (0 * vx v + 0 * vy v + 1 * vz v)
             * (0 * vx v + 0 * vy v + 1 * vz v))
    with ((cos theta * cos theta + sin theta * sin theta)
          * (vx v * vx v + vy v * vy v) + vz v * vz v) by ring.
  rewrite H. ring.
Qed.

(** Outside the radius 0 a step returns: the straight one above 1e9, the
    one on the circle otherwise. *)
Lemma calc_and_output_odom_cases (odom : mat4) (v dt : R) (rad : radius) :
  rad <> Rfin 0 ->
  (gt_1e9 rad = true /\
   calc_and_output_odom odom v rad dt
   = Ok (set_t odom (vadd (edt odom) (dot_mv (edR odom) (V3 (v * dt) 0 0)))))
  \/
  (exists R, rad = Rfin R /\ ~ R > 1e9 /\ R <> 0 /\
   calc_and_output_odom odom v rad dt
   = Ok (let PR := dot_mv (edR odom) (V3 0 R 0) in
         let odom1 := set_R odom (dot_mm (Rz (v * dt / R)) (edR odom)) in
         set_t odom1
           (vadd (edt odom1)
                 (vadd PR (vneg (dot_mv (Rz (v * dt / R)) PR)))))).
Proof.
  intros H0. destruct (gt_1e9 rad) eqn:Hg.
  - left. split; [reflexivity|].
    now apply AckermannSpec.calc_and_output_odom_straight.
  - right. destruct rad as [|R]; [discriminate|]. exists R.
    assert (HR : ~ R > 1e9).
    { simpl in Hg. destruct (Rlt_dec 1e9 R); [discriminate|assumption]. }
    assert (HR0 : R <> 0) by (intros ->; now apply H0).
    repeat split; try assumption.
    now apply AckermannSpec.calc_and_output_odom_turn.
Qed.

(** X1.  Odometry integration keeps the rotation of the pose a rotation:
    when the rows of [odom[:3, :3]] are orthonormal before a step, the step
    returns and they are orthonormal after it, for every velocity, time
    step and radius other than 0 (where [dist / R] divides by zero). *)
Theorem odom_rotation_stays_orthogonal (odom : mat4) (v dt : R)
  (rad : radius) :
  orthogonal (edR odom) ->
  rad <> Rfin 0 ->
  exists odom',
    calc_and_output_odom odom v rad dt = Ok odom' /\
    orthogonal (edR odom').
Proof.
  intros H H0.
  destruct (calc_and_output_odom_cases odom v dt rad H0)
    as [[_ E] | [R [-> [_ [_ E]]]]];
    rewrite E; eexists; (split; [reflexivity|]).
  - exact H.
  - cbv zeta. rewrite AckermannSpec.edR_set_t, AckermannSpec.edR_set_R.
    unfold orthogonal in *.
    rewrite transpose3_dot_mm, dot_mm_assoc.
    rewrite <- (dot_mm_assoc (edR odom)), H, dot_mm_identity_l.
    apply Rz_orthogonal.
Qed.

Lemma identity3_orthogonal : orthogonal identity3.
Proof. unfold orthogonal, dot_mm, transpose3, identity3; simpl. f_equal; ring. Qed.

(** The initial pose [np.eye(4)], turned at radius 2. *)
Lemma odom_rotation_stays_orthogonal_witness :
  exists odom',
    calc_and_output_odom eye4 1 (Rfin 2) 1 = Ok odom' /\
    orthogonal (edR odom').
Proof.
  apply (odom_rotation_stays_orthogonal eye4 1 1 (Rfin 2)).
  - exact identity3_orthogonal.
  - intros H. injection H as H. lra.
Defined.

(** X2.  While turning, the robot stays on its circle: for a radius that
    is not 0 and not above 1e9, the step returns, and the distance of the
    position from the instantaneous centre of rotation is the same after
    it as before it. *)
Theorem odom_turn_keeps_distance_to_centre (odom : mat4) (v dt R : R) :
  ~ R > 1e9 -> R <> 0 ->
  exists odom',
    calc_and_output_odom odom v (Rfin R) dt = Ok odom' /\
    sqnorm (vsub (edt odom') (centre odom R))
    = sqnorm (vsub (edt odom) (centre odom R)).
Proof.
  intros HR H0.
  rewrite (AckermannSpec.calc_and_output_odom_turn odom v dt R HR H0).
  eexists. split; [reflexivity|]. cbv zeta.
  rewrite AckermannSpec.edt_set_t, AckermannSpec.edt_set_R.
  unfold centre.
  set (PR := dot_mv (edR odom) (V3 0 R 0)).
  pose proof (sqnorm_Rz (v * dt / R) PR) as Hn.
  unfold sqnorm, vsub, vadd, vneg in *; simpl in *.
  set (q := dot_mv (Rz (v * dt / R)) PR) in *.
  replace (vx (edt odom) + (vx PR + - vx q) - (vx (edt odom) + vx PR))
    with (- vx q) by ring.
  replace (vy (edt odom) + (vy PR + - vy q) - (vy (edt odom) + vy PR))
    with (- vy q) by ring.
  replace (vz (edt odom) + (vz PR + - vz q) - (vz (edt odom) + vz PR))
    with (- vz q) by ring.
  replace (vx (edt odom) - (vx (edt odom) + vx PR)) with (- vx PR) by ring.
  replace (vy (edt odom) - (vy (edt odom) + vy PR)) with (- vy PR) by ring.
  replace (vz (edt odom) - (vz (edt odom) + vz PR)) with (- vz PR) by ring.
  lra.
Qed.

Lemma odom_turn_keeps_distance_to_centre_witness :
  exists odom',
    calc_and_output_odom eye4 1 (Rfin 2) 1 = Ok odom' /\
    sqnorm (vsub (edt odom') (centre eye4 2))
    = sqnorm (vsub (edt eye4) (centre eye4 2)).
Proof. apply (odom_turn_keeps_distance_to_centre eye4 1 1 2); lra. Defined.

Lemma dot_mv_dot_mm (a b : mat3) (v : vec3) :
  dot_mv (dot_mm a b) v = dot_mv a (dot_mv b v).
Proof. unfold dot_mv, dot_mm; simpl. f_equal; ring. Qed.

Lemma set_t_set_t (t : mat4) (u v : vec3) : set_t (set_t t u) v = set_t t v.
Proof. reflexivity. Qed.

Lemma set_R_set_t_set_R (t : mat4) (m m' : mat3) (u : vec3) :
  set_R (set_t (set_R t m) u) m' = set_t (set_R t m') u.
Proof. reflexivity. Qed.

Lemma vadd_straight (t a b : vec3) (d1 d2 : R) :
  vx b = vx a * d2 -> vy b = vy a * d2 -> vz b = vz a * d2 ->
  vadd (vadd t (V3 (vx a * d1) (vy a * d1) (vz a * d1))) b
  = vadd t (V3 (vx a * (d1 + d2)) (vy a * (d1 + d2)) (vz a * (d1 + d2))).
Proof.
  intros H1 H2 H3. unfold vadd; simpl. rewrite H1, H2, H3. f_equal; ring.
Qed.

Lemma vadd_telescope (t p q r : vec3) :
  vadd (vadd t (vadd p (vneg q))) (vadd q (vneg r))
  = vadd t (vadd p (vneg r)).
Proof. unfold vadd, vneg; simpl. f_equal; ring. Qed.

Lemma dot_mv_e1 (m : mat3) (d : R) :
  dot_mv m (V3 d 0 0) = V3 (a00 m * d) (a10 m * d) (a20 m * d).
Proof. unfold dot_mv; simpl. f_equal; ring. Qed.

(** X3.  Steps compose: integrating the same velocity and radius (not 0)
    over [dt1] and then over [dt2] returns the pose that one step over
    [dt1 + dt2] returns. *)
Theorem odom_steps_compose (odom : mat4) (v dt1 dt2 : R) (rad : radius) :
  rad <> Rfin 0 ->
  exists odom1 odom2,
    calc_and_output_odom odom v rad dt1 = Ok odom1 /\
    calc_and_output_odom odom1 v rad dt2 = Ok odom2 /\
    calc_and_output_odom odom v rad (dt1 + dt2) = Ok odom2.
Proof.
  intros H0.
  destruct (calc_and_output_odom_cases odom v dt1 rad H0)
    as [[Hg E1] | [R [-> [HR [HR0 E1]]]]].
  - rewrite E1. eexists. eexists. split; [reflexivity|].
    rewrite !(AckermannSpec.calc_and_output_odom_straight _ _ _ _ Hg).
    split; [reflexivity|]. f_equal.
    rewrite AckermannSpec.edR_set_t, AckermannSpec.edt_set_t, set_t_set_t.
    f_equal. rewrite !dot_mv_e1.
    set (a := V3 (a00 (edR odom)) (a10 (edR odom)) (a20 (edR odom))).
    change (vadd (edt odom)
              (V3 (vx a * (v * (dt1 + dt2))) (vy a * (v * (dt1 + dt2)))
                  (vz a * (v * (dt1 + dt2))))
            = vadd (vadd (edt odom)
                      (V3 (vx a * (v * dt1)) (vy a * (v * dt1))
                          (vz a * (v * dt1))))
                   (V3 (vx a * (v * dt2)) (vy a * (v * dt2))
                       (vz a * (v * dt2)))).
    rewrite (vadd_straight (edt odom) a _ (v * dt1) (v * dt2))
      by reflexivity.
    f_equal. f_equal; ring.
  - rewrite E1. eexists. eexists. split; [reflexivity|].
    rewrite !(AckermannSpec.calc_and_output_odom_turn _ _ _ _ HR HR0).
    split; [reflexivity|]. f_equal. cbv zeta.
    repeat first
      [ rewrite AckermannSpec.edR_set_t | rewrite AckermannSpec.edt_set_t
      | rewrite AckermannSpec.edR_set_R | rewrite AckermannSpec.edt_set_R ].
    replace (v * (dt1 + dt2) / R) with (v * dt1 / R + v * dt2 / R)
      by (unfold Rdiv; ring).
    rewrite <- Rz_plus.
    generalize (Rz (v * dt1 / R)) (Rz (v * dt2 / R)). intros A B.
    rewrite set_R_set_t_set_R, set_t_set_t.
    rewrite !dot_mm_assoc, !dot_mv_dot_mm.
    rewrite vadd_telescope. reflexivity.
Qed.

(** A quarter second and three quarters of a second at radius 2. *)
Lemma odom_steps_compose_witness :
  exists odom1 odom2,
    calc_and_output_odom eye4 1 (Rfin 2) (1 / 4) = Ok odom1 /\
    calc_and_output_odom odom1 1 (Rfin 2) (3 / 4) = Ok odom2 /\
    calc_and_output_odom eye4 1 (Rfin 2) (1 / 4 + 3 / 4) = Ok odom2.
Proof.
  apply (odom_steps_compose eye4 1 (1 / 4) (3 / 4) (Rfin 2)).
  intros H. injection H as H. lra.
Defined.

(** ** The wheel setpoints *)

Lemma np_sign_unit (x : R) : x <> 0 -> np_sign x = 1 \/ np_sign x = -1.
Proof.
  intros Hx. unfold np_sign.
  destruct (Rlt_dec x 0); [right; reflexivity|].
  destruct (Rlt_dec 0 x); [left; reflexivity|]. lra.
Qed.

Lemma R_min_abs_pos (c : config) :
  0 < wheelbase c -> 0 <= track c ->
  0 < max_steering_angle c < PI / 2 ->
  0 < wheelbase c / tan (max_steering_angle c) /\
  wheelbase c / tan (max_steering_angle c) <= R_min_abs c.
Proof.
  intros Hd Hl [Hm1 Hm2].
  pose proof (tan_gt_0 _ Hm1 Hm2) as Ht.
  split; [apply Rdiv_lt_0_compat; assumption|].
  unfold R_min_abs. lra.
Qed.

(** The angle of a wheel whose turning circle has radius [y], at least
    [d / tan m]. *)
Lemma atan_wheel_bound (d m y : R) :
  0 < d -> 0 < m < PI / 2 -> d / tan m <= y ->
  0 < atan (d / y) <= m.
Proof.
  intros Hd [Hm1 Hm2] Hy.
  pose proof (tan_gt_0 _ Hm1 Hm2) as Ht.
  assert (H0 : 0 < d / tan m) by (apply Rdiv_lt_0_compat; assumption).
  assert (Hypos : 0 < y) by lra.
  assert (Hq : 0 < d / y) by (apply Rdiv_lt_0_compat; assumption).
  assert (Hle : d / y <= tan m).
  { apply Rmult_le_reg_r with y; [exact Hypos|].
    unfold Rdiv at 1. rewrite Rmult_assoc, Rinv_l, Rmult_1_r by lra.
    apply Rmult_le_reg_r with (/ tan m); [now apply Rinv_0_lt_compat|].
    rewrite (Rmult_comm (tan m)), Rmult_assoc, Rinv_r, Rmult_1_r by lra.
    exact Hy. }
  split.
  - rewrite <- atan_0. apply atan_increasing. exact Hq.
  - rewrite <- (atan_tan m) by lra.
    destruct Hle as [Hlt|Heq].
    + left. now apply atan_increasing.
    + right. now rewrite Heq.
Qed.

Lemma wheel_setpoints_bounded (c : config) (v x : R) :
  0 < wheelbase c -> 0 <= track c ->
  0 < max_steering_angle c < PI / 2 ->
  R_min_abs c <= Rabs x ->
  Rabs (phi_l (wheel_setpoints c v (Rfin x))) <= max_steering_angle c /\
  Rabs (phi_r (wheel_setpoints c v (Rfin x))) <= max_steering_angle c.
Proof.
  intros Hd Hl Hm Hx.
  destruct (R_min_abs_pos c Hd Hl Hm) as [H0 H1].
  unfold R_min_abs in *.
  set (d := wheelbase c) in *. set (m := max_steering_angle c) in *.
  set (l := track c) in *.
  unfold wheel_setpoints; cbn [phi_l phi_r rad_plus rad_minus div_rad].
  fold d l.
  destruct (Rcase_abs x) as [Hneg|Hpos].
  - rewrite (Rabs_left x Hneg) in Hx.
    assert (Hl' : d / tan m <= - (x + l / 2)) by lra.
    assert (Hr' : d / tan m <= - (x - l / 2)) by lra.
    pose proof (atan_wheel_bound d m _ Hd Hm Hl') as [Al1 Al2].
    pose proof (atan_wheel_bound d m _ Hd Hm Hr') as [Ar1 Ar2].
    replace (d / (x + l / 2)) with (- (d / - (x + l / 2)))
      by (field; lra).
    replace (d / (x - l / 2)) with (- (d / - (x - l / 2)))
      by (field; lra).
    rewrite !atan_opp, !Rabs_Ropp, !Rabs_pos_eq by lra. split; assumption.
  - rewrite (Rabs_right x Hpos) in Hx.
    assert (Hl' : d / tan m <= x + l / 2) by lra.
    assert (Hr' : d / tan m <= x - l / 2) by lra.
    pose proof (atan_wheel_bound d m _ Hd Hm Hl') as [Al1 Al2].
    pose proof (atan_wheel_bound d m _ Hd Hm Hr') as [Ar1 Ar2].
    rewrite !Rabs_pos_eq by lra. split; assumption.
Qed.

(** The radius that is used is never inside the minimum turning circle,
    unless the sign factor of the command is zero. *)
Lemma clamp_R_outside (rad : radius) (R_min : R) :
  match clamp_R rad R_min with
  | Rinf => True
  | Rfin x => Rabs R_min <= Rabs x
  end.
Proof.
  unfold clamp_R.
  destruct rad as [|y]; simpl; [exact I|].
  destruct (Rlt_dec (Rabs y) (Rabs R_min)); lra.
Qed.

Lemma command_R_min_abs (c : config) (cmd : command) :
  0 <= R_min_abs c ->
  match cmd with
  | Vw v w => v <> - 1e-3 /\ w <> - 1e-3
  | Vphi v phi => v <> - 1e-3 /\ phi <> - 1e-3
  end ->
  Rabs (command_R_min c cmd) = R_min_abs c.
Proof.
  intros HR H.
  assert (Hs : forall a b, a <> - 1e-3 -> b <> - 1e-3 ->
    Rabs (np_sign (a + 1e-3) * np_sign (b + 1e-3) * R_min_abs c)
    = R_min_abs c).
  { intros a b Ha Hb.
    destruct (np_sign_unit (a + 1e-3)) as [Ea | Ea]; [lra| |];
      (destruct (np_sign_unit (b + 1e-3)) as [Eb | Eb]; [lra| |]);
      rewrite Ea, Eb;
      match goal with
      | |- Rabs ?e = _ =>
          first [ replace e with (R_min_abs c) by ring
                | replace e with (- R_min_abs c) by ring; rewrite Rabs_Ropp ]
      end; apply Rabs_pos_eq; exact HR. }
  destruct cmd as [v w|v phi]; destruct H as [Hv Hw]; simpl; now apply Hs.
Qed.

(** X4.  The steering angles handed to the motors never exceed the
    maximum steering angle: for a vehicle with positive wheelbase,
    non-negative track and a maximum steering angle strictly between 0 and
    pi/2, every ['vw'] or ['vphi'] command whose velocity and turn argument
    differ from [-1e-3] (and, for ['vphi'], whose angle has a tangent that
    is defined and not 0) yields [|phi_l| <= max_phi] and
    [|phi_r| <= max_phi]. *)
Theorem wheel_angles_bounded (c : config) (cmd : command) :
  0 < wheelbase c -> 0 <= track c ->
  0 < max_steering_angle c < PI / 2 ->
  match cmd with
  | Vw v w => v <> - 1e-3 /\ w <> - 1e-3
  | Vphi v phi =>
      v <> - 1e-3 /\ phi <> - 1e-3 /\ cos phi <> 0 /\ sin phi <> 0
  end ->
  Rabs (phi_l (snd (process_command c cmd))) <= max_steering_angle c /\
  Rabs (phi_r (snd (process_command c cmd))) <= max_steering_angle c.
Proof.
  intros Hd Hl Hm Hcmd.
  destruct (R_min_abs_pos c Hd Hl Hm) as [H0 H1].
  assert (HR : 0 <= R_min_abs c) by lra.
  assert (Hcmd' : match cmd with
                  | Vw v w => v <> - 1e-3 /\ w <> - 1e-3
                  | Vphi v phi => v <> - 1e-3 /\ phi <> - 1e-3
                  end).
  { destruct cmd as [v w|v phi]; [exact Hcmd|].
    destruct Hcmd as [Hv [Hp _]]. now split. }
  pose proof (command_R_min_abs c cmd HR Hcmd') as Habs.
  unfold process_command. cbn [snd].
  pose proof (clamp_R_outside (command_R c cmd) (command_R_min c cmd)) as Hc.
  destruct (clamp_R (command_R c cmd) (command_R_min c cmd)) as [|x].
  - unfold wheel_setpoints; simpl. rewrite atan_0, Rabs_R0.
    destruct Hm. split; lra.
  - rewrite Habs in Hc. now apply wheel_setpoints_bounded.
Qed.

Lemma scenario_well_formed :
  0 < wheelbase scenario /\ 0 <= track scenario /\
  0 < max_steering_angle scenario < PI / 2.
Proof.
  simpl. pose proof PI2_3_2. repeat split; lra.
Qed.

(** The scenario vehicle, commanded to turn far tighter than it can. *)
Lemma wheel_angles_bounded_witness :
  Rabs (phi_l (snd (process_command scenario (Vw 1 2)))) <= 0.6 /\
  Rabs (phi_r (snd (process_command scenario (Vw 1 2)))) <= 0.6.
Proof.
  apply (wheel_angles_bounded scenario (Vw 1 2));
    try apply scenario_well_formed.
  split; lra.
Defined.

(** ** The sign of the radius *)

Lemma np_sign_pos (x : R) : 0 < x -> np_sign x = 1.
Proof.
  intros Hx. unfold np_sign.
  destruct (Rlt_dec x 0); [lra|]. destruct (Rlt_dec 0 x); [reflexivity|lra].
Qed.

Lemma np_sign_neg (x : R) : x < 0 -> np_sign x = -1.
Proof.
  intros Hx. unfold np_sign. destruct (Rlt_dec x 0); [reflexivity|lra].
Qed.


Lemma clamp_R_cases (x R_min : R) :
  (Rabs x < Rabs R_min /\ clamp_R (Rfin x) R_min = Rfin R_min) \/
  (~ Rabs x < Rabs R_min /\ clamp_R (Rfin x) R_min = Rfin x).
Proof.
  unfold clamp_R; simpl.
  destruct (Rlt_dec (Rabs x) (Rabs R_min)); [left|right]; split;
    try assumption; reflexivity.
Qed.




(** X6.  A ['vphi'] command in reverse does not keep its turning direction
    when it is clamped: with [v < -1e-3], a steering angle [phi >= 1e-3]
    whose radius [d / tan(phi)] is positive but inside the minimum turning
    circle, the radius that is used is [- R_min_abs], of the opposite
    sign. *)
Theorem vphi_reverse_clamp_flips (c : config) (v phi : R) :
  v < - 1e-3 -> 1e-3 <= phi ->
  0 < wheelbase c / tan phi < R_min_abs c ->
  fst (process_command c (Vphi v phi)) = Rfin (- R_min_abs c).
Proof.
  intros Hv Hphi [H0 H1].
  unfold process_command; cbn [fst command_R command_R_min].
  destruct (Rlt_dec (Rabs phi) 1e-3) as [Hlt|_].
  { rewrite Rabs_pos_eq in Hlt; lra. }
  rewrite (np_sign_neg (v + 1e-3)), (np_sign_pos (phi + 1e-3)) by lra.
  replace (-1 * 1 * R_min_abs c) with (- R_min_abs c) by ring.
  destruct (clamp_R_cases (wheelbase c / tan phi) (- R_min_abs c))
    as [[_ ->] | [Hc _]]; [reflexivity|].
  exfalso. apply Hc.
  rewrite Rabs_Ropp, !Rabs_pos_eq; lra.
Qed.

Lemma tan_06_lt_tan_1 : 0 < tan 0.6 < tan 1.
Proof.
  pose proof PI2_3_2. split.
  - apply tan_gt_0; lra.
  - apply tan_increasing; lra.
Qed.

(** The scenario vehicle reversing with a steering angle of one radian. *)
Lemma vphi_reverse_clamp_flips_witness :
  fst (process_command scenario (Vphi (-1) 1)) = Rfin (- R_min_abs scenario).
Proof.
  apply (vphi_reverse_clamp_flips scenario (-1) 1); try lra.
  destruct tan_06_lt_tan_1 as [H0 H1].
  unfold R_min_abs; cbn [wheelbase track max_steering_angle scenario].
  assert (Hi : / tan 1 < / tan 0.6) by (apply Rinv_lt_contravar; nra).
  assert (Hp : 0 < / tan 1) by (apply Rinv_0_lt_compat; lra).
  unfold Rdiv. split; nra.
Defined.

(** ** The motor services *)

Lemma in_on (m m' : motor) (r : bool * list call) (cl : call) :
  In (m', cl) (on m r) <-> m' = m /\ In cl (snd r).
Proof.
  unfold on. rewrite in_map_iff. split.
  - intros [c0 [Heq Hin]]. inversion Heq; subst. now split.
  - intros [-> Hin]. now exists cl.
Qed.

Lemma set_velocity_calls (ap av : option bool) (vel x : radius) :
  In (SetVelocity, x) (snd (set_velocity ap av vel))
  <-> x = vel /\ ap = Some true.
Proof.
  unfold set_velocity, set_position.
  destruct ap as [[|]|]; simpl; split;
    try (intros [H|[H|[]]]; inversion H; now split);
    try (intros [H|[]]; inversion H);
    try (intros [-> H]; try discriminate H; right; left; reflexivity).
Qed.

(** X7.  A rear motor is sent a velocity exactly when its position
    service accepted [INFINITY] just before: [call_services] makes a
    [set_velocity] call on a motor if and only if it is a rear motor whose
    [set_position(INFINITY)] reported success, and the value sent is
    [w_rear]; the steering motors are never sent a velocity. *)
Theorem velocity_sent_iff_position_accepted
  (a : answers) (phi_l phi_r w_rear : R) (m : motor) (x : radius) :
  In (m, (SetVelocity, x)) (call_services a phi_l phi_r w_rear)
  <-> x = Rfin w_rear /\ rear_position a m = Some true.
Proof.
  unfold call_services. rewrite !in_app_iff, !in_on, !set_velocity_calls.
  unfold set_position; cbn [snd].
  split.
  - intros [[_ H] | [[_ H] | [[-> H] | [-> H]]]].
    + destruct H as [H|[]]. inversion H.
    + destruct H as [H|[]]. inversion H.
    + exact H.
    + exact H.
  - intros [-> H]. destruct m; simpl in H; try discriminate.
    + right; right; left. now repeat split.
    + right; right; right. now repeat split.
Qed.

End AckermannExtSpec.
(* ================================================================== *)
(** * Properties of the geometry classes *)
(* ================================================================== *)

Module GeometryExtSpec.
Import GeometryExt.
Local Open Scope R_scope.

Local Abbreviation Ok := Controller.Ok.
Local Abbreviation Raise := Controller.Raise.
Local Abbreviation ValueError := Controller.ValueError.
Local Abbreviation TypeError := Controller.TypeError.

(** ** Norms *)

Lemma Quat_sq_nonneg (a : Quat) : 0 <= Quat_sq a.
Proof. unfold Quat_sq. nra. Qed.

Lemma Quat_norm_sq (a : Quat) : Quat_norm a ^ 2 = Quat_sq a.
Proof.
  unfold Quat_norm. fold (Quat_sq a).
  rewrite <- Rsqr_pow2. apply Rsqr_sqrt, Quat_sq_nonneg.
Qed.

Lemma Quat_norm_nonneg (a : Quat) : 0 <= Quat_norm a.
Proof. apply sqrt_pos. Qed.

Lemma Quat_sq_zero (a : Quat) : Quat_sq a = 0 -> a = Quat_zero.
Proof.
  destruct a as [a b c d]. unfold Quat_sq, Quat_zero; simpl. intros H.
  assert (a = 0) by nra. assert (b = 0) by nra.
  assert (c = 0) by nra. assert (d = 0) by nra.
  subst. reflexivity.
Qed.

Lemma Quat_norm_zero_iff (a : Quat) : Quat_norm a = 0 <-> a = Quat_zero.
Proof.
  split.
  - intros H. apply Quat_sq_zero. rewrite <- Quat_norm_sq, H. ring.
  - intros ->. unfold Quat_norm, Quat_zero; cbn [qx qy qz qw].
    replace (0 ^ 2 + 0 ^ 2 + 0 ^ 2 + 0 ^ 2) with 0 by ring. apply sqrt_0.
Qed.

Lemma Quat_norm_of_sq_1 (a : Quat) : Quat_sq a = 1 -> Quat_norm a = 1.
Proof.
  intros H. unfold Quat_norm. fold (Quat_sq a). rewrite H. apply sqrt_1.
Qed.

(** What [normalize] returns. *)
Lemma Quat_normalize_cases (a : Quat) :
  (a = Quat_zero /\ Quat_normalize a = Raise ValueError) \/
  (a <> Quat_zero /\ 0 < Quat_norm a /\
   exists n, Quat_normalize a = Ok n /\ Quat_sq n = 1 /\
     qx a = Quat_norm a * qx n /\ qy a = Quat_norm a * qy n /\
     qz a = Quat_norm a * qz n /\ qw a = Quat_norm a * qw n).
Proof.
  unfold Quat_normalize, Quat_truediv.
  destruct (Req_dec_T (Quat_norm a) 0) as [H0|H0].
  - left. split; [now apply Quat_norm_zero_iff | reflexivity].
  - right. pose proof (Quat_norm_nonneg a) as Hn.
    pose proof (Quat_norm_sq a) as Hs.
    split; [intros ->; apply H0; now apply Quat_norm_zero_iff|].
    split; [lra|].
    eexists; split; [reflexivity|].
    unfold Quat_sq in *; cbn [qx qy qz qw].
    set (k := Quat_norm a) in *.
    repeat split; try (field; exact H0).
    replace ((qx a / k) ^ 2 + (qy a / k) ^ 2 + (qz a / k) ^ 2 + (qw a / k) ^ 2)
      with ((qx a ^ 2 + qy a ^ 2 + qz a ^ 2 + qw a ^ 2) / k ^ 2)
      by (field; exact H0).
    rewrite <- Hs. field. exact H0.
Qed.

(** What [inverse] returns. *)
Lemma Quat_inverse_cases (a : Quat) :
  (a = Quat_zero /\ Quat_inverse a = Raise ValueError) \/
  (a <> Quat_zero /\ 0 < Quat_sq a /\
   Quat_inverse a = Ok (mkQuat (- qx a / Quat_sq a) (- qy a / Quat_sq a)
                               (- qz a / Quat_sq a) (qw a / Quat_sq a))).
Proof.
  unfold Quat_inverse, Quat_truediv. rewrite Quat_norm_sq.
  pose proof (Quat_sq_nonneg a) as Hn.
  destruct (Req_dec_T (Quat_sq a) 0) as [H0|H0].
  - left. split; [now apply Quat_sq_zero | reflexivity].
  - right. split.
    + intros ->. apply H0. unfold Quat_sq, Quat_zero; simpl. ring.
    + split; [lra | reflexivity].
Qed.

Lemma Quat_inverse_unit (n : Quat) :
  Quat_sq n = 1 -> Quat_inverse n = Ok (Quat_conjugate n).
Proof.
  intros H. destruct (Quat_inverse_cases n) as [[-> _] | [_ [_ ->]]].
  - unfold Quat_sq, Quat_zero in H; simpl in H. lra.
  - rewrite H. unfold Quat_conjugate. f_equal. f_equal; field.
Qed.

Lemma Quat_rotate_cases (a : Quat) (v : Vec3) :
  (a = Quat_zero /\ Quat_rotate a v = Raise ValueError) \/
  (a <> Quat_zero /\
   exists n, Quat_normalize a = Ok n /\ Quat_sq n = 1 /\
             Quat_rotate a v = Ok (sandwich n v)).
Proof.
  unfold Quat_rotate.
  destruct (Quat_normalize_cases a) as [[H0 ->] | [H0 [_ [n [-> [Hn _]]]]]].
  - left. now split.
  - right. split; [exact H0|]. exists n. split; [reflexivity|].
    split; [exact Hn|].
    cbn [Controller.bind]. rewrite (Quat_inverse_unit n Hn).
    reflexivity.
Qed.

Lemma sandwich_dot (n : Quat) (u v : Vec3) :
  Vec3_dot (sandwich n u) (sandwich n v)
  = Quat_sq n * Quat_sq n * Vec3_dot u v.
Proof.
  destruct n, u, v. unfold sandwich, Vec3_dot, Quat_sq, Quat_mul,
    Quat_conjugate; simpl. ring.
Qed.

Lemma Quat_zero_sq : Quat_sq Quat_zero = 0.
Proof. unfold Quat_sq, Quat_zero; cbn [qx qy qz qw]. ring. Qed.

(** X8.  The norm of a quaternion product is the product of the norms. *)
Theorem Quat_mul_norm (a b : Quat) :
  Quat_norm (Quat_mul a b) = Quat_norm a * Quat_norm b.
Proof.
  unfold Quat_norm. fold (Quat_sq a) (Quat_sq b) (Quat_sq (Quat_mul a b)).
  rewrite <- sqrt_mult by apply Quat_sq_nonneg.
  f_equal. destruct a, b. unfold Quat_sq, Quat_mul; cbn [qx qy qz qw]. ring.
Qed.

(** A quaternion of moderate norm is not the zero quaternion. *)
Lemma moderate_nonzero (a : Quat) : moderate (Quat_norm a) -> a <> Quat_zero.
Proof.
  intros [Hlo _] ->.
  assert (H0 : Quat_norm Quat_zero = 0) by now apply Quat_norm_zero_iff.
  rewrite H0 in Hlo. lra.
Qed.

Lemma Quat_norm_0002 : Quat_norm (mkQuat 0 0 0 2) = 2.
Proof.
  unfold Quat_norm; cbn [qx qy qz qw].
  replace (0 ^ 2 + 0 ^ 2 + 0 ^ 2 + 2 ^ 2) with (2 * 2) by ring.
  apply sqrt_square. lra.
Qed.

Lemma moderate_0002 : moderate (Quat_norm (mkQuat 0 0 0 2)).
Proof. rewrite Quat_norm_0002. unfold moderate. lra. Qed.

(** X9.  For a quaternion of moderate norm [inverse] returns, and what it
    returns is the inverse on both sides: the products are the identity
    quaternion [(0, 0, 0, 1)]. *)
Theorem Quat_inverse_spec (a : Quat) :
  moderate (Quat_norm a) ->
  exists i,
    Quat_inverse a = Ok i /\
    Quat_mul a i = Quat_default /\ Quat_mul i a = Quat_default.
Proof.
  intros Hm. pose proof (moderate_nonzero a Hm) as Ha.
  destruct (Quat_inverse_cases a) as [[H0 _] | [_ [Hs ->]]];
    [contradiction|].
  eexists. split; [reflexivity|].
  assert (Hne : Quat_sq a <> 0) by lra.
  destruct a as [a b c d].
  unfold Quat_mul, Quat_default, Quat_sq in *; cbn [qx qy qz qw] in *.
  split; f_equal; field; exact Hne.
Qed.

Lemma Quat_inverse_spec_witness :
  exists i,
    Quat_inverse (mkQuat 0 0 0 2) = Ok i /\
    Quat_mul (mkQuat 0 0 0 2) i = Quat_default /\
    Quat_mul i (mkQuat 0 0 0 2) = Quat_default.
Proof. exact (Quat_inverse_spec (mkQuat 0 0 0 2) moderate_0002). Defined.

(** X10.  For a quaternion of moderate norm [normalize] returns; what it
    returns has norm 1, passes [validate], and is the quaternion divided
    by its norm. *)
Theorem Quat_normalize_spec (a : Quat) :
  moderate (Quat_norm a) ->
  exists n,
    Quat_normalize a = Ok n /\
    Quat_norm n = 1 /\ Quat_validate n = true /\
    qx a = Quat_norm a * qx n /\ qy a = Quat_norm a * qy n /\
    qz a = Quat_norm a * qz n /\ qw a = Quat_norm a * qw n.
Proof.
  intros Hm. pose proof (moderate_nonzero a Hm) as Ha.
  destruct (Quat_normalize_cases a)
    as [[H0 _] | [_ [_ [n [-> [Hn Hc]]]]]]; [contradiction|].
  pose proof (Quat_norm_of_sq_1 n Hn) as H1.
  exists n. split; [reflexivity|]. split; [exact H1|]. split; [|exact Hc].
  unfold Quat_validate. rewrite H1.
  replace (1 - 1) with 0 by ring. rewrite Rabs_R0.
  destruct (Rlt_dec 0 1e-6); [reflexivity | lra].
Qed.

Lemma Quat_normalize_spec_witness :
  exists n,
    Quat_normalize (mkQuat 0 0 0 2) = Ok n /\
    Quat_norm n = 1 /\ Quat_validate n = true /\
    qx (mkQuat 0 0 0 2) = Quat_norm (mkQuat 0 0 0 2) * qx n /\
    qy (mkQuat 0 0 0 2) = Quat_norm (mkQuat 0 0 0 2) * qy n /\
    qz (mkQuat 0 0 0 2) = Quat_norm (mkQuat 0 0 0 2) * qz n /\
    qw (mkQuat 0 0 0 2) = Quat_norm (mkQuat 0 0 0 2) * qw n.
Proof. exact (Quat_normalize_spec (mkQuat 0 0 0 2) moderate_0002). Defined.

(** X11.  [rotate] is an isometry: for a quaternion of moderate norm it
    returns, the rotated vectors have the dot product of the vectors, and
    a rotated vector keeps its norm. *)
Theorem Quat_rotate_isometry (a : Quat) (u v : Vec3) :
  moderate (Quat_norm a) ->
  exists u' v',
    Quat_rotate a u = Ok u' /\ Quat_rotate a v = Ok v' /\
    Vec3_dot u' v' = Vec3_dot u v /\ Vec3_norm u' = Vec3_norm u.
Proof.
  intros Hm. pose proof (moderate_nonzero a Hm) as Ha.
  destruct (Quat_rotate_cases a u) as [[H0 _] | [_ [n [Hn [Hs ->]]]]];
    [contradiction|].
  destruct (Quat_rotate_cases a v) as [[H1 _] | [_ [n' [Hn' [_ ->]]]]];
    [contradiction|].
  rewrite Hn in Hn'. injection Hn' as <-.
  do 2 eexists. split; [reflexivity|]. split; [reflexivity|]. split.
  - rewrite sandwich_dot, Hs. ring.
  - unfold Vec3_norm. rewrite sandwich_dot, Hs. f_equal. ring.
Qed.

Lemma Quat_rotate_isometry_witness :
  exists u' v',
    Quat_rotate (mkQuat 0 0 0 2) (mkVec3 1 0 0) = Ok u' /\
    Quat_rotate (mkQuat 0 0 0 2) (mkVec3 0 1 0) = Ok v' /\
    Vec3_dot u' v' = Vec3_dot (mkVec3 1 0 0) (mkVec3 0 1 0) /\
    Vec3_norm u' = Vec3_norm (mkVec3 1 0 0).
Proof.
  exact (Quat_rotate_isometry (mkQuat 0 0 0 2) (mkVec3 1 0 0) (mkVec3 0 1 0)
           moderate_0002).
Defined.

(** X12.  The matrix of [to_rotation_matrix] does what [rotate] does: for
    every quaternion and vector, rotating the vector is multiplying it by
    the matrix, and both raise [ValueError] for the zero quaternion. *)
Theorem to_rotation_matrix_rotate (a : Quat) (v : Vec3) :
  Quat_rotate a v
  = Controller.bind (Quat_to_rotation_matrix a)
      (fun m => Controller.Ok (Mat3_mul_Vec3 m v)).
Proof.
  unfold Quat_to_rotation_matrix.
  destruct (Quat_rotate_cases a v) as [[H0 ->] | [H0 [n [Hn [Hs ->]]]]].
  - destruct (Quat_normalize_cases a) as [[_ ->] | [H1 _]];
      [reflexivity | contradiction].
  - rewrite Hn. cbn [Controller.bind]. f_equal.
    destruct n as [a0 b c d], v as [v1 v2 v3].
    unfold Quat_sq in Hs; cbn [qx qy qz qw] in Hs.
    unfold sandwich, Mat3_mul_Vec3, Vec3_dot, Quat_mul, Quat_conjugate;
      cbn [qx qy qz qw x y z row0 row1 row2].
    f_equal.
    + transitivity ((1 - 2 * (b ^ 2 + c ^ 2)) * v1 + 2 * (a0 * b - c * d) * v2
                    + 2 * (a0 * c + b * d) * v3
                    + (a0 ^ 2 + b ^ 2 + c ^ 2 + d ^ 2 - 1) * v1);
        [ring | rewrite Hs; ring].
    + transitivity (2 * (a0 * b + c * d) * v1 + (1 - 2 * (a0 ^ 2 + c ^ 2)) * v2
                    + 2 * (b * c - a0 * d) * v3
                    + (a0 ^ 2 + b ^ 2 + c ^ 2 + d ^ 2 - 1) * v2);
        [ring | rewrite Hs; ring].
    + transitivity (2 * (a0 * c - b * d) * v1 + 2 * (b * c + a0 * d) * v2
                    + (1 - 2 * (a0 ^ 2 + b ^ 2)) * v3
                    + (a0 ^ 2 + b ^ 2 + c ^ 2 + d ^ 2 - 1) * v3);
        [ring | rewrite Hs; ring].
Qed.

(** ** Frames *)

Lemma Quat_decompose (a : Quat) :
  a <> Quat_zero ->
  exists k n, 0 < k /\ Quat_sq n = 1 /\ a = scale k n.
Proof.
  intros H0.
  destruct (Quat_normalize_cases a)
    as [[H _] | [_ [Hk [n [_ [Hn [Hx [Hy [Hz Hw]]]]]]]]]; [contradiction|].
  exists (Quat_norm a), n. split; [exact Hk|]. split; [exact Hn|].
  destruct a; unfold scale; cbn [qx qy qz qw] in *. congruence.
Qed.

Lemma Quat_norm_scale (k : R) (n : Quat) :
  0 < k -> Quat_sq n = 1 -> Quat_norm (scale k n) = k.
Proof.
  intros Hk Hn. unfold Quat_norm.
  apply sqrt_lem_1; [apply (Quat_sq_nonneg (scale k n)) | lra |].
  unfold scale; cbn [qx qy qz qw]. unfold Quat_sq in Hn.
  transitivity (k * k * (qx n ^ 2 + qy n ^ 2 + qz n ^ 2 + qw n ^ 2));
    [rewrite Hn|]; ring.
Qed.

Lemma Quat_normalize_scale (k : R) (n : Quat) :
  0 < k -> Quat_sq n = 1 -> Quat_normalize (scale k n) = Ok n.
Proof.
  intros Hk Hn. unfold Quat_normalize, Quat_truediv.
  rewrite (Quat_norm_scale k n Hk Hn).
  destruct (Req_dec_T k 0) as [H|H]; [lra|].
  destruct n. unfold scale; cbn [qx qy qz qw]. f_equal. f_equal; field; lra.
Qed.

Lemma Quat_inverse_scale (k : R) (n : Quat) :
  0 < k -> Quat_sq n = 1 ->
  Quat_inverse (scale k n) = Ok (scale (/ k) (Quat_conjugate n)).
Proof.
  intros Hk Hn. unfold Quat_inverse, Quat_truediv.
  rewrite (Quat_norm_scale k n Hk Hn).
  destruct (Req_dec_T (k ^ 2) 0) as [H|H]; [nra|].
  destruct n. unfold scale, Quat_conjugate; cbn [qx qy qz qw].
  f_equal. f_equal; field; lra.
Qed.

Lemma Quat_sq_conjugate (n : Quat) : Quat_sq (Quat_conjugate n) = Quat_sq n.
Proof. unfold Quat_sq, Quat_conjugate; cbn [qx qy qz qw]. ring. Qed.

Lemma Quat_rotate_scale (k : R) (n : Quat) (v : Vec3) :
  0 < k -> Quat_sq n = 1 -> Quat_rotate (scale k n) v = Ok (sandwich n v).
Proof.
  intros Hk Hn. unfold Quat_rotate.
  rewrite (Quat_normalize_scale k n Hk Hn). cbn [Controller.bind].
  rewrite (Quat_inverse_unit n Hn). reflexivity.
Qed.

Lemma Quat_normalize_unit (n : Quat) :
  Quat_sq n = 1 -> Quat_normalize n = Ok n.
Proof.
  intros Hn. unfold Quat_normalize, Quat_truediv.
  rewrite (Quat_norm_of_sq_1 n Hn).
  destruct (Req_dec_T 1 0) as [H|H]; [lra|].
  destruct n. cbn [qx qy qz qw]. f_equal. f_equal; field.
Qed.

Lemma Quat_rotate_unit (n : Quat) (v : Vec3) :
  Quat_sq n = 1 -> Quat_rotate n v = Ok (sandwich n v).
Proof.
  intros Hn. unfold Quat_rotate.
  rewrite (Quat_normalize_unit n Hn). cbn [Controller.bind].
  rewrite (Quat_inverse_unit n Hn). reflexivity.
Qed.

Lemma Frame_inverse_scale (t : Vec3) (k : R) (n : Quat) :
  0 < k -> Quat_sq n = 1 ->
  Frame_inverse (mkFrame t (scale k n))
  = Ok (mkFrame (Vec3_neg (sandwich (Quat_conjugate n) t))
                (scale (/ k) (Quat_conjugate n))).
Proof.
  intros Hk Hn. unfold Frame_inverse. cbn [quaternion translation].
  rewrite (Quat_inverse_scale k n Hk Hn). cbn [Controller.bind].
  rewrite Quat_rotate_scale;
    [reflexivity | now apply Rinv_0_lt_compat | now rewrite Quat_sq_conjugate].
Qed.

Lemma Frame_inverse_zero (t : Vec3) :
  Frame_inverse (mkFrame t Quat_zero) = Raise ValueError.
Proof.
  unfold Frame_inverse. cbn [quaternion].
  destruct (Quat_inverse_cases Quat_zero) as [[_ ->] | [H _]];
    [reflexivity | now contradiction H].
Qed.

Lemma sandwich_back (n : Quat) (v : Vec3) :
  Quat_sq n = 1 ->
  Vec3_add v (sandwich n (Vec3_neg (sandwich (Quat_conjugate n) v)))
  = Vec3_default.
Proof.
  intros Hn. destruct n as [a b c d], v as [v1 v2 v3].
  unfold Quat_sq in Hn; cbn [qx qy qz qw] in Hn.
  cbv [Vec3_add Vec3_neg sandwich Quat_mul Quat_conjugate Vec3_default
       qx qy qz qw x y z].
  f_equal.
  - transitivity (v1 * (1 - (a ^ 2 + b ^ 2 + c ^ 2 + d ^ 2)
                            * (a ^ 2 + b ^ 2 + c ^ 2 + d ^ 2)));
      [ring | rewrite Hn; ring].
  - transitivity (v2 * (1 - (a ^ 2 + b ^ 2 + c ^ 2 + d ^ 2)
                            * (a ^ 2 + b ^ 2 + c ^ 2 + d ^ 2)));
      [ring | rewrite Hn; ring].
  - transitivity (v3 * (1 - (a ^ 2 + b ^ 2 + c ^ 2 + d ^ 2)
                            * (a ^ 2 + b ^ 2 + c ^ 2 + d ^ 2)));
      [ring | rewrite Hn; ring].
Qed.

Lemma Quat_mul_scale_inverse (k : R) (n : Quat) :
  0 < k -> Quat_sq n = 1 ->
  Quat_mul (scale k n) (scale (/ k) (Quat_conjugate n)) = Quat_default /\
  Quat_mul (scale (/ k) (Quat_conjugate n)) (scale k n) = Quat_default.
Proof.
  intros Hk Hn. destruct n as [a b c d].
  unfold Quat_sq in Hn; cbn [qx qy qz qw] in Hn.
  unfold Quat_mul, scale, Quat_conjugate, Quat_default; cbn [qx qy qz qw].
  split; f_equal; try (field; lra).
  - transitivity (a ^ 2 + b ^ 2 + c ^ 2 + d ^ 2); [field; lra | exact Hn].
  - transitivity (a ^ 2 + b ^ 2 + c ^ 2 + d ^ 2); [field; lra | exact Hn].
Qed.

(** A quaternion of moderate norm is a unit quaternion, scaled. *)
Lemma moderate_decompose (a : Quat) :
  moderate (Quat_norm a) ->
  exists k n, 0 < k /\ Quat_sq n = 1 /\ a = scale k n.
Proof. intros Hm. apply Quat_decompose. now apply moderate_nonzero. Qed.

(** X13.  For a frame whose quaternion has a moderate norm
    [Frame.inverse] returns, and the frame it returns composes with the
    frame, on either side, to the identity frame [Frame()]. *)
Theorem Frame_inverse_spec (f : Frame) :
  moderate (Quat_norm (quaternion f)) ->
  exists i,
    Frame_inverse f = Ok i /\
    Frame_transform i f = Ok Frame_default /\
    Frame_transform f i = Ok Frame_default.
Proof.
  destruct f as [t q]. cbn [quaternion]. intros Hm.
  destruct (moderate_decompose q Hm) as [k [n [Hk [Hn ->]]]].
  rewrite (Frame_inverse_scale t k n Hk Hn).
  eexists. split; [reflexivity|].
  assert (Hik : 0 < / k) by now apply Rinv_0_lt_compat.
  assert (Hcn : Quat_sq (Quat_conjugate n) = 1)
    by now rewrite Quat_sq_conjugate.
  destruct (Quat_mul_scale_inverse k n Hk Hn) as [Hm1 Hm2].
  unfold Frame_transform; cbn [quaternion translation].
  rewrite (Quat_rotate_scale (/ k) (Quat_conjugate n) t Hik Hcn).
  rewrite (Quat_rotate_scale k n _ Hk Hn).
  cbn [Controller.bind]. rewrite Hm1, Hm2, (sandwich_back n t Hn).
  split; [|reflexivity].
  unfold Frame_default. f_equal. f_equal.
  unfold Vec3_add, Vec3_neg, Vec3_default; cbn [x y z]. f_equal; ring.
Qed.

Lemma Frame_inverse_spec_witness :
  exists i,
    Frame_inverse (mkFrame (mkVec3 1 2 3) (mkQuat 0 0 0 2)) = Ok i /\
    Frame_transform i (mkFrame (mkVec3 1 2 3) (mkQuat 0 0 0 2))
    = Ok Frame_default /\
    Frame_transform (mkFrame (mkVec3 1 2 3) (mkQuat 0 0 0 2)) i
    = Ok Frame_default.
Proof.
  exact (Frame_inverse_spec (mkFrame (mkVec3 1 2 3) (mkQuat 0 0 0 2))
           moderate_0002).
Defined.

Lemma sandwich_difference (n : Quat) (u v : Vec3) :
  Quat_sq n = 1 ->
  Vec3_norm (Vec3_add (Vec3_neg (sandwich n v)) (sandwich n u))
  = Vec3_norm (Vec3_sub u v).
Proof.
  intros Hn. unfold Vec3_norm. f_equal.
  transitivity (Quat_sq n * Quat_sq n * Vec3_dot (Vec3_sub u v) (Vec3_sub u v)).
  - destruct n, u, v.
    cbv [Vec3_dot Vec3_add Vec3_neg Vec3_sub sandwich Quat_mul
         Quat_conjugate Quat_sq qx qy qz qw x y z]. ring.
  - rewrite Hn. ring.
Qed.

(** X14.  [translation_difference] is the Euclidean distance between the
    origins of the two frames, whatever their orientations: it returns it
    whenever the quaternion of [other] has a moderate norm. *)
Theorem translation_difference_is_distance (f other : Frame) :
  moderate (Quat_norm (quaternion other)) ->
  translation_difference f other
  = Ok (Vec3_norm (Vec3_sub (translation f) (translation other))).
Proof.
  destruct other as [t q]. cbn [quaternion translation]. intros Hm.
  unfold translation_difference.
  destruct (moderate_decompose q Hm) as [k [n [Hk [Hn ->]]]].
  rewrite (Frame_inverse_scale t k n Hk Hn). cbn [Controller.bind].
  assert (Hik : 0 < / k) by now apply Rinv_0_lt_compat.
  assert (Hcn : Quat_sq (Quat_conjugate n) = 1)
    by now rewrite Quat_sq_conjugate.
  unfold Frame_transform; cbn [quaternion translation].
  rewrite (Quat_rotate_scale (/ k) (Quat_conjugate n) _ Hik Hcn).
  cbn [Controller.bind translation]. f_equal.
  apply sandwich_difference. exact Hcn.
Qed.

Lemma translation_difference_is_distance_witness :
  translation_difference (mkFrame (mkVec3 4 6 3) Quat_default)
                         (mkFrame (mkVec3 1 2 3) (mkQuat 0 0 0 2))
  = Ok (Vec3_norm (Vec3_sub (mkVec3 4 6 3) (mkVec3 1 2 3))).
Proof.
  exact (translation_difference_is_distance
           (mkFrame (mkVec3 4 6 3) Quat_default)
           (mkFrame (mkVec3 1 2 3) (mkQuat 0 0 0 2)) moderate_0002).
Defined.

(** ** Composition of frames *)

Lemma Quat_mul_scale (k k' : R) (n n' : Quat) :
  Quat_mul (scale k n) (scale k' n') = scale (k * k') (Quat_mul n n').
Proof.
  destruct n, n'. cbv [Quat_mul scale qx qy qz qw]. f_equal; ring.
Qed.

Lemma Quat_sq_mul (a b : Quat) :
  Quat_sq (Quat_mul a b) = Quat_sq a * Quat_sq b.
Proof. destruct a, b. cbv [Quat_sq Quat_mul qx qy qz qw]. ring. Qed.

Lemma Quat_mul_assoc (a b c : Quat) :
  Quat_mul (Quat_mul a b) c = Quat_mul a (Quat_mul b c).
Proof. destruct a, b, c. cbv [Quat_mul qx qy qz qw]. f_equal; ring. Qed.

Lemma Quat_mul_zero_r (a : Quat) : Quat_mul a Quat_zero = Quat_zero.
Proof. destruct a. cbv [Quat_mul Quat_zero qx qy qz qw]. f_equal; ring. Qed.

Lemma sandwich_mul (n n' : Quat) (v : Vec3) :
  sandwich (Quat_mul n n') v = sandwich n (sandwich n' v).
Proof.
  destruct n, n', v.
  cbv [sandwich Quat_mul Quat_conjugate qx qy qz qw x y z]. f_equal; ring.
Qed.

Lemma sandwich_add (n : Quat) (u v : Vec3) :
  sandwich n (Vec3_add u v) = Vec3_add (sandwich n u) (sandwich n v).
Proof.
  destruct n, u, v.
  cbv [sandwich Vec3_add Quat_mul Quat_conjugate qx qy qz qw x y z].
  f_equal; ring.
Qed.

Lemma Vec3_add_assoc (a b c : Vec3) :
  Vec3_add (Vec3_add a b) c = Vec3_add a (Vec3_add b c).
Proof. cbv [Vec3_add x y z]. f_equal; ring. Qed.

Lemma Quat_rotate_zero (v : Vec3) : Quat_rotate Quat_zero v = Raise ValueError.
Proof.
  destruct (Quat_rotate_cases Quat_zero v) as [[_ H] | [H _]];
    [exact H | now contradiction H].
Qed.

Lemma Quat_zero_or_scaled (a : Quat) :
  a = Quat_zero \/ exists k n, 0 < k /\ Quat_sq n = 1 /\ a = scale k n.
Proof.
  destruct (Req_dec_T (Quat_sq a) 0) as [H0|H0].
  - left. now apply Quat_sq_zero.
  - right. apply Quat_decompose. intros ->. apply H0, Quat_zero_sq.
Qed.

(** X21.  Frames compose associatively: when the quaternions of [a] and
    [b] have moderate norms, [(a * b) * c] and [a * (b * c)] return, and
    return the same frame; the identity frame [Frame()] is neutral on the
    left, and on the right of every frame whose quaternion has a moderate
    norm. *)
Theorem Frame_transform_assoc (a b c : Frame) :
  (moderate (Quat_norm (quaternion a)) ->
   moderate (Quat_norm (quaternion b)) ->
   exists abc,
     Controller.bind (Frame_transform a b) (fun ab => Frame_transform ab c)
     = Ok abc /\
     Controller.bind (Frame_transform b c) (fun bc => Frame_transform a bc)
     = Ok abc) /\
  Frame_transform Frame_default a = Ok a /\
  (moderate (Quat_norm (quaternion a)) ->
   Frame_transform a Frame_default = Ok a).
Proof.
  destruct a as [ta qa], b as [tb qb], c as [tc qc].
  cbn [quaternion].
  split; [|split].
  - intros Hma Hmb.
    unfold Frame_transform; cbn [translation quaternion].
    destruct (moderate_decompose qa Hma) as [ka [na [Hka [Hna ->]]]].
    destruct (moderate_decompose qb Hmb) as [kb [nb [Hkb [Hnb ->]]]].
    rewrite (Quat_rotate_scale ka na tb Hka Hna).
    cbn [Controller.bind translation quaternion].
    rewrite (Quat_rotate_scale kb nb tc Hkb Hnb).
    cbn [Controller.bind translation quaternion].
    rewrite Quat_mul_scale.
    rewrite (Quat_rotate_scale (ka * kb) (Quat_mul na nb) tc);
      [| now apply Rmult_lt_0_compat
       | rewrite Quat_sq_mul, Hna, Hnb; ring].
    rewrite (Quat_rotate_scale ka na _ Hka Hna).
    cbn [Controller.bind].
    eexists. split; [reflexivity|].
    rewrite <- Quat_mul_scale, Quat_mul_assoc.
    rewrite sandwich_mul, sandwich_add, Vec3_add_assoc. reflexivity.
  - unfold Frame_transform, Frame_default; cbn [translation quaternion].
    assert (H1 : Quat_sq Quat_default = 1).
    { cbv [Quat_sq Quat_default qx qy qz qw]. ring. }
    rewrite (Quat_rotate_unit _ _ H1). cbn [Controller.bind].
    destruct ta, qa.
    cbv [Vec3_add Vec3_default sandwich Quat_mul Quat_conjugate Quat_default
         qx qy qz qw x y z].
    f_equal. f_equal; f_equal; ring.
  - intros Hm.
    destruct (moderate_decompose qa Hm) as [k [n [Hk [Hn ->]]]].
    unfold Frame_transform, Frame_default; cbn [translation quaternion].
    rewrite (Quat_rotate_scale k n _ Hk Hn). cbn [Controller.bind].
    destruct ta, n.
    cbv [Vec3_add Vec3_default sandwich Quat_mul Quat_conjugate Quat_default
         scale qx qy qz qw x y z].
    f_equal. f_equal; f_equal; ring.
Qed.

Lemma Frame_transform_assoc_witness :
  (exists abc,
     Controller.bind
       (Frame_transform (mkFrame (mkVec3 1 2 3) (mkQuat 0 0 0 2))
                        (mkFrame (mkVec3 4 6 3) (mkQuat 0 0 0 2)))
       (fun ab => Frame_transform ab Frame_default)
     = Ok abc /\
     Controller.bind
       (Frame_transform (mkFrame (mkVec3 4 6 3) (mkQuat 0 0 0 2))
                        Frame_default)
       (fun bc => Frame_transform (mkFrame (mkVec3 1 2 3) (mkQuat 0 0 0 2))
                                  bc)
     = Ok abc) /\
  Frame_transform (mkFrame (mkVec3 1 2 3) (mkQuat 0 0 0 2)) Frame_default
  = Ok (mkFrame (mkVec3 1 2 3) (mkQuat 0 0 0 2)).
Proof.
  split.
  - exact (proj1 (Frame_transform_assoc
                    (mkFrame (mkVec3 1 2 3) (mkQuat 0 0 0 2))
                    (mkFrame (mkVec3 4 6 3) (mkQuat 0 0 0 2))
                    Frame_default)
                 moderate_0002 moderate_0002).
  - exact (proj2 (proj2 (Frame_transform_assoc
                           (mkFrame (mkVec3 1 2 3) (mkQuat 0 0 0 2))
                           Frame_default Frame_default))
                 moderate_0002).
Defined.

(** ** Rotations about the z axis *)

Lemma half_angle_sq (t : R) : sin t * sin t + cos t * cos t = 1.
Proof. pose proof (sin2_cos2 t) as H. unfold Rsqr in H. exact H. Qed.

Lemma z_rotation_unit (theta : R) :
  Quat_sq (quaternion (from_z_rotation theta)) = 1.
Proof.
  unfold from_z_rotation, Quat_sq; cbn [quaternion qx qy qz qw].
  pose proof (half_angle_sq (theta / 2)). nra.
Qed.

(** X15.  Rotations about z compose by adding their angles:
    [from_z_rotation(a) * from_z_rotation(b)] is [from_z_rotation(a + b)],
    and never raises. *)
Theorem z_rotations_add (a b : R) :
  Frame_transform (from_z_rotation a) (from_z_rotation b)
  = Ok (from_z_rotation (a + b)).
Proof.
  unfold Frame_transform.
  rewrite (Quat_rotate_unit _ _ (z_rotation_unit a)).
  cbn [Controller.bind]. f_equal.
  unfold from_z_rotation; cbn [translation quaternion].
  replace ((a + b) / 2) with (a / 2 + b / 2) by field.
  rewrite sin_plus, cos_plus.
  f_equal.
  - cbv [Vec3_add sandwich Quat_mul Quat_conjugate Vec3_default
         qx qy qz qw x y z]. f_equal; ring.
  - cbv [Quat_mul qx qy qz qw]. f_equal; ring.
Qed.

(** X16.  [from_z_rotation(theta)] turns vectors about the z axis by
    [theta]: its quaternion rotates [(x, y, z)] to
    [(x cos theta - y sin theta, x sin theta + y cos theta, z)]. *)
Theorem z_rotation_rotates (theta : R) (v : Vec3) :
  Quat_rotate (quaternion (from_z_rotation theta)) v
  = Ok (mkVec3 (x v * cos theta - y v * sin theta)
               (x v * sin theta + y v * cos theta)
               (z v)).
Proof.
  rewrite (Quat_rotate_unit _ _ (z_rotation_unit theta)). f_equal.
  replace theta with (2 * (theta / 2)) at 2 3 4 5 by field.
  rewrite sin_2a, cos_2a.
  pose proof (half_angle_sq (theta / 2)) as H.
  destruct v as [v1 v2 v3].
  cbv [from_z_rotation quaternion sandwich Quat_mul Quat_conjugate
       qx qy qz qw x y z].
  set (s := sin (theta / 2)) in *. set (c := cos (theta / 2)) in *.
  f_equal; try ring.
  transitivity (v3 * (s * s + c * c)); [ring | rewrite H; ring].
Qed.

Ltac split_lt :=
  repeat (match goal with
          | |- context [Rlt_dec ?a ?b] => destruct (Rlt_dec a b)
          end; try lra).

Lemma np_arctan2_sin_cos (theta : R) :
  - PI < theta <= PI -> np_arctan2 (sin theta) (cos theta) = theta.
Proof.
  intros [Hlo Hhi]. pose proof PI_RGT_0 as Hpi. unfold np_arctan2.
  destruct (Rlt_dec theta (- (PI / 2))) as [H1|H1].
  - (* third quadrant *)
    set (phi := theta + PI).
    assert (Hc : 0 < cos phi) by (apply cos_gt_0; unfold phi; lra).
    assert (Hs : 0 < sin phi) by (apply sin_gt_0; unfold phi; lra).
    unfold phi in Hc, Hs. rewrite neg_cos in Hc. rewrite neg_sin in Hs.
    destruct (Rlt_dec 0 (cos theta)); [lra|].
    destruct (Rlt_dec (cos theta) 0); [|lra].
    destruct (Rlt_dec (sin theta) 0); [|lra].
    replace (sin theta / cos theta) with (tan (theta + PI)).
    + rewrite atan_tan by lra. ring.
    + unfold tan. rewrite neg_sin, neg_cos. field. lra.
  - destruct (Req_dec_T theta (- (PI / 2))) as [H2|H2].
    { subst theta. rewrite cos_neg, sin_neg, cos_PI2, sin_PI2.
      split_lt; reflexivity. }
    destruct (Rlt_dec theta (PI / 2)) as [H3|H3].
    + (* right half plane *)
      assert (Hc : 0 < cos theta) by (apply cos_gt_0; lra).
      destruct (Rlt_dec 0 (cos theta)); [|lra].
      change (sin theta / cos theta) with (tan theta).
      apply atan_tan. lra.
    + destruct (Req_dec_T theta (PI / 2)) as [H4|H4].
      { subst theta. rewrite cos_PI2, sin_PI2. split_lt; reflexivity. }
      (* second quadrant *)
      set (phi := theta - PI).
      assert (Hc : 0 < cos phi) by (apply cos_gt_0; unfold phi; lra).
      assert (Hs : 0 <= sin theta) by (apply sin_ge_0; lra).
      assert (Ec : cos theta = - cos phi).
      { replace theta with (phi + PI) at 1 by (unfold phi; ring).
        apply neg_cos. }
      assert (Es : sin theta = - sin phi).
      { replace theta with (phi + PI) at 1 by (unfold phi; ring).
        apply neg_sin. }
      destruct (Rlt_dec 0 (cos theta)); [lra|].
      destruct (Rlt_dec (cos theta) 0); [|lra].
      destruct (Rlt_dec (sin theta) 0); [lra|].
      replace (sin theta / cos theta) with (tan phi).
      * rewrite atan_tan by (unfold phi; lra). unfold phi. ring.
      * unfold tan. rewrite Es, Ec. field. lra.
Qed.

(** X17.  The Euler angles of a rotation about z are read back: for
    [-pi < theta <= pi], [to_euler] of the quaternion of
    [from_z_rotation(theta)] is roll 0, pitch 0 and yaw [theta]. *)
Theorem z_rotation_to_euler (theta : R) :
  - PI < theta <= PI ->
  Quat_to_euler (quaternion (from_z_rotation theta)) = Ok (0, 0, theta).
Proof.
  intros Ht. unfold Quat_to_euler.
  rewrite (Quat_normalize_unit _ (z_rotation_unit theta)).
  cbn [Controller.bind]. cbv zeta.
  unfold from_z_rotation; cbn [quaternion qx qy qz qw].
  set (s := sin (theta / 2)). set (c := cos (theta / 2)).
  assert (Hsq : s * s + c * c = 1) by apply half_angle_sq.
  replace (2 * (c * 0 + 0 * s)) with 0 by ring.
  replace (1 - 2 * (0 ^ 2 + 0 ^ 2)) with 1 by ring.
  replace (2 * (c * 0 - s * 0)) with 0 by ring.
  replace (2 * (c * s + 0 * 0)) with (sin theta).
  2: { replace theta with (2 * (theta / 2)) at 1 by field.
       rewrite sin_2a. fold s c. ring. }
  replace (1 - 2 * (0 ^ 2 + s ^ 2)) with (cos theta).
  2: { replace theta with (2 * (theta / 2)) at 1 by field.
       rewrite cos_2a. fold s c. nra. }
  rewrite (np_arctan2_sin_cos theta Ht), asin_0.
  unfold np_arctan2.
  destruct (Rlt_dec 0 1); [|lra].
  replace (0 / 1) with 0 by field. rewrite atan_0. reflexivity.
Qed.

Lemma z_rotation_to_euler_witness :
  Quat_to_euler (quaternion (from_z_rotation 1)) = Ok (0, 0, 1).
Proof.
  apply (z_rotation_to_euler 1). pose proof PI2_3_2. lra.
Defined.

Lemma atan_sign (u : R) :
  (0 < u -> 0 < atan u) /\ (u <= 0 -> atan u <= 0).
Proof.
  split; intros H.
  - rewrite <- atan_0. now apply atan_increasing.
  - destruct H as [H|H].
    + left. rewrite <- atan_0. now apply atan_increasing.
    + right. rewrite H. apply atan_0.
Qed.

Lemma np_arctan2_bound (b a : R) : - PI <= np_arctan2 b a <= PI.
Proof.
  pose proof PI_RGT_0. unfold np_arctan2.
  pose proof (atan_bound (b / a)).
  destruct (atan_sign (b / a)) as [Hp Hn].
  destruct (Rlt_dec 0 a); [lra|].
  destruct (Rlt_dec a 0) as [Ha|Ha].
  - assert (Hi : / a < 0) by now apply Rinv_lt_0_compat.
    destruct (Rlt_dec b 0) as [Hb|Hb].
    + assert (0 < b / a) by (unfold Rdiv; nra).
      specialize (Hp ltac:(assumption)). lra.
    + assert (b / a <= 0) by (unfold Rdiv; nra).
      specialize (Hn ltac:(assumption)). lra.
  - destruct (Rlt_dec 0 b); [lra|]. destruct (Rlt_dec b 0); lra.
Qed.

Lemma Quat_to_euler_cases (a : Quat) :
  (a = Quat_zero /\ Quat_to_euler a = Raise ValueError) \/
  (a <> Quat_zero /\
   exists roll pitch yaw,
     Quat_to_euler a = Ok (roll, pitch, yaw) /\ - PI <= yaw <= PI).
Proof.
  unfold Quat_to_euler.
  destruct (Quat_normalize_cases a) as [[H0 ->] | [H0 [_ [n [-> _]]]]].
  - left. now split.
  - right. split; [exact H0|]. cbn [Controller.bind]. cbv zeta.
    do 3 eexists. split; [reflexivity|]. apply np_arctan2_bound.
Qed.

(** X18.  [yaw_difference] is symmetric and lies in [[0, pi]]: for two
    frames whose quaternions have moderate norms it returns, the same
    angle for either order of the frames. *)
Theorem yaw_difference_spec (f other : Frame) :
  moderate (Quat_norm (quaternion f)) ->
  moderate (Quat_norm (quaternion other)) ->
  exists d,
    yaw_difference f other = Ok d /\
    yaw_difference other f = Ok d /\
    0 <= d <= PI.
Proof.
  intros Hf Ho. unfold yaw_difference.
  destruct (Quat_to_euler_cases (quaternion f))
    as [[H0 _] | [_ [r0 [p0 [y0 [-> Hy0]]]]]].
  { now apply moderate_nonzero in Hf. }
  destruct (Quat_to_euler_cases (quaternion other))
    as [[H1 _] | [_ [r1 [p1 [y1 [-> Hy1]]]]]].
  { now apply moderate_nonzero in Ho. }
  cbn [Controller.bind snd]. cbv zeta.
  eexists. split; [reflexivity|].
  rewrite (Rabs_minus_sym y1 y0).
  split; [reflexivity|].
  assert (Hd : 0 <= Rabs (y0 - y1) <= 2 * PI).
  { split; [apply Rabs_pos|].
    unfold Rabs. destruct (Rcase_abs (y0 - y1)); lra. }
  destruct (Rlt_dec PI (Rabs (y0 - y1))); lra.
Qed.

Lemma yaw_difference_spec_witness :
  exists d,
    yaw_difference (mkFrame (mkVec3 1 2 3) (mkQuat 0 0 0 2))
                   (mkFrame (mkVec3 4 6 3) (mkQuat 0 0 0 2)) = Ok d /\
    yaw_difference (mkFrame (mkVec3 4 6 3) (mkQuat 0 0 0 2))
                   (mkFrame (mkVec3 1 2 3) (mkQuat 0 0 0 2)) = Ok d /\
    0 <= d <= PI.
Proof.
  exact (yaw_difference_spec (mkFrame (mkVec3 1 2 3) (mkQuat 0 0 0 2))
           (mkFrame (mkVec3 4 6 3) (mkQuat 0 0 0 2))
           moderate_0002 moderate_0002).
Defined.

(** ** Vectors *)

Lemma Vec3_dot_nonneg (v : Vec3) : 0 <= Vec3_dot v v.
Proof. unfold Vec3_dot. nra. Qed.

Lemma Vec3_norm_sq (v : Vec3) : Vec3_norm v * Vec3_norm v = Vec3_dot v v.
Proof. unfold Vec3_norm. apply sqrt_sqrt, Vec3_dot_nonneg. Qed.

Lemma Vec3_norm_zero_iff (v : Vec3) : Vec3_norm v = 0 <-> v = Vec3_default.
Proof.
  split.
  - intros H. pose proof (Vec3_norm_sq v) as Hs. rewrite H in Hs.
    destruct v as [a b c]. unfold Vec3_dot in Hs; cbn [x y z] in Hs.
    assert (a = 0) by nra. assert (b = 0) by nra. assert (c = 0) by nra.
    subst. reflexivity.
  - intros ->. unfold Vec3_norm, Vec3_dot, Vec3_default; cbn [x y z].
    replace (0 * 0 + 0 * 0 + 0 * 0) with 0 by ring. apply sqrt_0.
Qed.

Lemma Vec3_norm_002 : Vec3_norm (mkVec3 0 0 2) = 2.
Proof.
  unfold Vec3_norm, Vec3_dot; cbn [x y z].
  replace (0 * 0 + 0 * 0 + 2 * 2) with (2 * 2) by ring.
  apply sqrt_square. lra.
Qed.

(** X19.  For a rotation vector of moderate length
    [from_rotation_vector] returns, and the quaternion it returns has norm
    1 and passes [validate]. *)
Theorem from_rotation_vector_spec (v : Vec3) :
  moderate (Vec3_norm v) ->
  exists q,
    Quat_from_rotation_vector v = Ok q /\
    Quat_norm q = 1 /\ Quat_validate q = true.
Proof.
  intros [Hlo _].
  unfold Quat_from_rotation_vector, Vec3_normalize, Vec3_truediv. cbv zeta.
  destruct (Req_dec_T (Vec3_norm v) 0) as [H0|H0]; [lra|].
  cbn [Controller.bind x y z].
  eexists. split; [reflexivity|].
  set (k := Vec3_norm v) in *.
  assert (Hn : Quat_norm
                 (mkQuat (x v / k * sin (k / 2)) (y v / k * sin (k / 2))
                         (z v / k * sin (k / 2)) (cos (k / 2))) = 1).
  { apply Quat_norm_of_sq_1. unfold Quat_sq; cbn [qx qy qz qw].
    pose proof (Vec3_norm_sq v) as Hs. fold k in Hs.
    unfold Vec3_dot in Hs.
    pose proof (half_angle_sq (k / 2)) as Ht.
    set (s := sin (k / 2)) in *. set (c := cos (k / 2)) in *.
    transitivity ((x v * x v + y v * y v + z v * z v) / (k * k) * (s * s)
                  + c * c); [field; exact H0|].
    rewrite <- Hs. replace (k * k / (k * k)) with 1 by (field; exact H0).
    lra. }
  split; [exact Hn|].
  unfold Quat_validate. rewrite Hn.
  replace (1 - 1) with 0 by ring. rewrite Rabs_R0.
  destruct (Rlt_dec 0 1e-6); [reflexivity | lra].
Qed.

Lemma from_rotation_vector_spec_witness :
  exists q,
    Quat_from_rotation_vector (mkVec3 0 0 2) = Ok q /\
    Quat_norm q = 1 /\ Quat_validate q = true.
Proof.
  apply (from_rotation_vector_spec (mkVec3 0 0 2)).
  rewrite Vec3_norm_002. unfold moderate. lra.
Defined.

(** X20.  [cross] is the right-handed vector product: it is orthogonal to
    both arguments, anti-symmetric, satisfies Lagrange's identity
    [|a x b|^2 = |a|^2 |b|^2 - (a . b)^2], and sends the x and y axes to
    the z axis. *)
Theorem Vec3_cross_spec (a b : Vec3) :
  Vec3_dot a (Vec3_cross a b) = 0 /\
  Vec3_dot b (Vec3_cross a b) = 0 /\
  Vec3_cross b a = Vec3_neg (Vec3_cross a b) /\
  Vec3_dot (Vec3_cross a b) (Vec3_cross a b)
  = Vec3_dot a a * Vec3_dot b b - Vec3_dot a b * Vec3_dot a b /\
  Vec3_cross (mkVec3 1 0 0) (mkVec3 0 1 0) = mkVec3 0 0 1.
Proof.
  destruct a, b.
  unfold Vec3_dot, Vec3_cross, Vec3_neg; cbn [x y z].
  repeat split; try ring; f_equal; ring.
Qed.

(** ** Frame lists *)

(** X22.  A [FrameList] bound to a folder cannot be measured or published:
    [len()] raises [TypeError] as soon as the folder has an entry (it is 0
    for an empty folder), because [is_filename_valid] is called without
    its [filename]; and [to_Path()] raises [TypeError] whatever the folder
    holds.  A list held in memory has the length of its data and one pose
    per frame. *)
Theorem FrameList_bound_folder (listdir : list String.string)
  (l : FrameList) (frame_id : String.string) :
  match bound_folder l with
  | Some _ =>
      FrameList_len listdir l
      = (match listdir with
         | [] => Ok 0%Z
         | _ :: _ => Raise TypeError
         end) /\
      to_Path listdir l frame_id = Raise TypeError
  | None =>
      FrameList_len listdir l = Ok (Z.of_nat (length (data l))) /\
      exists poses,
        to_Path listdir l frame_id = Ok poses /\
        length poses = length (data l)
  end.
Proof.
  unfold to_Path, FrameList_len, is_folder_bound.
  destruct (bound_folder l) as [folder|].
  - destruct listdir as [|f rest]; cbn; split; reflexivity.
  - split; [reflexivity|]. eexists. split; [reflexivity|].
    apply length_map.
Qed.

End GeometryExtSpec.
(* ================================================================== *)
(** * More properties of the repeat controller *)
(* ================================================================== *)

Module ControllerExtSpec.
Import Controller ControllerExt ControllerSpec.
Local Open Scope py_scope.

(** ** The scan of the window *)

Section Window.
Context {F : Type} {SF : Scalar F} {image : Type} {E : External F image}.

Local Abbreviation waypoint := (waypoint F image).
Local Abbreviation state := (state F image).
Local Abbreviation config := (config F).

Lemma present_spec (w : list (option waypoint)) (idxs : list nat) :
  match present w idxs with
  | Ok l => Forall (holds w) l /\ (length l <= length idxs)%nat /\
            (Forall (holds w) idxs -> l = idxs)
  | Raise e => e = IndexError
  end.
Proof.
  unfold present. induction idxs as [|i t IH]; cbn [filterM].
  - split; [constructor|]. split; [apply Nat.le_refl | reflexivity].
  - rewrite py_index_nonneg.
    destruct (nth_error w i) as [e|] eqn:En; cbn [bind]; [|reflexivity].
    destruct (filterM _ t) as [l|e']; cbn [bind]; [|exact IH].
    destruct IH as [IH [Hl Hall]].
    assert (Hi : py_index w (Z.of_nat i) = Ok e)
      by (rewrite py_index_nonneg, En; reflexivity).
    destruct e as [wp|]; cbn [is_None negb].
    + split; [constructor; [exists wp; exact Hi | exact IH]|].
      split; [simpl; lia|].
      intros Hf. inversion Hf; subst. f_equal. now apply Hall.
    + split; [exact IH|]. split; [simpl; lia|].
      intros Hf. inversion Hf as [|? ? [wp Hwp] ?]; subst.
      rewrite Hi in Hwp. discriminate.
Qed.

Lemma py_index_In {A : Type} (l : list A) (i : Z) (a : A) :
  py_index l i = Ok a -> In a l.
Proof.
  unfold py_index.
  destruct ((0 <=? _) && _)%Z; [|discriminate].
  destruct (nth_error l _) as [b|] eqn:En; [|discriminate].
  intros H. injection H as <-. eapply nth_error_In. exact En.
Qed.

Lemma py_index_error {A : Type} (l : list A) (i : Z) (e : exn) :
  py_index l i = Raise e -> e = IndexError.
Proof.
  unfold py_index.
  destruct ((0 <=? _) && _)%Z; [|intros H; now injection H].
  destruct (nth_error l _); [discriminate|]. intros H; now injection H.
Qed.

Lemma Forall_repeat {A : Type} (P : A -> Prop) (a : A) (n : nat) :
  P a -> Forall P (repeat a n).
Proof. intros H. induction n; simpl; constructor; auto. Qed.

Lemma scan_matches_holds (w : list (option waypoint)) (img : image)
  (idxs : list nat) :
  Forall (holds w) idxs ->
  exists ms, scan_matches w img idxs = Ok ms /\ length ms = length idxs.
Proof.
  unfold scan_matches. induction 1 as [|i t [wp Hi] _ IH]; cbn [mapM].
  - exists []. split; reflexivity.
  - rewrite Hi. cbn [bind need]. destruct IH as [ms [-> Hl]]. cbn [bind].
    eexists. split; [reflexivity|]. simpl. now rewrite Hl.
Qed.

(** X23.  The scan never looks into an empty slot: every index
    [scan_q_indices] returns holds a waypoint of the window, so matching
    the live image against the scanned slots returns one offset and score
    per index; and the only exception the selection raises is
    [IndexError] (a window shorter than [2r + 1], or no waypoint among its
    first [2r + 1] slots). *)
Theorem scan_reads_waypoints_only (r : nat) (w : list (option waypoint)) :
  match scan_q_indices r w with
  | Ok idxs =>
      Forall (holds w) idxs /\
      forall img, exists ms,
        scan_matches w img idxs = Ok ms /\ length ms = length idxs
  | Raise e => e = IndexError
  end.
Proof.
  unfold scan_q_indices.
  pose proof (present_spec w (py_range 0 (2 * r + 1))) as Hp.
  destruct (present w (py_range 0 (2 * r + 1))) as [l|e]; cbn [bind];
    [|exact Hp].
  destruct Hp as [Hl _].
  destruct (py_index l 0) as [first|e] eqn:Hf; cbn [bind];
    [|now apply py_index_error in Hf].
  assert (Hfirst : holds w first).
  { apply py_index_In in Hf. rewrite Forall_forall in Hl. now apply Hl. }
  set (l2 := py_repeat first (Z.of_nat first) ++ l).
  assert (Hl2 : Forall (holds w) l2).
  { unfold l2. apply Forall_app. split; [|exact Hl].
    unfold py_repeat. now apply Forall_repeat. }
  destruct (py_index l2 (-1)) as [last|e] eqn:Hla; cbn [bind];
    [|now apply py_index_error in Hla].
  assert (Hlast : holds w last).
  { apply py_index_In in Hla. rewrite Forall_forall in Hl2. now apply Hl2. }
  assert (Hall : Forall (holds w)
                   (l2 ++ py_repeat last (2 * Z.of_nat r - Z.of_nat last))).
  { apply Forall_app. split; [exact Hl2|].
    unfold py_repeat. now apply Forall_repeat. }
  split; [exact Hall|]. intros img. now apply scan_matches_holds.
Qed.

(** ** The speed law needs three waypoints *)

Lemma mapM_pose_at (w : list (option waypoint)) (idxs : list nat) :
  Forall (holds w) idxs ->
  exists poses, mapM (pose_at w) idxs = Ok poses /\
                length poses = length idxs.
Proof.
  induction 1 as [|i t [wp Hi] _ IH]; cbn [mapM].
  - exists []. split; reflexivity.
  - unfold pose_at at 1. rewrite Hi. cbn [bind need].
    destruct IH as [ps [-> Hl]]. cbn [bind].
    eexists. split; [reflexivity|]. simpl. now rewrite Hl.
Qed.

Lemma length_py_tail {A : Type} (l : list A) :
  length (py_tail l) = (length l - 1)%nat.
Proof. destruct l; simpl; lia. Qed.

Lemma length_py_init {A : Type} (l : list A) :
  length (py_init l) = (length l - 1)%nat.
Proof.
  unfold py_init. induction l as [|a [|b t] IH]; simpl in *; try lia.
Qed.

Lemma np_min_cases (l : list F) :
  match length l with
  | O => np_min l = Raise ValueError
  | S _ => exists m, np_min l = Ok m
  end.
Proof. destruct l; simpl; [reflexivity | eexists; reflexivity]. Qed.

(** X24.  The speed law needs three waypoints in the window: with the
    waypoints the window holds selected, [tightest_radius] raises
    [AxisError] when there is none, [ValueError] when there are one or
    two (there is no angle between segments, and [min()] of an empty array
    raises), and returns a radius when there are three or more; an
    exception of the selection itself is passed on. *)
Theorem tightest_radius_needs_three (c : config) (st : state) :
  match present (q st)
          (py_range 0 (along_path_radius c + max_rps c + 1)) with
  | Ok s_indices =>
      match length s_indices with
      | 0%nat => tightest_radius c st = Raise AxisError
      | 1%nat | 2%nat => tightest_radius c st = Raise ValueError
      | _ => exists R_min, tightest_radius c st = Ok R_min
      end
  | Raise e => tightest_radius c st = Raise e
  end.
Proof.
  unfold tightest_radius. cbv zeta.
  pose proof (present_spec (q st)
                (py_range 0 (along_path_radius c + max_rps c + 1))) as Hp.
  destruct (present (q st) _) as [s|e]; cbn [bind]; [|reflexivity].
  destruct Hp as [Hs _].
  destruct (mapM_pose_at (q st) s Hs) as [poses [-> Hlen]]. cbn [bind].
  rewrite <- Hlen.
  destruct poses as [|p0 poses]; [reflexivity|].
  cbn [map].
  match goal with |- context [np_min ?X] => set (Rs := X) end.
  assert (HRs : length Rs = (length poses - 1)%nat).
  { unfold Rs.
    repeat rewrite ?length_map, ?length_combine, ?length_py_init,
      ?length_py_tail.
    cbn [length]. rewrite length_map. lia. }
  pose proof (np_min_cases Rs) as Hmin. rewrite HRs in Hmin.
  destruct poses as [|p1 [|p2 poses]]; cbn [length Nat.sub] in *; exact Hmin.
Qed.

End Window.

(** ** Over the reals *)

Section OverReals.
Context {image : Type} {E : External R image}.
Local Open Scope R_scope.

Local Abbreviation state := (state R image).
Local Abbreviation config := (config R).
Local Abbreviation advance_in := (advance_in R image).

(** *** Filling the window *)

Lemma fill_done (c : config) (inputs : list advance_in) (st : state) :
  goal_idx st = 0%Z -> fill c inputs st = Trace [] (Exited st).
Proof. intros H. destruct inputs; cbn [fill]; rewrite H; reflexivity. Qed.

Lemma fill_warm (c : config) (n : nat) :
  0 <= initial_compensation_rotation_threshold c ->
  (1 <= max_rps c)%nat ->
  forall (inputs : list advance_in) (st : state),
    goal_idx st = (- Z.of_nat n)%Z -> settled c st ->
    (n <= length inputs)%nat ->
    exists st',
      fill c inputs st
      = Trace (match n with O => [] | S _ => [PassedGoal (Some 0%Z)] end)
              (Exited st') /\
      advances c (firstn n inputs) st = Ok st' /\
      goal_idx st' = 0%Z /\ settled c st'.
Proof.
  intros Hthr Hrps. induction n as [|m IH]; intros inputs st Hg Hst Hlen.
  - assert (H0 : goal_idx st = 0%Z) by (rewrite Hg; reflexivity).
    exists st. split; [now apply fill_done|].
    split; [reflexivity|]. split; [exact H0 | exact Hst].
  - destruct inputs as [|inp rest]; [simpl in Hlen; lia|].
    cbn [fill firstn advances].
    destruct (Z.eqb_spec (goal_idx st) 0) as [H0|_]; [lia|].
    destruct (pass_to_next_goal_returns c inp st Hthr Hrps Hst)
      as [st1 [E1 H1]].
    pose proof (pass_to_next_goal_writes c inp st) as Hw.
    destruct (pass_to_next_goal c inp st) as [out res] eqn:Ep.
    cbn [fst snd] in Hw, E1. subst res.
    pose proof (pass_to_next_goal_goal_idx c inp st st1 out Ep) as Hg1.
    cbn [bind snd].
    destruct (IH rest st1) as [st' [Hf [Ha [Hg' Hs']]]];
      [lia | exact H1 | simpl in Hlen; lia |].
    exists st'. rewrite Hf, Ha.
    split; [|split; [reflexivity | split; [exact Hg' | exact Hs']]].
    unfold prepend; cbn [writes final]. f_equal.
    rewrite Hw, Hg. unfold passed_goal_write.
    destruct m as [|m'].
    + replace (- Z.of_nat 1 + 1)%Z with 0%Z by lia. reflexivity.
    + destruct (Z.leb_spec 0 (- Z.of_nat (S (S m')) + 1)); [lia|].
      reflexivity.
Qed.

Lemma fill_short (c : config) (n : nat) :
  0 <= initial_compensation_rotation_threshold c ->
  (1 <= max_rps c)%nat ->
  forall (inputs : list advance_in) (st : state),
    goal_idx st = (- Z.of_nat n)%Z -> settled c st ->
    (length inputs < n)%nat ->
    exists st', fill c inputs st = Trace [] (Pending st').
Proof.
  intros Hthr Hrps. induction n as [|m IH]; intros inputs st Hg Hst Hlen.
  - lia.
  - destruct inputs as [|inp rest]; cbn [fill];
      (destruct (Z.eqb_spec (goal_idx st) 0) as [H0|_]; [lia|]).
    + now exists st.
    + destruct (pass_to_next_goal_returns c inp st Hthr Hrps Hst)
        as [st1 [E1 H1]].
      pose proof (pass_to_next_goal_writes c inp st) as Hw.
      destruct (pass_to_next_goal c inp st) as [out res] eqn:Ep.
      cbn [fst snd] in Hw, E1. subst res.
      pose proof (pass_to_next_goal_goal_idx c inp st st1 out Ep) as Hg1.
      destruct (IH rest st1) as [st' Hf];
        [lia | exact H1 | simpl in Hlen; lia |].
      exists st'. rewrite Hf. unfold prepend; cbn [writes final]. f_equal.
      rewrite Hw, Hg. unfold passed_goal_write.
      assert (m <> 0)%nat by (simpl in Hlen; lia).
      destruct (Z.leb_spec 0 (- Z.of_nat (S m) + 1)); [lia|]. reflexivity.
Qed.

(** X25.  Filling the window ([run], lines 150-152) reads exactly
    [max_rps + 1] entries of the record queue: given that many, it ends
    with goal index 0 after writing the single value 0 to [passed_goal],
    in the state the first [max_rps + 1] advances lead to, and reads no
    further entry; given fewer, it writes nothing and is still waiting for
    the queue.  (The rotation threshold is not negative and there is at
    least one goal of lookahead.) *)
Theorem warm_up_reads_and_writes (c : config) (warm : list advance_in) :
  0 <= initial_compensation_rotation_threshold c ->
  (1 <= max_rps c)%nat ->
  ((max_rps c + 1 <= length warm)%nat ->
   exists st,
     fill c warm (start c) = Trace [PassedGoal (Some 0%Z)] (Exited st) /\
     advances c (firstn (max_rps c + 1) warm) (start c) = Ok st /\
     goal_idx st = 0%Z /\ length (q st) = q_size c) /\
  ((length warm <= max_rps c)%nat ->
   exists st, fill c warm (start c) = Trace [] (Pending st)).
Proof.
  intros Hthr Hrps.
  assert (Hg : goal_idx (start (image := image) c)
               = (- Z.of_nat (max_rps c + 1))%Z) by (simpl; lia).
  pose proof (settled_start (image := image) c) as Hs.
  split; intros Hlen.
  - destruct (fill_warm c (max_rps c + 1) Hthr Hrps warm (start c) Hg Hs Hlen)
      as [st [Hf [Ha [H0 [Hq _]]]]].
    exists st. replace (max_rps c + 1)%nat with (S (max_rps c)) in Hf by lia.
    now repeat split.
  - apply (fill_short c (max_rps c + 1) Hthr Hrps warm (start c) Hg Hs). lia.
Qed.

(** *** The suppression of scores *)

Lemma filter_nonempty {A : Type} (f : A -> bool) (l : list A) :
  filter f l <> [] <-> exists a, In a l /\ f a = true.
Proof.
  split.
  - intros H. destruct (filter f l) as [|a t] eqn:Ef; [contradiction|].
    exists a. apply filter_In. rewrite Ef. now left.
  - intros [a Ha] Hn. apply filter_In in Ha. rewrite Hn in Ha. exact Ha.
Qed.

(** X26.  The suppression of line 228 returns exactly when the scores
    hold two different values: on an empty or constant vector of scores
    [max()] of the empty selection raises [ValueError], and on every other
    vector the scores come back with those below the second-highest value
    set to 0. *)
Theorem suppress_returns_iff_two_values (scan_values : list R) :
  match suppress scan_values with
  | Ok vals =>
      (exists a b, In a scan_values /\ In b scan_values /\ a <> b) /\
      length vals = length scan_values
  | Raise e =>
      e = ValueError /\
      forall a b, In a scan_values -> In b scan_values -> a = b
  end.
Proof.
  unfold suppress.
  destruct (np_max scan_values) as [m|e] eqn:Hm; cbn [bind].
  2: { destruct scan_values; simpl in Hm; [|discriminate].
       injection Hm as <-. split; [reflexivity|]. intros a b []. }
  pose proof (np_max_greatest _ _ Hm) as [Hin Hmax].
  destruct (np_max (filter (fun x => negb (eqb x m)) scan_values))
    as [s|e] eqn:Hs; cbn [bind].
  - split; [|apply length_map].
    assert (Hne : filter (fun x => negb (eqb x m)) scan_values <> [])
      by (intros H0; rewrite H0 in Hs; discriminate).
    apply filter_nonempty in Hne. destruct Hne as [a [Ha Hf]].
    exists a, m. split; [exact Ha|]. split; [exact Hin|].
    intros ->. rewrite (proj2 (eqb_R m m) eq_refl) in Hf. discriminate.
  - destruct (filter (fun x => negb (eqb x m)) scan_values) as [|a t] eqn:Ef;
      [|discriminate].
    simpl in Hs. injection Hs as <-. split; [reflexivity|].
    assert (Hall : forall a, In a scan_values -> a = m).
    { intros a Ha. destruct (Req_dec_T a m) as [->|Hneq]; [reflexivity|].
      assert (Hi : In a (filter (fun x => negb (eqb x m)) scan_values)).
      { apply filter_In. split; [exact Ha|].
        destruct (eqb a m) eqn:Eq; [|reflexivity].
        apply eqb_R in Eq. contradiction. }
      rewrite Ef in Hi. destruct Hi. }
    intros a b Ha Hb. rewrite (Hall a Ha), (Hall b Hb). reflexivity.
Qed.

(** *** The steering law *)

(** X27.  The turn rate asked for one lookahead point never needs a
    tighter turn than the vehicle can make at the reference velocity: for a
    point [(x, y)] with [y <> 0] and a positive minimum radius (computed
    from a tangent that is not 0), the radius of line 299 is at least
    [R_min_abs] in magnitude and [|w| <= |v_full| / R_min_abs]. *)
Theorem turn_rate_bounded (c : config) (xy : R * R) :
  np_tan (max_steering_angle c) <> 0 ->
  0 < R_min_abs c -> snd xy <> 0 ->
  R_min_abs c <= Rabs (turn_radius c xy) /\
  Rabs (turn_rate c (turn_radius c xy))
  <= Rabs (reference_velocity c) / R_min_abs c.
Proof.
  intros _ HR Hy. destruct xy as [px py]. cbn [snd] in Hy.
  assert (Hrad : R_min_abs c <= Rabs (turn_radius c (px, py))).
  { unfold turn_radius, np_sign. cbn [fst snd isnan Scalar_R]. cbv zeta.
    to_R.
    set (R0 := (px * px + py * py) / 2 / py).
    assert (HR0 : R0 <> 0).
    { unfold R0, Rdiv.
      assert (0 < px * px + py * py) by nra.
      assert (/ py <> 0) by now apply Rinv_neq_0_compat.
      assert (/ 2 <> 0) by (apply Rinv_neq_0_compat; lra).
      repeat apply Rmult_integral_contrapositive_currified; try assumption.
      lra. }
    repeat match goal with
           | |- context [ltb ?a ?b] =>
               let L := fresh "L" in
               destruct (ltb a b) eqn:L;
               [apply ltb_R in L | apply ltb_R_false in L]
           end;
      try (unfold Rabs; destruct (Rcase_abs _); lra); lra. }
  split; [exact Hrad|].
  unfold turn_rate. cbn [isnan Scalar_R]. cbv zeta. to_R.
  set (R1 := turn_radius c (px, py)) in *.
  assert (H1 : 0 < Rabs R1) by lra.
  assert (HR1 : R1 <> 0) by (intros H0; rewrite H0, Rabs_R0 in H1; lra).
  unfold Rdiv. rewrite Rabs_mult, Rabs_inv.
  apply Rmult_le_compat_l; [apply Rabs_pos|].
  apply Rinv_le_contravar; assumption.
Qed.

(** *** The speed law *)

(** X28.  The speed law interpolates between the low speed and the
    reference velocity, and keeps the curvature: when the elementary
    function [np.exp] is the exponential, the reference velocity is not 0
    and the tightest radius [R_min] is a number (the branch of line 331 for
    a NaN is not taken), the commanded speed is [2 + t (v_full - 2)] for
    some [0 <= t <= 0.75] (at most three quarters of the way from
    [v_low = 2] to [v_full]), and the commanded turn rate is the steering
    turn rate scaled by [v_target / v_full]. *)
Theorem throttle_speed_cap (c : config) (R_min w_target : R) :
  (forall a, np_exp a = exp a) ->
  reference_velocity c <> 0 ->
  exists t, 0 <= t <= 3 / 4 /\
    fst (throttle c R_min w_target) = 2 + t * (reference_velocity c - 2) /\
    snd (throttle c R_min w_target)
    = fst (throttle c R_min w_target) * w_target / reference_velocity c.
Proof.
  intros Hexp _. unfold throttle. cbn [isnan Scalar_R]. cbv zeta.
  cbn [fst snd]. rewrite Hexp. to_R.
  set (offset := py_max 0 (R_min - R_min_abs c)).
  assert (Ho : 0 <= offset).
  { unfold offset, py_max.
    destruct (ltb 0 (R_min - R_min_abs c)) eqn:El.
    - apply ltb_R in El. lra.
    - lra. }
  assert (He : 0 < exp (- offset) <= 1).
  { split; [apply exp_pos|].
    destruct Ho as [Ho|Ho].
    - left. rewrite <- exp_0. apply exp_increasing. lra.
    - right. rewrite <- Ho, Ropp_0. apply exp_0. }
  exists ((1 - exp (- offset)) * (3 / 4)). split; [lra|].
  split; [unfold Rdiv; ring | reflexivity].
Qed.

End OverReals.

Section RealWitnesses.
Local Open Scope R_scope.

Local Abbreviation the_flat_world := (world (F := R) flat_matcher).
Local Abbreviation the_numpy_world := (numpy_world flat_matcher).
Local Abbreviation the_config := (test_config (F := R)).
Local Abbreviation the_path := (straight_path (F := R)).

Lemma test_config_threshold :
  0 <= initial_compensation_rotation_threshold the_config.
Proof.
  unfold test_config; cbn [initial_compensation_rotation_threshold].
  to_R. lra.
Qed.

(** The recorded path of five waypoints fills the window of the test
    configuration. *)
Lemma warm_up_reads_and_writes_witness :
  exists st,
    fill (E := the_flat_world) the_config the_path (start the_config)
    = Trace [PassedGoal (Some 0%Z)] (Exited st) /\
    advances (E := the_flat_world) the_config
      (firstn (max_rps the_config + 1) the_path) (start the_config)
    = Ok st /\
    goal_idx st = 0%Z /\ length (q st) = q_size the_config.
Proof.
  apply (warm_up_reads_and_writes (E := the_flat_world) the_config the_path).
  - exact test_config_threshold.
  - unfold max_rps, test_config;
      cbn [along_path_radius steering_predict_goals slowing_predict_goals
           Nat.max]. lia.
  - unfold max_rps, test_config, straight_path;
      cbn [along_path_radius steering_predict_goals slowing_predict_goals
           Nat.max].
    rewrite length_app, length_map, length_seq, repeat_length. lia.
Defined.

Lemma turn_rate_bounded_witness :
  R_min_abs (E := the_flat_world) the_config
  <= Rabs (turn_radius (E := the_flat_world) the_config (1, 1)) /\
  Rabs (turn_rate the_config
          (turn_radius (E := the_flat_world) the_config (1, 1)))
  <= Rabs (reference_velocity the_config)
     / R_min_abs (E := the_flat_world) the_config.
Proof.
  apply (turn_rate_bounded (E := the_flat_world) the_config (1, 1)).
  - unfold test_config; cbn [max_steering_angle np_tan world]. to_R. lra.
  - unfold R_min_abs, test_config;
      cbn [wheelbase max_steering_angle track np_tan world]. to_R. lra.
  - cbn [snd]. lra.
Defined.

Lemma throttle_speed_cap_witness :
  exists t, 0 <= t <= 3 / 4 /\
    fst (throttle (E := the_numpy_world) the_config 5 1)
    = 2 + t * (reference_velocity the_config - 2) /\
    snd (throttle (E := the_numpy_world) the_config 5 1)
    = fst (throttle (E := the_numpy_world) the_config 5 1) * 1
      / reference_velocity the_config.
Proof.
  apply (throttle_speed_cap (E := the_numpy_world) the_config 5 1).
  - intros a. reflexivity.
  - unfold test_config; cbn [reference_velocity]. to_R. lra.
Defined.

End RealWitnesses.

End ControllerExtSpec.
(* ================================================================== *)
(** * Properties of the operators *)
(* ================================================================== *)

Module OperatorSpec.
Import Operator.
Local Open Scope R_scope.

(** ** The teacher thins the poses it records *)

Lemma newest_snoc {A : Type} (l : list A) (a : A) : newest (l ++ [a]) = Some a.
Proof.
  induction l as [|b t IH]; [reflexivity|].
  cbn [app newest]. destruct (t ++ [a]) eqn:E; [|exact IH].
  destruct t; discriminate.
Qed.

Lemma newest_nth_error {A : Type} (l : list A) :
  newest l = nth_error l (length l - 1).
Proof.
  induction l as [|b t IH]; [reflexivity|].
  destruct t as [|c t']; [reflexivity|].
  change (newest (b :: c :: t')) with (newest (c :: t')). rewrite IH.
  cbn [length].
  replace (S (S (length t')) - 1)%nat with (S (S (length t') - 1)) by lia.
  reflexivity.
Qed.

Section TeacherSpec.
Variables frame image : Type.
Variables yaw_difference translation_difference : frame -> frame -> R.

Local Abbreviation Teacher := (@Teacher frame image).
Local Abbreviation odom_event := (@odom_event frame image).
Local Abbreviation under :=
  (difference_under_threshold yaw_difference translation_difference).
Local Abbreviation received :=
  (odom_received yaw_difference translation_difference).
Local Abbreviation all_received :=
  (odoms_received yaw_difference translation_difference).
Local Abbreviation thin :=
  (thinned yaw_difference translation_difference).
Local Abbreviation kept :=
  (kept yaw_difference translation_difference).

Lemma thinned_snoc (t : Teacher) (l : list frame) (b : frame) :
  thin t l ->
  match newest l with
  | None => True
  | Some a => under t a b = false
  end ->
  thin t (l ++ [b]).
Proof.
  intros Hl Hn i x y Hx Hy.
  assert (Hi : (S i < length (l ++ [b]))%nat)
    by (apply nth_error_Some; congruence).
  rewrite length_app in Hi. cbn [length] in Hi.
  destruct (Nat.eq_dec (S i) (length l)) as [He|He].
  - rewrite nth_error_app2 in Hy by lia.
    replace (S i - length l)%nat with 0%nat in Hy by lia.
    injection Hy as <-.
    rewrite nth_error_app1 in Hx by lia.
    rewrite newest_nth_error in Hn.
    replace (length l - 1)%nat with i in Hn by lia.
    rewrite Hx in Hn. exact Hn.
  - rewrite nth_error_app1 in Hx by lia.
    rewrite nth_error_app1 in Hy by lia.
    exact (Hl i x y Hx Hy).
Qed.

Lemma thinned_nil (t : Teacher) : thin t [].
Proof. intros i a b H. destruct i; discriminate. Qed.

Lemma odom_received_frame (t : Teacher) (ev : odom_event) :
  params (received t ev) = params t /\
  recording_launched (received t ev) = recording_launched t /\
  global_locator_used (received t ev) = global_locator_used t /\
  (odoms (recording (received t ev)) = odoms (recording t) \/
   odoms (recording (received t ev))
   = odoms (recording t) ++ [biased_odom ev]).
Proof.
  unfold odom_received.
  destruct (negb (is_ready t (devices ev)) || negb (recording_launched t));
    [now repeat split; try left|].
  cbv zeta.
  destruct (match newest (odoms (recording t)) with
            | None => true
            | Some last => negb (under t last (biased_odom ev))
            end); [|now repeat split; try left].
  cbn [set_recording params recording_launched global_locator_used recording
       odoms].
  repeat split. now right.
Qed.

Lemma odom_received_kept (t : Teacher) (ev : odom_event) :
  kept t -> kept (received t ev).
Proof.
  intros [Hp [Ht [Hr Hg]]]. unfold odom_received.
  destruct (negb (is_ready t (devices ev)) || negb (recording_launched t));
    [now repeat split|].
  cbv zeta.
  destruct (match newest (odoms (recording t)) with
            | None => true
            | Some last => negb (under t last (biased_odom ev))
            end) eqn:En; [|now repeat split].
  unfold kept.
  cbn [set_recording params recording processed_images odoms raw_images
       ground_truths].
  rewrite !length_app. cbn [length]. split; [lia|]. split.
  - apply (thinned_snoc t); [exact Ht|].
    destruct (newest (odoms (recording t))) as [a|]; [|exact I].
    now apply negb_true_iff in En.
  - split.
    + revert Hr.
      destruct (save_raw_images (params t)); intros Hr; cbv iota in Hr;
        [rewrite length_app; cbn [length]|]; lia.
    + destruct (save_ground_truth_odoms (params t)); [|lia].
      destruct (global_locator_used t); [|lia].
      destruct (global_frame ev); [rewrite length_app; cbn [length]|]; lia.
Qed.

Lemma odoms_received_kept (evs : list odom_event) (t : Teacher) :
  kept t ->
  kept (all_received t evs) /\
  params (all_received t evs) = params t /\
  recording_launched (all_received t evs) = recording_launched t /\
  (length (odoms (recording (all_received t evs)))
   <= length (odoms (recording t)) + length evs)%nat.
Proof.
  unfold odoms_received. revert t.
  induction evs as [|ev rest IH]; intros t Hk; cbn [fold_left].
  - split; [exact Hk|]. split; [reflexivity|]. split; [reflexivity|].
    cbn [length]. lia.
  - destruct (IH (received t ev) (odom_received_kept t ev Hk))
      as [H1 [H2 [H3 H4]]].
    destruct (odom_received_frame t ev) as [F1 [F2 [_ F4]]].
    split; [exact H1|]. split; [congruence|]. split; [congruence|].
    cbn [length]. destruct F4 as [F4|F4]; rewrite F4 in H4;
      [|rewrite length_app in H4; cbn [length] in H4]; lia.
Qed.

(** X29.  The teacher thins the poses it is sent: starting from an empty
    recording, after any sequence of [odom_received] calls no two
    consecutive recorded poses are under both thresholds of
    [difference_under_threshold], there is exactly one processed image per
    recorded pose, one raw image per pose exactly when [save_raw_images] is
    set, and never more ground truths than poses; the calls leave the
    parameters and [recording_launched] alone.  Whether a call records at
    all depends on [is_ready], which a ready global locator satisfies
    whatever the camera and the odometry answer. *)
Theorem teacher_thins_the_poses (t : Teacher) (evs : list odom_event) :
  recording t = mkRecording [] [] [] [] ->
  let t' := all_received t evs in
  let r := recording t' in
  thin t (odoms r) /\
  length (processed_images r) = length (odoms r) /\
  length (raw_images r)
  = (if save_raw_images (params t) then length (odoms r) else 0%nat) /\
  (length (ground_truths r) <= length (odoms r) <= length evs)%nat /\
  params t' = params t /\
  recording_launched t' = recording_launched t /\
  forall d, device_ready (global_locator d) = true -> is_ready t d = true.
Proof.
  intros Hr. cbv zeta.
  assert (Hk : kept t).
  { unfold kept. rewrite Hr. cbn [processed_images odoms raw_images
                                  ground_truths length].
    split; [reflexivity|]. split; [apply thinned_nil|].
    split; [now destruct (save_raw_images (params t)) | lia]. }
  destruct (odoms_received_kept evs t Hk) as [[Hp [Ht [Hraw Hg]]] [HP [HL Hn]]].
  rewrite Hr in Hn. cbn [odoms length] in Hn.
  rewrite HP in Hraw.
  split.
  { intros i a b Ha Hb. pose proof (Ht i a b Ha Hb) as H.
    unfold difference_under_threshold in *. rewrite HP in H. exact H. }
  split; [exact Hp|]. split; [exact Hraw|].
  split; [lia|]. split; [exact HP|]. split; [exact HL|].
  intros d Hd. unfold is_ready. rewrite Hd. apply orb_true_r.
Qed.

End TeacherSpec.

(** ** The repeater *)

Lemma call_cases (r : Repeater) (c : request * repeater_devices) :
  let r1 := fst (call r c) in
  let out := snd (call r c) in
  recording_and_params_initialized r1 = recording_and_params_initialized r /\
  ((repeating_paused r = true -> repeating_launched r = true) ->
   (repeating_paused r1 = true -> repeating_launched r1 = true)) /\
  (repeating_launched r = true ->
   repeating_launched r1 = true /\ out = []) /\
  (repeating_launched r = false ->
   out = if repeating_launched r1 then [Zeroize] else []).
Proof.
  destruct c as [[| |] d]; destruct r as [i l p];
    unfold call, start_repeating, resume_repeating, pause_repeating;
    cbn [fst snd recording_and_params_initialized repeating_launched
         repeating_paused];
    destruct (repeater_is_ready _ d), l, p; cbn; repeat split; auto;
    try discriminate; intros; auto; try discriminate.
Qed.

Lemma calls_cases (cs : list (request * repeater_devices)) (r : Repeater) :
  let r' := fst (calls r cs) in
  let out := snd (calls r cs) in
  recording_and_params_initialized r' = recording_and_params_initialized r /\
  ((repeating_paused r = true -> repeating_launched r = true) ->
   (repeating_paused r' = true -> repeating_launched r' = true)) /\
  (repeating_launched r = true ->
   repeating_launched r' = true /\ out = []) /\
  (repeating_launched r = false ->
   out = if repeating_launched r' then [Zeroize] else []).
Proof.
  revert r. induction cs as [|c rest IH]; intros r; cbn [calls].
  - cbn [fst snd]. repeat split; auto.
    intros ->. reflexivity.
  - pose proof (call_cases r c) as Hc. cbv zeta in Hc.
    destruct (call r c) as [r1 out1]. cbn [fst snd] in Hc.
    specialize (IH r1). cbv zeta in IH.
    destruct (calls r1 rest) as [r2 out2]. cbn [fst snd] in *.
    destruct Hc as [C1 [C2 [C3 C4]]]. destruct IH as [I1 [I2 [I3 I4]]].
    split; [congruence|]. split; [auto|]. split.
    + intros Hl. destruct (C3 Hl) as [Hl1 ->].
      destruct (I3 Hl1) as [Hl2 ->]. now split.
    + intros Hl. rewrite (C4 Hl).
      destruct (repeating_launched r1) eqn:E1.
      * destruct (I3 eq_refl) as [-> ->]. reflexivity.
      * rewrite (I4 eq_refl). reflexivity.
Qed.

(** X30.  The repeater zeroizes the odometry exactly once: after any
    sequence of [start_repeating], [pause_repeating] and
    [resume_repeating] calls, whatever the devices answer, the odometry was
    zeroized once if repeating is launched and never otherwise, so pausing
    and resuming never reset it; a paused repeater is a launched one; and
    [image_received] and [odom_received] answer [True] exactly when the
    repeater is ready, launched and not paused. *)
Theorem repeater_zeroizes_once (cs : list (request * repeater_devices)) :
  let r := fst (calls Repeater_init cs) in
  let done := snd (calls Repeater_init cs) in
  done = (if repeating_launched r then [Zeroize] else []) /\
  (repeating_paused r = true -> repeating_launched r = true) /\
  forall d,
    image_received r d
    = repeater_is_ready r d && repeating_launched r
      && negb (repeating_paused r).
Proof.
  cbv zeta. pose proof (calls_cases cs Repeater_init) as H. cbv zeta in H.
  destruct H as [_ [H2 [_ H4]]].
  split; [now apply H4|]. split; [apply H2; discriminate|].
  clear H2 H4. intros d. unfold image_received, is_running.
  generalize (fst (calls Repeater_init cs)). intros r.
  destruct (repeater_is_ready r d), (repeating_launched r),
    (repeating_paused r); reflexivity.
Qed.

(** The teacher on a line, sent the positions 0, 1/2 and 2. *)
Lemma teacher_thins_the_poses_witness :
  let t' := odoms_received line_difference line_difference line_teacher
              line_events in
  let r := recording t' in
  thinned line_difference line_difference line_teacher (odoms r) /\
  length (processed_images r) = length (odoms r) /\
  length (raw_images r)
  = (if save_raw_images (params line_teacher) then length (odoms r)
     else 0%nat) /\
  (length (ground_truths r) <= length (odoms r) <= length line_events)%nat /\
  params t' = params line_teacher /\
  recording_launched t' = recording_launched line_teacher /\
  forall d, device_ready (global_locator d) = true ->
            is_ready line_teacher d = true.
Proof.
  apply (teacher_thins_the_poses R nat line_difference line_difference
           line_teacher line_events).
  reflexivity.
Defined.

End OperatorSpec.
